(** * ScaleLLM serving core: a shallow embedding and its verified properties

    The development follows the C++ sources function by function:

    - [Outcome]   : results of code that can abort ([CHECK]), throw, or hit
                    undefined behaviour;
    - [Int64]     : [int64_t] / [size_t] arithmetic with the wrap-around
                    written out;
    - [Torch]     : the [torch] notions the code relies on: devices, scalar
                    types and [itemsize]; tensors as a shape with a row-major
                    element list, with [view], [reshape], [permute], [cat];
    - [Boost]     : [boost::iequals];
    - [Engine]    : [src/engine/engine.cpp];
    - [Mpt]       : the fused-QKV reshapes of [src/models/huggingface/mpt.h];
    - [Registry]  : [src/models/model_registry.cpp];
    - [Linear]    : [ColumnParallelLinearImpl] of [src/layers/linear_impl.cpp];
    - [Tokenizer] : [src/tokenizer/sentencepiece_tokenizer.cpp];
    - [Examples]  : concrete engines, batches and tensors to run the above on;
    - [Protocol]  : the calls the engine makes on its workers, as event lists;
    - [RegistryCalls] : registry calls by kind and name;
    - [LinearRuns] : fused loading over the files of a checkpoint;
    - [GptNeox], [Bloom] : [reshape_qkv_tensor] of
                    [src/models/huggingface/gpt_neox.h] and [bloom.h];
    - [Heads]     : the rows of a fused tensor that belong to a range of heads;
    - [Plain]     : the plain [load_state_dict] of [src/layers/linear_impl.cpp]
                    and [src/layers/embedding.h];
    - [Scenarios] : further concrete workers, checkpoints and layers.

    Definitions come first; the theorems about them follow in the second
    half of the file. *)

From Stdlib Require Import ZArith Ascii String List Bool Lia.
From stdpp Require Import base option list strings gmap fin_maps.

Local Open Scope Z_scope.

(* ===================================================================== *)
(** * Part I: the embedding                                               *)
(* ===================================================================== *)

(** ** Outcomes of fallible code *)

Module Outcome.

(** How a C++ call can fail to return normally. *)
Inductive error : Type :=
| CheckFailed (msg : string)   (* CHECK / GCHECK / GLOG(FATAL): the process aborts *)
| Thrown (msg : string)        (* a C++ exception (torch errors) *)
| UndefinedBehaviour.          (* division by zero, out-of-range access *)

Inductive outcome (A : Type) : Type :=
| Ok (a : A)
| Err (e : error).
Arguments Ok {A} a.
Arguments Err {A} e.

Definition bind {A B} (m : outcome A) (k : A -> outcome B) : outcome B :=
  match m with
  | Ok a => k a
  | Err e => Err e
  end.

Definition is_ok {A} (m : outcome A) : bool :=
  match m with Ok _ => true | Err _ => false end.

(** The process was aborted by a failed check. *)
Definition aborted {A} (m : outcome A) : Prop :=
  exists msg, m = Err (CheckFailed msg).

End Outcome.
Export Outcome.

#[global] Instance outcome_ret : MRet outcome := fun _ a => Ok a.
#[global] Instance outcome_bind : MBind outcome := fun _ _ k m => Outcome.bind m k.

(** [CHECK(b) << msg]: continue when [b] holds, abort otherwise. *)
Definition CHECK (b : bool) (msg : string) : outcome unit :=
  if b then Ok tt else Err (CheckFailed msg).

(** ** 64-bit integers *)

Module Int64.

Definition min_int64 : Z := - 2 ^ 63.
Definition max_int64 : Z := 2 ^ 63 - 1.

Definition in_int64 (z : Z) : Prop := min_int64 <= z <= max_int64.

(** Two's-complement reduction to [int64_t]. *)
Definition wrap64 (z : Z) : Z := (z + 2 ^ 63) mod 2 ^ 64 - 2 ^ 63.

(** Reduction to [size_t] / [uint64_t]. *)
Definition to_u64 (z : Z) : Z := z mod 2 ^ 64.

Definition mul64 (a b : Z) : Z := wrap64 (a * b).
Definition sub64 (a b : Z) : Z := wrap64 (a - b).

(** [int64_t * size_t]: the signed operand is converted to unsigned, the
    product is taken modulo 2^64. *)
Definition mul_u64 (a b : Z) : Z := to_u64 (to_u64 a * to_u64 b).

(** Signed division truncates towards zero; a zero divisor (and
    [INT64_MIN / -1]) is undefined. *)
Definition div64 (a b : Z) : outcome Z :=
  if b =? 0 then Err UndefinedBehaviour
  else if (a =? min_int64) && (b =? -1) then Err UndefinedBehaviour
  else Ok (Z.quot a b).

(** Unsigned division. *)
Definition div_u64 (a b : Z) : outcome Z :=
  if to_u64 b =? 0 then Err UndefinedBehaviour
  else Ok (to_u64 a / to_u64 b).

End Int64.
Export Int64.

(** ** Torch devices and scalar types *)

Module Torch.

Inductive DeviceType : Type := CPU | CUDA | OtherDevice.

Record Device : Type := { device_type : DeviceType; device_index : Z }.

Definition is_cpu (d : Device) : bool :=
  match device_type d with CPU => true | _ => false end.
Definition is_cuda (d : Device) : bool :=
  match device_type d with CUDA => true | _ => false end.

(** The scalar types the engine can select. *)
Inductive ScalarType : Type := Half | BFloat16 | Float.

Definition kHalf : ScalarType := Half.
Definition kFloat16 : ScalarType := Half.
Definition kBFloat16 : ScalarType := BFloat16.
Definition kFloat32 : ScalarType := Float.

(** [scalarTypeToTypeMeta(t).itemsize()], in bytes. *)
Definition itemsize (t : ScalarType) : Z :=
  match t with
  | Half => 2
  | BFloat16 => 2
  | Float => 4
  end.

(** A defined tensor: its shape and its elements in row-major order.
    An undefined tensor ([torch::Tensor()]) is [None : option Tensor]. *)
Record Tensor : Type := { sizes : list Z; elems : list Z }.

Definition product (shape : list Z) : Z := fold_right Z.mul 1 shape.

Definition dim (t : Tensor) : Z := Z.of_nat (length (sizes t)).
Definition numel (t : Tensor) : Z := product (sizes t).

(** Shape inference of [view] / [reshape]: at most one entry is [-1], the
    others are non-negative; the inferred entry is [numel / product of the
    others], which must divide exactly and be unambiguous. *)
Fixpoint known_product (shape : list Z) : outcome (Z * nat) :=
  match shape with
  | [] => Ok (1, 0%nat)
  | d :: rest =>
      r ← known_product rest;
      if d =? -1 then Ok (r.1, S r.2)
      else if 0 <=? d then Ok (d * r.1, r.2)
      else Err (Thrown "invalid shape dimension")
  end.

Definition infer_size (shape : list Z) (n : Z) : outcome (list Z) :=
  r ← known_product shape;
  let newsize := r.1 in
  match r.2 with
  | O => if n =? newsize then Ok shape
         else Err (Thrown "shape is invalid for input size")
  | S O =>
      if (0 <? newsize) && (n mod newsize =? 0)
      then Ok (map (fun d => if d =? -1 then n / newsize else d) shape)
      else Err (Thrown "shape is invalid for input size")
  | _ => Err (Thrown "only one dimension can be inferred")
  end.

(** [t.view(shape)] and [t.reshape(shape)] on a tensor held in row-major
    order only change the shape. *)
Definition view (t : Tensor) (shape : list Z) : outcome Tensor :=
  s ← infer_size shape (numel t);
  Ok {| sizes := s; elems := elems t |}.

Definition reshape (t : Tensor) (shape : list Z) : outcome Tensor :=
  view t shape.

(** Cut a list into [n] consecutive pieces of length [k]. *)
Fixpoint chunks_n {A} (n k : nat) (l : list A) : list (list A) :=
  match n with
  | O => []
  | S n' => take k l :: chunks_n n' k (drop k l)
  end.

Definition chunks {A} (k : nat) (l : list A) : list (list A) :=
  chunks_n (length l / k) k l.

(** Every row of the matrix has [k] entries. *)
Definition uniform {A} (k : nat) (m : list (list A)) : Prop :=
  Forall (fun row => length row = k) m.

(** Transpose of a matrix with [w] columns, given as a list of rows. *)
Fixpoint zip_cons {A} (r : list A) (m : list (list A)) : list (list A) :=
  match r, m with
  | x :: r', c :: m' => (x :: c) :: zip_cons r' m'
  | _, _ => []
  end.

Fixpoint transpose {A} (w : nat) (m : list (list A)) : list (list A) :=
  match m with
  | [] => replicate w []
  | r :: m' => zip_cons r (transpose w m')
  end.

(** The [i]-th block of [r] consecutive elements. *)
Definition block {A} (r i : nat) (l : list A) : list A := take r (drop (i * r) l).

(** The elements of a matrix with [b] columns whose entries are blocks of
    [r] elements, after transposition: cut into blocks, group the blocks
    into rows, transpose, and flatten again. *)
Definition swapped {A} (b r : nat) (l : list A) : list A :=
  concat (concat (transpose b (chunks b (chunks r l)))).

(** [t.permute({1, 0, 2, ...})]: the first two dimensions are exchanged,
    the trailing ones stay.  With shape [a :: b :: rest] the elements form
    an [a] by [b] matrix of blocks of [product rest] elements. *)
Definition permute_1_0 (t : Tensor) : outcome Tensor :=
  match sizes t with
  | a :: b :: rest =>
      Ok {| sizes := b :: a :: rest;
            elems := swapped (Z.to_nat b) (Z.to_nat (product rest)) (elems t) |}
  | _ => Err (Thrown "permute: number of dims does not match")
  end.

(** [torch::cat(tensors, /*dim=*/0)]: the list must not be empty and the
    tensors must agree on every dimension but the first. *)
Definition cat0 (tensors : list Tensor) : outcome Tensor :=
  match tensors with
  | [] => Err (Thrown "cat: expected a non-empty list of Tensors")
  | t0 :: _ =>
      match sizes t0 with
      | [] => Err (Thrown "cat: zero-dimensional tensor cannot be concatenated")
      | _ :: trailing =>
          if forallb (fun t => bool_decide (tail (sizes t) = trailing)
                               && negb (bool_decide (sizes t = [])))
                     tensors
          then Ok {| sizes := foldr (fun t acc => hd 0 (sizes t) + acc) 0 tensors
                              :: trailing;
                     elems := concat (map elems tensors) |}
          else Err (Thrown "cat: sizes of tensors must match except in dimension 0")
      end
  end.

(** [dst.copy_(src)] for tensors of equal shape. *)
Definition copy_ (dst src : Tensor) : Tensor :=
  {| sizes := sizes dst; elems := elems src |}.

End Torch.
Export Torch.

(** ** [boost::iequals] *)

Module Boost.

(** [std::toupper] in the classic locale. *)
Definition to_upper (c : ascii) : ascii :=
  let n := nat_of_ascii c in
  if (Nat.leb 97 n && Nat.leb n 122)%bool then ascii_of_nat (n - 32) else c.

(** Element-wise comparison after upper-casing; both ranges must end
    together. *)
Fixpoint iequals (input test : string) : bool :=
  match input, test with
  | EmptyString, EmptyString => true
  | String a input', String b test' =>
      if Ascii.eqb (to_upper a) (to_upper b) then iequals input' test'
      else false
  | _, _ => false
  end.

(** Specification side: two strings are equal up to letter case when
    their lower-cased forms coincide. *)
Definition to_lower (c : ascii) : ascii :=
  let n := nat_of_ascii c in
  if (Nat.leb 65 n && Nat.leb n 90)%bool then ascii_of_nat (n + 32) else c.

Fixpoint lowercase (s : string) : string :=
  match s with
  | EmptyString => EmptyString
  | String c s' => String (to_lower c) (lowercase s')
  end.

Definition same_up_to_case (s t : string) : Prop := lowercase s = lowercase t.

End Boost.
Export Boost.

(** ** The engine: [src/engine/engine.cpp] *)

Module Engine.

(** *** Data the engine consumes *)

(** The fields of [ModelArgs] the engine reads. *)
Record ModelArgs : Type := {
  model_type : string;
  dtype : string;
  hidden_size : Z;
  n_layers : Z;
  n_heads : Z;
  n_kv_heads : option Z;
  vocab_size : Z                (* int64_t, -1 when unset *)
}.

Record QuantizationArgs : Type := {
  quant_method : string;
  bits : Z;
  group_size : Z;
  desc_act : bool;
  true_sequential : bool
}.

(** A checkpoint shard: parameter name to tensor. *)
Definition StateDict : Type := gmap string Tensor.

(** [Tokenizer::vocab_size()] returns a [size_t]. *)
Record Tokenizer : Type := { tokenizer_vocab_size : Z }.

Record ModelLoader : Type := {
  loader_tokenizer : option Tokenizer;    (* [None] is a null pointer *)
  loader_model_args : ModelArgs;
  loader_quant_args : QuantizationArgs;
  loader_state_dicts : list StateDict
}.

(** The process-wide flags.  [FLAGS_max_memory_utilization] is a double
    and enters the code in one expression only,
    [static_cast<int64_t>(static_cast<double>(total) * FLAGS_max_memory_utilization)];
    the flag is represented by that map on byte counts. *)
Record Flags : Type := {
  FLAGS_block_size : Z;                       (* int32 *)
  FLAGS_max_cache_size : Z;                   (* int64 *)
  FLAGS_max_memory_utilization : Z -> Z
}.

(** [memory::max_memory_allocated] and [memory::total_memory]. *)
Record Memory : Type := {
  max_memory_allocated : Device -> Z;
  total_memory : Device -> Z
}.

(** The fields of [InputParameters] ([models/input_parameters.h]). *)
Record InputParameters : Type := {
  num_prompt_tokens : Z;
  cu_seq_lens : Tensor;
  max_seq_len : Z;
  slot_ids : Tensor;
  block_tables : Tensor;
  max_context_len : Z;
  context_lens : Tensor;
  last_token_indicies : Tensor;
  token_ids : Tensor;
  seq_lens : Tensor
}.

(** Sampling options are only passed through. *)
Record SamplingParameters : Type := {
  temperature : Z; top_k : Z; top_p : Z; repetition_penalty : Z
}.

Inductive Phase : Type := prefill | decode | finished.

Record Sequence : Type := {
  prompt_tokens : list Z;
  generated_tokens : list Z;
  block_table : list Z;
  phase : Phase
}.

Definition is_prefill (s : Sequence) : bool :=
  match phase s with prefill => true | _ => false end.

(** What [Utils::prepare_inputs] hands back through its out-pointers. *)
Record PreparedInputs : Type := {
  input_token_ids : Tensor;
  input_positions : Tensor;
  seq_indices : list nat;
  input_params : InputParameters;
  sampling_params : SamplingParameters
}.

(** Modelled from the spec: [OutputParameters] (declared outside the
    available sources) holds "one sampled token id per input sequence,
    in the packed batch order". *)
Record OutputParameters : Type := { next_tokens : list Z }.

(** Modelled from the spec: [OutputParameters::index_select] (defined
    outside the available sources) "selects packed outputs at
    [seq_indices]": entry [i] of the result is entry [seq_indices[i]] of
    the packed output; an index outside the output throws, as torch's
    [index_select] does. *)
Definition index_select (o : OutputParameters) (indices : list nat)
  : outcome OutputParameters :=
  match mapM (fun i => next_tokens o !! i) indices with
  | Some l => Ok {| next_tokens := l |}
  | None => Err (Thrown "index out of range")
  end.

(** *** Workers *)

(** [Worker] is an external collaborator; the engine sees it through the
    results of its operations. *)
Record Worker : Type := {
  device : Device;
  worker_init_model : ScalarType -> ModelArgs -> QuantizationArgs -> bool;
  worker_load_state_dict : StateDict -> outcome unit;
  worker_verify_loaded_weights : list StateDict -> outcome unit;
  worker_init_kv_cache : list Z -> list Z -> bool;
  worker_execute_model :
    Tensor -> Tensor -> InputParameters -> SamplingParameters -> OutputParameters
}.

(** The collaborators whose code lies outside [engine.cpp]. *)
Class Collaborators : Type := {
  ModelLoader_create : string -> ModelLoader;
  prepare_inputs : list Sequence -> Z -> PreparedInputs;
  flags : Flags;
  memory : Memory
}.

(** *** Observable events *)

Inductive severity : Type := INFO | WARNING | ERROR.

Inductive call : Type :=
| InitModel (t : ScalarType) (a : ModelArgs) (q : QuantizationArgs)
| LoadStateDict (sd : StateDict)
| VerifyLoadedWeights
| InitKvCache (key_cache_shape value_cache_shape : list Z)
| ExecuteModel (tokens positions : Tensor)
               (ip : InputParameters) (sp : SamplingParameters).

Inductive event : Type :=
| Log (s : severity) (msg : string)
| Blocking (worker_rank : nat) (c : call)   (* call in the current thread *)
| Async (worker_rank : nat) (c : call)      (* the [_async] variant: a future *)
| CollectAll (n : nat)                      (* [folly::collectAll(futures).get()] *)
| NewBlockManager (num_blocks block_size : Z).

(** *** Engine state *)

Record EngineData : Type := {
  devices_ : list Device;
  workers_ : list Worker;
  tokenizer_ : option Tokenizer;
  args_ : ModelArgs;
  dtype_ : ScalarType;
  block_manager_ : option (Z * Z)
}.

Record State : Type := { engine : EngineData; trace : list event }.

(** Engine methods: state passing, with the events appended to [trace]. *)
Definition M (A : Type) : Type := State -> outcome A * State.

Definition ret {A} (a : A) : M A := fun s => (Ok a, s).
Definition bindM {A B} (m : M A) (k : A -> M B) : M B :=
  fun s => match m s with
           | (Ok a, s') => k a s'
           | (Err e, s') => (Err e, s')
           end.
Definition lift {A} (o : outcome A) : M A := fun s => (o, s).
Definition emit (e : event) : M unit :=
  fun s => (Ok tt, {| engine := engine s; trace := trace s ++ [e] |}).
Definition get : M EngineData := fun s => (Ok (engine s), s).
Definition modify (f : EngineData -> EngineData) : M unit :=
  fun s => (Ok tt, {| engine := f (engine s); trace := trace s |}).

#[global] Instance M_ret : MRet M := @ret.
#[global] Instance M_bind : MBind M := fun _ _ k m => bindM m k.

(** Run [f rank worker] over the workers in rank order. *)
Fixpoint for_workers {A} (f : nat -> Worker -> M A) (rank : nat)
         (ws : list Worker) : M (list A) :=
  match ws with
  | [] => ret []
  | w :: ws' =>
      a ← f rank w;
      rest ← for_workers f (S rank) ws';
      ret (a :: rest)
  end.

(** [v.front()] / [v[0]]: undefined on an empty vector. *)
Definition front {A} (v : list A) : outcome A :=
  match v with
  | a :: _ => Ok a
  | [] => Err UndefinedBehaviour
  end.

Definition string_empty (s : string) : bool :=
  match s with EmptyString => true | _ => false end.

(** *** [parse_dtype] (lines 29-52) *)

Definition parse_dtype (dtype_str : string) (device : Device)
  : outcome ScalarType :=
  if is_cpu device then Ok kFloat32
  else if iequals dtype_str "half" || iequals dtype_str "float16" then Ok kHalf
  else if iequals dtype_str "bfloat16" then Ok kBFloat16
  else if iequals dtype_str "float" || iequals dtype_str "float32" then Ok kFloat32
  else if string_empty dtype_str || iequals dtype_str "auto" then Ok kFloat16
  else Err (CheckFailed "Unsupported dtype").

Section WithCollaborators.
Context `{Collaborators}.

(** *** [Engine::init_kv_cache] (lines 161-253) *)

(** Lines 166-178: the per-worker cache geometry. *)
Record Geometry : Type := {
  g_block_size : Z;
  g_n_local_kv_heads : Z;
  g_head_dim : Z;
  g_dtype_size : Z;
  g_block_size_in_bytes : Z
}.

Definition kv_geometry (e : EngineData) : outcome Geometry :=
  let block_size := FLAGS_block_size flags in
  let world_size := Z.of_nat (length (workers_ e)) in
  let n_heads := n_heads (args_ e) in
  let n_kv_heads := default n_heads (n_kv_heads (args_ e)) in
  n_local_kv_heads ← div64 n_kv_heads world_size;
  head_dim ← div64 (hidden_size (args_ e)) n_heads;
  let dtype_size := itemsize (dtype_ e) in
  let block_size_in_bytes :=
    wrap64 (mul_u64 (mul64 (mul64 (mul64 (mul64 2 block_size)
                                         n_local_kv_heads)
                                  head_dim)
                           (n_layers (args_ e)))
                    dtype_size) in
  Ok {| g_block_size := block_size;
        g_n_local_kv_heads := n_local_kv_heads;
        g_head_dim := head_dim;
        g_dtype_size := dtype_size;
        g_block_size_in_bytes := block_size_in_bytes |}.

(** Lines 202-209: the cache budget on a CUDA device. *)
Definition cuda_max_cache_size (device : Device) : Z :=
  let allocated_bytes := max_memory_allocated memory device in
  let total_memory := total_memory memory device in
  let max_cache_size :=
    sub64 (FLAGS_max_memory_utilization flags total_memory) allocated_bytes in
  if 0 <? FLAGS_max_cache_size flags
  then Z.min max_cache_size (FLAGS_max_cache_size flags)
  else max_cache_size.

(** Lines 185-217: the number of blocks.  [torch::cuda::synchronize()] and
    the [GLOG(INFO)] lines change none of the values below and are left
    out. *)
Definition profile_num_blocks (device : Device) (block_size_in_bytes : Z)
  : outcome Z :=
  if is_cpu device then
    num_blocks ← div64 (FLAGS_max_cache_size flags) block_size_in_bytes;
    CHECK (0 <? num_blocks) "Not enough memory for the cache";;
    Ok num_blocks
  else if is_cuda device then
    let max_cache_size := cuda_max_cache_size device in
    CHECK (0 <? max_cache_size) "Not enough memory for the cache";;
    num_blocks ← div64 max_cache_size block_size_in_bytes;
    CHECK (0 <? num_blocks) "Not enough memory for the cache";;
    Ok num_blocks
  else Err (CheckFailed "Only support CPU and CUDA device for now.").

(** Lines 223-227: the cache shapes. *)
Definition kv_cache_shapes (g : Geometry) (num_blocks : Z)
  : outcome (list Z * list Z) :=
  x ← div_u64 16 (g_dtype_size g);
  head_dim_x ← div64 (g_head_dim g) x;
  Ok ([num_blocks; g_n_local_kv_heads g; head_dim_x; g_block_size g; x],
      [num_blocks; g_n_local_kv_heads g; g_head_dim g; g_block_size g]).

Definition init_kv_cache : M bool :=
  e ← get;
  g ← lift (kv_geometry e);
  w0 ← lift (front (workers_ e));
  num_blocks ← lift (profile_num_blocks (device w0) (g_block_size_in_bytes g));
  shapes ← lift (kv_cache_shapes g num_blocks);
  let key_cache_shape := shapes.1 in
  let value_cache_shape := shapes.2 in
  modify (fun e => {| devices_ := devices_ e; workers_ := workers_ e;
                      tokenizer_ := tokenizer_ e; args_ := args_ e;
                      dtype_ := dtype_ e;
                      block_manager_ := Some (num_blocks, g_block_size g) |});;
  emit (NewBlockManager num_blocks (g_block_size g));;
  if Nat.eqb (length (workers_ e)) 1 then
    emit (Blocking 0 (InitKvCache key_cache_shape value_cache_shape));;
    ret (worker_init_kv_cache w0 key_cache_shape value_cache_shape)
  else
    results ← for_workers
      (fun rank w =>
         emit (Async rank (InitKvCache key_cache_shape value_cache_shape));;
         ret (worker_init_kv_cache w key_cache_shape value_cache_shape))
      0%nat (workers_ e);
    emit (CollectAll (length results));;
    ret (forallb id results).

(** *** [Engine::init_model] (lines 89-159) *)

Definition set_tokenizer (t : Tokenizer) (e : EngineData) : EngineData :=
  {| devices_ := devices_ e; workers_ := workers_ e; tokenizer_ := Some t;
     args_ := args_ e; dtype_ := dtype_ e; block_manager_ := block_manager_ e |}.
Definition set_args (a : ModelArgs) (e : EngineData) : EngineData :=
  {| devices_ := devices_ e; workers_ := workers_ e; tokenizer_ := tokenizer_ e;
     args_ := a; dtype_ := dtype_ e; block_manager_ := block_manager_ e |}.
Definition set_dtype (t : ScalarType) (e : EngineData) : EngineData :=
  {| devices_ := devices_ e; workers_ := workers_ e; tokenizer_ := tokenizer_ e;
     args_ := args_ e; dtype_ := t; block_manager_ := block_manager_ e |}.

(** [tokenizer_->vocab_size() != args_.vocab_size()]: a [size_t] against
    an [int64_t], compared as unsigned. *)
Definition vocab_size_mismatch (t : Tokenizer) (a : ModelArgs) : bool :=
  negb (to_u64 (tokenizer_vocab_size t) =? to_u64 (vocab_size a)).

(** Lines 116-118: the single worker loads every shard in turn. *)
Fixpoint load_blocking (w : Worker) (sds : list StateDict) : M unit :=
  match sds with
  | [] => ret tt
  | sd :: rest =>
      emit (Blocking 0 (LoadStateDict sd));;
      lift (worker_load_state_dict w sd);;
      load_blocking w rest
  end.

(** Lines 139-152: every shard goes to all workers; an exception in any
    of the futures makes [init_model] return false. *)
Fixpoint load_parallel (ws : list Worker) (sds : list StateDict) : M bool :=
  match sds with
  | [] => ret true
  | sd :: rest =>
      results ← for_workers
        (fun rank w =>
           emit (Async rank (LoadStateDict sd));;
           ret (worker_load_state_dict w sd))
        0%nat ws;
      emit (CollectAll (length results));;
      if forallb is_ok results then load_parallel ws rest else ret false
  end.

(** Lines 109-158: bring the model up on the workers [e] holds. *)
Definition init_workers (e : EngineData) (dt : ScalarType) (args : ModelArgs)
           (quant_args : QuantizationArgs) (state_dicts : list StateDict) : M bool :=
  if Nat.eqb (length (workers_ e)) 1 then
    worker ← lift (front (workers_ e));
    emit (Blocking 0 (InitModel dt args quant_args));;
    if negb (worker_init_model worker dt args quant_args) then ret false
    else
      load_blocking worker state_dicts;;
      emit (Blocking 0 VerifyLoadedWeights);;
      lift (worker_verify_loaded_weights worker state_dicts);;
      ret true
  else
    results ← for_workers
      (fun rank w =>
         emit (Async rank (InitModel dt args quant_args));;
         ret (worker_init_model w dt args quant_args))
      0%nat (workers_ e);
    emit (CollectAll (length results));;
    if negb (forallb id results) then ret false
    else
      loaded ← load_parallel (workers_ e) state_dicts;
      if negb loaded then ret false
      else
        for_workers
          (fun rank w =>
             emit (Blocking rank VerifyLoadedWeights);;
             lift (worker_verify_loaded_weights w state_dicts))
          0%nat (workers_ e);;
        ret true.

(** Lines 93-158, for the loader that [ModelLoader::create] returned. *)
Definition init_model_from (model_loader : ModelLoader) : M bool :=
  tok ← lift (match loader_tokenizer model_loader with
              | Some t => Ok t
              | None => Err (CheckFailed "tokenizer_ != nullptr")
              end);
  modify (set_tokenizer tok);;
  let args := loader_model_args model_loader in
  modify (set_args args);;
  e ← get;
  device0 ← lift (front (devices_ e));
  dt ← lift (parse_dtype (dtype args) device0);
  modify (set_dtype dt);;
  (if vocab_size_mismatch tok args
   then emit (Log WARNING "Vocab size mismatch")
   else ret tt);;
  let quant_args := loader_quant_args model_loader in
  init_workers e dt args quant_args (loader_state_dicts model_loader).

Definition init_model (model_weights_path : string) : M bool :=
  init_model_from (ModelLoader_create model_weights_path).

(** *** [Engine::init] (lines 76-87) *)

Definition init (model_weights_path : string) : M bool :=
  ok ← init_model model_weights_path;
  if negb ok then
    emit (Log ERROR ("Failed to initialize model from: " +:+ model_weights_path));;
    ret false
  else
    ok ← init_kv_cache;
    if negb ok then
      emit (Log ERROR "Failed to initialize kv cache");;
      ret false
    else ret true.

(** *** [Engine::execute_model] (lines 255-294) *)

Definition execute_model (batch : list Sequence) : M OutputParameters :=
  e ← get;
  let p := prepare_inputs batch (FLAGS_block_size flags) in
  let c := ExecuteModel (input_token_ids p) (input_positions p)
                        (input_params p) (sampling_params p) in
  if Nat.eqb (length (workers_ e)) 1 then
    w0 ← lift (front (workers_ e));
    emit (Blocking 0 c);;
    let output := worker_execute_model w0 (input_token_ids p) (input_positions p)
                                       (input_params p) (sampling_params p) in
    lift (index_select output (seq_indices p))
  else
    results ← for_workers
      (fun rank w =>
         emit (Async rank c);;
         ret (worker_execute_model w (input_token_ids p) (input_positions p)
                                   (input_params p) (sampling_params p)))
      0%nat (workers_ e);
    emit (CollectAll (length results));;
    first_output ← lift (front results);
    lift (index_select first_output (seq_indices p)).

End WithCollaborators.

(** *** The packing order *)

(** Modelled from the spec: [Utils::prepare_inputs] is defined outside the
    available sources.  Packing rule 1: "Prefill sequences are placed
    first in the packed order, decode sequences second." *)
Definition packed_order (batch : list Sequence) : list Sequence :=
  List.filter is_prefill batch ++ List.filter (fun s => negb (is_prefill s)) batch.

(** Modelled from the spec: "A [seq_indices] permutation records, for each
    position in the original batch, the position it ended up at in the
    packed order."  [next_prefill] and [next_decode] are the packed
    positions the next prefill and the next decode sequence will take. *)
Fixpoint seq_indices_from (batch : list Sequence)
         (next_prefill next_decode : nat) : list nat :=
  match batch with
  | [] => []
  | s :: rest =>
      if is_prefill s
      then next_prefill :: seq_indices_from rest (S next_prefill) next_decode
      else next_decode :: seq_indices_from rest next_prefill (S next_decode)
  end.

Definition packed_seq_indices (batch : list Sequence) : list nat :=
  seq_indices_from batch 0 (length (List.filter is_prefill batch)).

(** The events of handing the call [c] to the workers [ws]: one blocking
    call for a single worker; otherwise one asynchronous call per worker in
    rank order, then the join on all the futures. *)
Definition dispatch_events (ws : list Worker) (c : call) : list event :=
  if Nat.eqb (length ws) 1 then [Blocking 0 c]
  else imap (fun rank _ => Async rank c) ws ++ [CollectAll (length ws)].

(** The calls, blocking or asynchronous, made to the worker of rank
    [rank] in a trace. *)
Definition calls_to (rank : nat) (t : list event) : list call :=
  omap (fun ev => match ev with
                  | Blocking r c | Async r c =>
                      if Nat.eqb r rank then Some c else None
                  | _ => None
                  end) t.

(** The events of a trace that are not log lines. *)
Definition is_log (ev : event) : bool :=
  match ev with Log _ _ => true | _ => false end.

Definition non_log_events (t : list event) : list event :=
  List.filter (fun ev => negb (is_log ev)) t.

(** A computation that reads nothing from the state and only appends to
    the trace. *)
Definition oblivious {A} (m : M A) : Prop :=
  exists (r : outcome A) (evs : list event),
    Forall (fun ev => is_log ev = false) evs /\
    forall s, m s = (r, {| engine := engine s; trace := trace s ++ evs |}).

(** The loader with another tokenizer. *)
Definition with_tokenizer (l : ModelLoader) (t : Tokenizer) : ModelLoader :=
  {| loader_tokenizer := Some t;
     loader_model_args := loader_model_args l;
     loader_quant_args := loader_quant_args l;
     loader_state_dicts := loader_state_dicts l |}.

(** The spec's [permute] / [unpermute] pair. *)
Definition permute (batch : list Sequence) : list Sequence := packed_order batch.

Definition unpermute {A} (packed : list A) (indices : list nat) : option (list A) :=
  mapM (fun i => packed !! i) indices.

End Engine.

(** ** Fused-QKV reshapes: [src/models/huggingface/mpt.h] *)

Module Mpt.

(** The members of [MPTAttentionImpl] the reshapes read. *)
Record MPTAttention : Type := { hidden_size_ : Z; head_dim_ : Z }.

(** reshape qkv tensor from [3, n_heads, ...] => [n_heads, 3, ...] *)
Definition reshape_qkv_before_sharding (self : MPTAttention) (tensor : Tensor)
  : outcome Tensor :=
  CHECK ((dim tensor =? 2) || (dim tensor =? 1)) "unexpected tensor dim";;
  if dim tensor =? 2 then
    v ← view tensor [3; -1; head_dim_ self; hidden_size_ self];
    p ← permute_1_0 v;
    reshape p [-1; hidden_size_ self]
  else
    v ← view tensor [3; -1; head_dim_ self];
    p ← permute_1_0 v;
    reshape p [-1].

(** reshape local qkv tensor from [n_heads, 3, ...] => [3, n_heads, ...] *)
Definition reshape_qkv_after_sharding (self : MPTAttention) (tensor : Tensor)
  : outcome Tensor :=
  CHECK ((dim tensor =? 2) || (dim tensor =? 1)) "unexpected tensor dim";;
  if dim tensor =? 2 then
    v ← view tensor [-1; 3; head_dim_ self; hidden_size_ self];
    p ← permute_1_0 v;
    reshape p [-1; hidden_size_ self]
  else
    v ← view tensor [-1; 3; head_dim_ self];
    p ← permute_1_0 v;
    reshape p [-1].

(** Elements per (projection, head) block: [head_dim * hidden_size] for the
    weight, [head_dim] for the bias. *)
Definition block_elems (self : MPTAttention) (tensor : Tensor) : nat :=
  if dim tensor =? 2 then Z.to_nat (head_dim_ self * hidden_size_ self)
  else Z.to_nat (head_dim_ self).

(** The fused shapes the claim speaks of. *)
Definition fused_weight_shape (self : MPTAttention) (n_heads : Z) : list Z :=
  [3 * n_heads * head_dim_ self; hidden_size_ self].
Definition fused_bias_shape (self : MPTAttention) (n_heads : Z) : list Z :=
  [3 * n_heads * head_dim_ self].

End Mpt.

(** ** The model registry: [src/models/model_registry.cpp] *)

Module Registry.

(** The four kinds of callable the registry stores.  A [std::function]
    value is [option F]: [None] is the empty function, which compares
    equal to [nullptr]. *)
Class Callables : Type := {
  CausalLMFactory : Type;
  DialogFactory : Type;
  ModelArgsLoader : Type;
  QuantizationArgsLoader : Type
}.

Section WithCallables.
Context `{Callables}.

Record ModelMeta : Type := {
  causal_lm_factory : option CausalLMFactory;
  dialog_factory : option DialogFactory;
  model_args_loader : option ModelArgsLoader;
  quant_args_loader : option QuantizationArgsLoader
}.

(** A value-initialised [ModelMeta]: four empty functions. *)
Definition empty_meta : ModelMeta :=
  {| causal_lm_factory := None; dialog_factory := None;
     model_args_loader := None; quant_args_loader := None |}.

(** The singleton: the map, and the warnings written so far. *)
Record ModelRegistry : Type := {
  model_registry_ : gmap string ModelMeta;
  warnings : list string
}.

Definition get_instance : ModelRegistry :=
  {| model_registry_ := ∅; warnings := [] |}.

(** [model_registry_[name]]: [operator[]] default-inserts a missing
    key and yields the stored value. *)
Definition subscript (name : string) (m : gmap string ModelMeta)
  : ModelMeta * gmap string ModelMeta :=
  match m !! name with
  | Some meta => (meta, m)
  | None => (empty_meta, <[name := empty_meta]> m)
  end.

Definition register_causallm_factory (name : string)
           (factory : option CausalLMFactory) (r : ModelRegistry) : ModelRegistry :=
  let '(meta, m) := subscript name (model_registry_ r) in
  if bool_decide (causal_lm_factory meta ≠ None) then
    {| model_registry_ := m;
       warnings := warnings r ++ ["causal lm factory for " +:+ name +:+ "already registered."] |}
  else
    {| model_registry_ :=
         <[name := {| causal_lm_factory := factory;
                      dialog_factory := dialog_factory meta;
                      model_args_loader := model_args_loader meta;
                      quant_args_loader := quant_args_loader meta |}]> m;
       warnings := warnings r |}.

Definition register_model_args_loader (name : string)
           (loader : option ModelArgsLoader) (r : ModelRegistry) : ModelRegistry :=
  let '(meta, m) := subscript name (model_registry_ r) in
  if bool_decide (model_args_loader meta ≠ None) then
    {| model_registry_ := m;
       warnings := warnings r ++ ["model args loader for " +:+ name +:+ "already registered."] |}
  else
    {| model_registry_ :=
         <[name := {| causal_lm_factory := causal_lm_factory meta;
                      dialog_factory := dialog_factory meta;
                      model_args_loader := loader;
                      quant_args_loader := quant_args_loader meta |}]> m;
       warnings := warnings r |}.

Definition register_quant_args_loader (name : string)
           (loader : option QuantizationArgsLoader) (r : ModelRegistry) : ModelRegistry :=
  let '(meta, m) := subscript name (model_registry_ r) in
  if bool_decide (quant_args_loader meta ≠ None) then
    {| model_registry_ := m;
       warnings := warnings r ++ ["quant args loader for " +:+ name +:+ "already registered."] |}
  else
    {| model_registry_ :=
         <[name := {| causal_lm_factory := causal_lm_factory meta;
                      dialog_factory := dialog_factory meta;
                      model_args_loader := model_args_loader meta;
                      quant_args_loader := loader |}]> m;
       warnings := warnings r |}.

Definition register_dialog_factory (name : string)
           (factory : option DialogFactory) (r : ModelRegistry) : ModelRegistry :=
  let '(meta, m) := subscript name (model_registry_ r) in
  if bool_decide (dialog_factory meta ≠ None) then
    {| model_registry_ := m;
       warnings := warnings r ++ ["dialog factory for " +:+ name +:+ "already registered."] |}
  else
    {| model_registry_ :=
         <[name := {| causal_lm_factory := causal_lm_factory meta;
                      dialog_factory := factory;
                      model_args_loader := model_args_loader meta;
                      quant_args_loader := quant_args_loader meta |}]> m;
       warnings := warnings r |}.

(** The getters go through [operator[]] too, so they may grow the map. *)
Definition get_causallm_factory (name : string) (r : ModelRegistry)
  : option CausalLMFactory * ModelRegistry :=
  let '(meta, m) := subscript name (model_registry_ r) in
  (causal_lm_factory meta, {| model_registry_ := m; warnings := warnings r |}).

Definition get_model_args_loader (name : string) (r : ModelRegistry)
  : option ModelArgsLoader * ModelRegistry :=
  let '(meta, m) := subscript name (model_registry_ r) in
  (model_args_loader meta, {| model_registry_ := m; warnings := warnings r |}).

Definition get_quant_args_loader (name : string) (r : ModelRegistry)
  : option QuantizationArgsLoader * ModelRegistry :=
  let '(meta, m) := subscript name (model_registry_ r) in
  (quant_args_loader meta, {| model_registry_ := m; warnings := warnings r |}).

Definition get_dialog_factory (name : string) (r : ModelRegistry)
  : option DialogFactory * ModelRegistry :=
  let '(meta, m) := subscript name (model_registry_ r) in
  (dialog_factory meta, {| model_registry_ := m; warnings := warnings r |}).

(** The entry held for [name]; a missing key reads as the
    value-initialised entry [operator[]] would create. *)
Definition stored (name : string) (r : ModelRegistry) : ModelMeta :=
  default empty_meta (model_registry_ r !! name).

(** Any call into the registry, for statements about call sequences. *)
Inductive operation : Type :=
| RegisterCausalLM (name : string) (f : option CausalLMFactory)
| RegisterModelArgs (name : string) (f : option ModelArgsLoader)
| RegisterQuantArgs (name : string) (f : option QuantizationArgsLoader)
| RegisterDialog (name : string) (f : option DialogFactory)
| GetCausalLM (name : string)
| GetModelArgs (name : string)
| GetQuantArgs (name : string)
| GetDialog (name : string).

Definition step (r : ModelRegistry) (o : operation) : ModelRegistry :=
  match o with
  | RegisterCausalLM n f => register_causallm_factory n f r
  | RegisterModelArgs n f => register_model_args_loader n f r
  | RegisterQuantArgs n f => register_quant_args_loader n f r
  | RegisterDialog n f => register_dialog_factory n f r
  | GetCausalLM n => (get_causallm_factory n r).2
  | GetModelArgs n => (get_model_args_loader n r).2
  | GetQuantArgs n => (get_quant_args_loader n r).2
  | GetDialog n => (get_dialog_factory n r).2
  end.

Definition run (ops : list operation) (r : ModelRegistry) : ModelRegistry :=
  fold_left step ops r.

(** The operation registers something under [name]. *)
Definition registers (name : string) (o : operation) : bool :=
  match o with
  | RegisterCausalLM n _ | RegisterModelArgs n _
  | RegisterQuantArgs n _ | RegisterDialog n _ => bool_decide (n = name)
  | _ => false
  end.

End WithCallables.

End Registry.

(** ** Column-parallel linear layer: [src/layers/linear_impl.cpp] *)

Module Linear.

(** [StateDict] is an external collaborator: the layer reads it through
    [get_sharded_tensor(name, dim, rank, world_size)], which yields an
    undefined tensor when the shard does not hold [name]. *)
Class StateDictOps : Type := {
  StateDict : Type;
  get_sharded_tensor : StateDict -> string -> Z -> Z -> Z -> option Tensor
}.

Record ColumnParallelLinearImpl : Type := {
  weight_ : Tensor;
  weight_list_ : list (option Tensor);
  is_loaded_ : bool;
  rank : Z;
  world_size : Z
}.

Definition defined (t : option Tensor) : bool :=
  match t with Some _ => true | None => false end.

(** [load_weights] (lines 90-107).  The two reference parameters are
    returned next to the result. *)
Definition load_weights (weight_list : list (option Tensor)) (weight : Tensor)
  : outcome (bool * list (option Tensor) * Tensor) :=
  let all_loaded := forallb defined weight_list in
  if negb all_loaded then Ok (false, weight_list, weight)
  else
    merged_weight ← cat0 (omap id weight_list);
    (* weight_list.clear() *)
    CHECK (bool_decide (sizes weight = sizes merged_weight)) "weight size mismatch";;
    Ok (true, [], copy_ weight merged_weight).

Section WithStateDict.
Context `{StateDictOps}.

(** [load_state_dict(state_dict)] (lines 47-59). *)
Definition load_state_dict (self : ColumnParallelLinearImpl) (state_dict : StateDict)
  : outcome ColumnParallelLinearImpl :=
  match get_sharded_tensor state_dict "weight" 0 (rank self) (world_size self) with
  | Some weight =>
      CHECK (bool_decide (sizes (weight_ self) = sizes weight)) "weight size mismatch";;
      Ok {| weight_ := copy_ (weight_ self) weight;
            weight_list_ := weight_list_ self;
            is_loaded_ := true;
            rank := rank self; world_size := world_size self |}
  | None => Ok self
  end.

(** Lines 70-82: the loop over the prefixes, from index [i] on. *)
Fixpoint collect_shards (self : ColumnParallelLinearImpl) (state_dict : StateDict)
         (i : nat) (prefixes : list string) (weight_list : list (option Tensor))
  : outcome (list (option Tensor)) :=
  match prefixes with
  | [] => Ok weight_list
  | prefix :: rest =>
      let name := prefix +:+ "weight" in
      match get_sharded_tensor state_dict name 0 (rank self) (world_size self) with
      | Some weight =>
          slot ← match weight_list !! i with
                 | Some s => Ok s
                 | None => Err UndefinedBehaviour
                 end;
          CHECK (negb (defined slot)) "weight already loaded";;
          collect_shards self state_dict (S i) rest (<[i := Some weight]> weight_list)
      | None => collect_shards self state_dict (S i) rest weight_list
      end
  end.

(** [weight_list_.resize(n)] when the list is shorter than [n]. *)
Definition resize_to (n : nat) (weight_list : list (option Tensor))
  : list (option Tensor) :=
  if (length weight_list <? n)%nat
  then weight_list ++ replicate (n - length weight_list) None
  else weight_list.

(** [load_state_dict(state_dict, prefixes)] (lines 62-88). *)
Definition load_state_dict_fused (self : ColumnParallelLinearImpl)
           (state_dict : StateDict) (prefixes : list string)
  : outcome ColumnParallelLinearImpl :=
  let weight_list := resize_to (length prefixes) (weight_list_ self) in
  weight_list ← collect_shards self state_dict 0 prefixes weight_list;
  '(loaded, weight_list, weight) ← load_weights weight_list (weight_ self);
  Ok {| weight_ := weight;
        weight_list_ := weight_list;
        is_loaded_ := if (loaded : bool) then true else is_loaded_ self;
        rank := rank self; world_size := world_size self |}.

(** Loading a checkpoint: one call per shard file, in order. *)
Fixpoint load_all (self : ColumnParallelLinearImpl)
         (state_dicts : list StateDict) (prefixes : list string)
  : outcome ColumnParallelLinearImpl :=
  match state_dicts with
  | [] => Ok self
  | sd :: rest =>
      self' ← load_state_dict_fused self sd prefixes;
      load_all self' rest prefixes
  end.

(** Some shard file of the list holds the weight for [prefix]. *)
Definition seen (self : ColumnParallelLinearImpl) (state_dicts : list StateDict)
           (prefix : string) : Prop :=
  exists sd, In sd state_dicts /\
    get_sharded_tensor sd (prefix +:+ "weight") 0 (rank self) (world_size self)
    <> None.

(** What ties the collected shards and the loaded flag to the shard files
    processed so far. *)
Definition consistent (self : ColumnParallelLinearImpl) (prefixes : list string)
           (processed : list StateDict) : Prop :=
  (forall (i : nat) (t : Tensor),
      weight_list_ self !! i = Some (Some t) ->
      exists prefix, prefixes !! i = Some prefix /\ seen self processed prefix) /\
  (is_loaded_ self = true ->
   forall prefix, In prefix prefixes -> seen self processed prefix).

End WithStateDict.

(** A freshly constructed layer: nothing collected, not loaded. *)
Definition fresh (self : ColumnParallelLinearImpl) : Prop :=
  weight_list_ self = [] /\ is_loaded_ self = false.

End Linear.

(** ** SentencePiece tokenizer: [src/tokenizer/sentencepiece_tokenizer.cpp] *)

Module Tokenizer.

(** [sentencepiece::SentencePieceProcessor] is an external library: the
    tokenizer sees the status of [Encode], the ids it wrote, and
    [bos_id()]. *)
Record SentencePieceProcessor : Type := {
  Encode : string -> bool * list Z;
  bos_id : Z
}.

Record SentencePieceTokenizer : Type := {
  vocab_file_path_ : string;
  sp_processor_ : SentencePieceProcessor;
  prepend_bos_ : bool
}.

(** [encode(text, ids)]: the returned pair is the result and the final
    content of [*ids]. *)
Definition encode (self : SentencePieceTokenizer) (text : string)
  : bool * list Z :=
  let '(status_ok, ids) := Encode (sp_processor_ self) text in
  if negb status_ok then (false, ids)
  else if prepend_bos_ self
       then (true, bos_id (sp_processor_ self) :: ids)
       else (true, ids).

End Tokenizer.

(** ** Concrete configurations *)

Module Examples.
Import Engine.

Definition GB : Z := 1024 * 1024 * 1024.

Definition cuda (i : Z) : Device := {| device_type := CUDA; device_index := i |}.

(** A 7B llama-like model in half precision. *)
Definition llama_args : ModelArgs :=
  {| model_type := "llama"; dtype := "float16"; hidden_size := 4096;
     n_layers := 32; n_heads := 32; n_kv_heads := None; vocab_size := 32000 |}.

(** The default flags; the utilisation 0.9 as nine tenths. *)
Definition default_flags : Flags :=
  {| FLAGS_block_size := 16;
     FLAGS_max_cache_size := 5 * GB;
     FLAGS_max_memory_utilization := fun total => total * 9 / 10 |}.

(** A 24 GB card with 14 GB taken by the weights. *)
Definition card : Memory :=
  {| max_memory_allocated := fun _ => 14 * GB;
     total_memory := fun _ => 24 * GB |}.

Definition no_tensor : Tensor := {| sizes := [0]; elems := [] |}.

Definition no_input_params : InputParameters :=
  {| num_prompt_tokens := 0; cu_seq_lens := no_tensor; max_seq_len := 0;
     slot_ids := no_tensor; block_tables := no_tensor; max_context_len := 0;
     context_lens := no_tensor; last_token_indicies := no_tensor;
     token_ids := no_tensor; seq_lens := no_tensor |}.

Definition greedy : SamplingParameters :=
  {| temperature := 0; top_k := 0; top_p := 0; repetition_penalty := 0 |}.

Definition last_token (q : Sequence) : Z :=
  List.last (prompt_tokens q ++ generated_tokens q) 0.

(** A worker that always succeeds and answers every input token with its
    successor. *)
Definition worker_on (d : Device) : Worker :=
  {| device := d;
     worker_init_model := fun _ _ _ => true;
     worker_load_state_dict := fun _ => Ok tt;
     worker_verify_loaded_weights := fun _ => Ok tt;
     worker_init_kv_cache := fun _ _ => true;
     worker_execute_model := fun tokens _ _ _ =>
       {| next_tokens := map Z.succ (elems tokens) |} |}.

(** A packer reduced to what the engine looks at: the last token of every
    sequence in packed order, and the recorded indices. *)
Definition pack_last_tokens (batch : list Sequence) (block_size : Z) : PreparedInputs :=
  let packed := packed_order batch in
  {| input_token_ids := {| sizes := [Z.of_nat (length packed)];
                           elems := map last_token packed |};
     input_positions := {| sizes := [Z.of_nat (length packed)];
                           elems := map (fun q => Z.of_nat (length (prompt_tokens q ++ generated_tokens q)) - 1) packed |};
     seq_indices := packed_seq_indices batch;
     input_params := no_input_params;
     sampling_params := greedy |}.

#[local] Instance collaborators : Collaborators :=
  {| ModelLoader_create := fun _ =>
       {| loader_tokenizer := Some {| tokenizer_vocab_size := 32000 |};
          loader_model_args := llama_args;
          loader_quant_args := {| quant_method := ""; bits := 0; group_size := 0;
                                  desc_act := false; true_sequential := false |};
          loader_state_dicts := [] |};
     prepare_inputs := pack_last_tokens;
     flags := default_flags;
     memory := card |}.

Definition engine_on (devices : list Device) : State :=
  {| engine := {| devices_ := devices; workers_ := map worker_on devices;
                  tokenizer_ := None; args_ := llama_args; dtype_ := Half;
                  block_manager_ := None |};
     trace := [] |}.

Definition one_gpu : State := engine_on [cuda 0].
Definition two_gpus : State := engine_on [cuda 0; cuda 1].

(** A decode sequence, a prefill sequence, another decode sequence. *)
Definition mixed_batch : list Sequence :=
  [ {| prompt_tokens := [11; 12]; generated_tokens := [13]; block_table := [0];
       phase := decode |};
    {| prompt_tokens := [21; 22; 23]; generated_tokens := []; block_table := [1];
       phase := prefill |};
    {| prompt_tokens := [31]; generated_tokens := [32; 33]; block_table := [2];
       phase := decode |} ].

(** An MPT attention with two heads of dimension one and hidden size two,
    and its fused weight. *)
Definition small_attention : Mpt.MPTAttention :=
  {| Mpt.hidden_size_ := 2; Mpt.head_dim_ := 1 |}.

Definition small_wqkv : Tensor :=
  {| sizes := [6; 2]; elems := [0; 1; 2; 3; 4; 5; 6; 7; 8; 9; 10; 11] |}.

End Examples.


(** ** The bring-up protocol seen from the workers *)

Module Protocol.
Import Engine.

(** The state [s] with the events [evs] appended to its trace. *)
Definition appended (s : State) (evs : list event) : State :=
  {| engine := engine s; trace := trace s ++ evs |}.

(** The events of the single worker loading the shards [sds] in turn. *)
Definition blocking_loads (sds : list StateDict) : list event :=
  map (fun sd => Blocking 0 (LoadStateDict sd)) sds.

(** The events of handing one shard to all the workers and joining. *)
Definition load_round (ws : list Worker) (sd : StateDict) : list event :=
  imap (fun rank _ => Async rank (LoadStateDict sd)) ws ++ [CollectAll (length ws)].

Definition load_rounds (ws : list Worker) (sds : list StateDict) : list event :=
  concat (map (load_round ws) sds).

(** The events of verifying the weights on the workers [ws], in rank order. *)
Definition verify_calls (ws : list Worker) : list event :=
  imap (fun rank _ => Blocking rank VerifyLoadedWeights) ws.

(** What one worker is asked during a bring-up that succeeds. *)
Definition bring_up_calls (dt : ScalarType) (args : ModelArgs)
           (q : QuantizationArgs) (sds : list StateDict) : list call :=
  InitModel dt args q :: map LoadStateDict sds ++ [VerifyLoadedWeights].

Definition is_load_call (c : call) : bool :=
  match c with LoadStateDict _ => true | _ => false end.

Definition is_kv_cache_call (c : call) : bool :=
  match c with InitKvCache _ _ => true | _ => false end.

(** The event belongs to the KV-cache set-up: the block manager is
    created, or a worker is asked to allocate its cache. *)
Definition is_kv_cache_event (ev : event) : bool :=
  match ev with
  | Blocking _ c | Async _ c => is_kv_cache_call c
  | NewBlockManager _ _ => true
  | _ => false
  end.

(** A computation that reads nothing from the state, leaves the engine
    data alone and appends only events satisfying [P]. *)
Definition emits_only (P : event -> Prop) {A} (m : M A) : Prop :=
  exists (r : outcome A) (evs : list event),
    Forall P evs /\ forall s, m s = (r, appended s evs).

(** The calls of a trace, to whatever worker. *)
Definition all_calls (t : list event) : list call :=
  omap (fun ev => match ev with
                  | Blocking _ c | Async _ c => Some c
                  | _ => None
                  end) t.

End Protocol.


(** ** Registry calls by kind and name *)

Module RegistryCalls.
Import Registry.

Section WithCallables.
Context `{Callables}.

(** The four members of [ModelMeta]. *)
Inductive kind : Type := CausalLM | ModelArgs | QuantArgs | Dialog.

Definition callable (k : kind) : Type :=
  match k with
  | CausalLM => CausalLMFactory
  | ModelArgs => ModelArgsLoader
  | QuantArgs => QuantizationArgsLoader
  | Dialog => DialogFactory
  end.

Definition slot (k : kind) (meta : ModelMeta) : option (callable k) :=
  match k with
  | CausalLM => causal_lm_factory meta
  | ModelArgs => model_args_loader meta
  | QuantArgs => quant_args_loader meta
  | Dialog => dialog_factory meta
  end.

(** The name a call passes to [operator[]]. *)
Definition name_of (o : operation) : string :=
  match o with
  | RegisterCausalLM n _ | RegisterModelArgs n _ | RegisterQuantArgs n _
  | RegisterDialog n _ | GetCausalLM n | GetModelArgs n | GetQuantArgs n
  | GetDialog n => n
  end.

(** The member a registration assigns; a getter assigns none. *)
Definition writes (o : operation) : option kind :=
  match o with
  | RegisterCausalLM _ _ => Some CausalLM
  | RegisterModelArgs _ _ => Some ModelArgs
  | RegisterQuantArgs _ _ => Some QuantArgs
  | RegisterDialog _ _ => Some Dialog
  | _ => None
  end.

(** The call is a registration that finds its member non-null. *)
Definition refused (o : operation) (r : ModelRegistry) : bool :=
  match writes o with
  | Some k => bool_decide (is_Some (slot k (stored (name_of o) r)))
  | None => false
  end.

(** The warning a refused registration writes. *)
Definition warning_of (o : operation) : string :=
  match o with
  | RegisterCausalLM n _ => "causal lm factory for " +:+ n +:+ "already registered."
  | RegisterModelArgs n _ => "model args loader for " +:+ n +:+ "already registered."
  | RegisterQuantArgs n _ => "quant args loader for " +:+ n +:+ "already registered."
  | RegisterDialog n _ => "dialog factory for " +:+ n +:+ "already registered."
  | _ => ""
  end.

End WithCallables.

End RegistryCalls.


(** ** Fused loading over the files of a checkpoint *)

Module LinearRuns.
Import Linear.

Section WithStateDict.
Context `{StateDictOps}.

(** The shard the layer reads for [prefix] from the file [sd]. *)
Definition shard_of (self : ColumnParallelLinearImpl) (sd : StateDict)
           (prefix : string) : option Tensor :=
  get_sharded_tensor sd (prefix +:+ "weight") 0 (rank self) (world_size self).

(** The shards the files offer for [prefix], in file order. *)
Definition offers (self : ColumnParallelLinearImpl) (sds : list StateDict)
           (prefix : string) : list Tensor :=
  omap (fun sd => shard_of self sd prefix) sds.

(** The same rank and world size: the two layers read the same shards. *)
Definition same_rank (a b : ColumnParallelLinearImpl) : Prop :=
  rank a = rank b /\ world_size a = world_size b.

(** Loading is under way: slot [i] holds the shard [ts !! i] and no file
    still to come offers it, or it is empty and exactly one file still to
    come offers it; some slot is empty. *)
Definition under_way (self : ColumnParallelLinearImpl) (prefixes : list string)
           (ts : list Tensor) (merged : Tensor) (rest : list StateDict) : Prop :=
  let wl := resize_to (length prefixes) (weight_list_ self) in
  length wl = length prefixes /\
  sizes (weight_ self) = sizes merged /\
  (forall (i : nat) (p : string) (t : Tensor),
      prefixes !! i = Some p -> ts !! i = Some t ->
      (wl !! i = Some (Some t) /\ offers self rest p = []) \/
      (wl !! i = Some None /\ offers self rest p = [t])) /\
  In None wl.

(** Loading is done: the weight is the merged one, and no file still to
    come offers a shard. *)
Definition done (self : ColumnParallelLinearImpl) (prefixes : list string)
           (merged : Tensor) (rest : list StateDict) : Prop :=
  is_loaded_ self = true /\ weight_ self = merged /\
  (weight_list_ self = [] \/ weight_list_ self = replicate (length prefixes) None) /\
  (forall p, In p prefixes -> offers self rest p = []).

End WithStateDict.

End LinearRuns.


(** ** GPT-NeoX and Bloom attention: [src/models/huggingface/gpt_neox.h],
    [src/models/huggingface/bloom.h] *)

Module GptNeox.

(** The members of [GPTNeoXAttentionImpl] the reshape reads. *)
Record GPTNeoXAttention : Type := { hidden_size_ : Z; head_dim_ : Z }.

(** Fused qkv weights in GPT-NeoX have the shape [n_heads * 3 * head_dim,
    hidden_size]; the desired shape is [3 * n_heads * head_dim,
    hidden_size]. *)
Definition reshape_qkv_tensor (self : GPTNeoXAttention) (tensor : Tensor)
  : outcome Tensor :=
  CHECK ((dim tensor =? 2) || (dim tensor =? 1)) "unexpected tensor dim";;
  if dim tensor =? 2 then
    v ← view tensor [-1; 3; head_dim_ self; hidden_size_ self];
    p ← permute_1_0 v;
    reshape p [-1; hidden_size_ self]
  else
    v ← view tensor [-1; 3; head_dim_ self];
    p ← permute_1_0 v;
    reshape p [-1].

End GptNeox.

Module Bloom.

(** The members of [BloomAttentionImpl] the reshape reads. *)
Record BloomAttention : Type := { hidden_size_ : Z; head_dim_ : Z }.

(** reshape qkv tensor from [n_heads, 3, ...] to [3, n_heads, ...] *)
Definition reshape_qkv_tensor (self : BloomAttention) (tensor : Tensor)
  : outcome Tensor :=
  CHECK ((dim tensor =? 2) || (dim tensor =? 1)) "unexpected tensor dim";;
  if dim tensor =? 2 then
    v ← view tensor [-1; 3; head_dim_ self; hidden_size_ self];
    p ← permute_1_0 v;
    reshape p [-1; hidden_size_ self]
  else
    v ← view tensor [-1; 3; head_dim_ self];
    p ← permute_1_0 v;
    reshape p [-1].

End Bloom.

(** ** Heads of a fused tensor *)

Module Heads.
Import Mpt.

(** The leading rows of a tensor in the [n_heads, 3, ...] layout that belong
    to the [k] heads from [h0] on: what a split of the leading dimension
    into equal parts of whole heads hands to one rank. *)
Definition local_heads (self : MPTAttention) (tensor : Tensor) (h0 k : nat) : Tensor :=
  let r := block_elems self tensor in
  {| sizes := if dim tensor =? 2 then fused_weight_shape self (Z.of_nat k)
              else fused_bias_shape self (Z.of_nat k);
     elems := take (3 * k * r) (drop (3 * h0 * r) (elems tensor)) |}.

(** The same members, read as an MPT attention. *)
Definition of_gpt_neox (self : GptNeox.GPTNeoXAttention) : MPTAttention :=
  {| hidden_size_ := GptNeox.hidden_size_ self; head_dim_ := GptNeox.head_dim_ self |}.
Definition of_bloom (self : Bloom.BloomAttention) : MPTAttention :=
  {| hidden_size_ := Bloom.hidden_size_ self; head_dim_ := Bloom.head_dim_ self |}.

End Heads.

(** ** The plain loaders: [src/layers/linear_impl.cpp], [src/layers/embedding.h] *)

Module Plain.
Import Linear.

(** What a plain [load_state_dict] reads and writes: the registered weight,
    the loaded flag, and the rank and world size of [parallel_args_]. *)
Record Params : Type := {
  weight_ : Tensor;
  is_loaded_ : bool;
  rank : Z;
  world_size : Z
}.

Section WithStateDict.
Context `{StateDictOps}.

(** The body the plain loaders share; they differ in the dimension along
    which the checkpoint tensor is sharded. *)
Definition load_along (dim : Z) (self : Params) (state_dict : StateDict)
  : outcome Params :=
  match get_sharded_tensor state_dict "weight" dim (rank self) (world_size self) with
  | Some weight =>
      CHECK (bool_decide (sizes (weight_ self) = sizes weight)) "weight size mismatch";;
      Ok {| weight_ := copy_ (weight_ self) weight;
            is_loaded_ := true;
            rank := rank self; world_size := world_size self |}
  | None => Ok self
  end.

(** [RowParallelLinearImpl::load_state_dict] (linear_impl.cpp, lines 144-156). *)
Definition RowParallelLinearImpl_load_state_dict := load_along 1.

(** [ParallelEmbeddingImpl::load_state_dict] (embedding.h, lines 50-61). *)
Definition ParallelEmbeddingImpl_load_state_dict := load_along 1.

(** [VocabParallelEmbeddingImpl::load_state_dict] (embedding.h, lines
    119-130). *)
Definition VocabParallelEmbeddingImpl_load_state_dict := load_along 0.

(** The members of a column-parallel layer its plain loader touches. *)
Definition of_column (self : ColumnParallelLinearImpl) : Params :=
  {| weight_ := Linear.weight_ self; is_loaded_ := Linear.is_loaded_ self;
     rank := Linear.rank self; world_size := Linear.world_size self |}.

(** Loading a checkpoint: one call per file, in order. *)
Fixpoint load_files (dim : Z) (self : Params) (state_dicts : list StateDict)
  : outcome Params :=
  match state_dicts with
  | [] => Ok self
  | sd :: rest =>
      self' ← load_along dim self sd;
      load_files dim self' rest
  end.

(** The weights the files offer this rank, in file order. *)
Definition offered (dim : Z) (self : Params) (state_dicts : list StateDict)
  : list Tensor :=
  omap (fun sd => get_sharded_tensor sd "weight" dim (rank self) (world_size self))
       state_dicts.

End WithStateDict.

End Plain.

(** ** Scenarios *)

Module Scenarios.
Import Engine Examples.

Definition no_quant : QuantizationArgs :=
  {| quant_method := ""; bits := 0; group_size := 0;
     desc_act := false; true_sequential := false |}.

(** A worker that cannot build the model. *)
Definition refusing_worker (d : Device) : Worker :=
  {| device := d;
     worker_init_model := fun _ _ _ => false;
     worker_load_state_dict := fun _ => Ok tt;
     worker_verify_loaded_weights := fun _ => Ok tt;
     worker_init_kv_cache := fun _ _ => true;
     worker_execute_model := fun tokens _ _ _ => {| next_tokens := [] |} |}.

(** A worker that throws on a shard holding no parameter at all. *)
Definition strict_worker (d : Device) : Worker :=
  {| device := d;
     worker_init_model := fun _ _ _ => true;
     worker_load_state_dict := fun sd =>
       if bool_decide (sd = ∅) then Err (Thrown "empty shard") else Ok tt;
     worker_verify_loaded_weights := fun _ => Ok tt;
     worker_init_kv_cache := fun _ _ => true;
     worker_execute_model := fun tokens _ _ _ => {| next_tokens := [] |} |}.

Definition shard (name : string) : StateDict := {[ name := no_tensor ]}.

(** A checkpoint in two shards. *)
Definition checkpoint : ModelLoader :=
  {| loader_tokenizer := Some {| tokenizer_vocab_size := 32000 |};
     loader_model_args := llama_args;
     loader_quant_args := no_quant;
     loader_state_dicts := [shard "wte.weight"; shard "lm_head.weight"] |}.

Definition engine_with (ws : list Worker) : EngineData :=
  {| devices_ := map device ws; workers_ := ws; tokenizer_ := None;
     args_ := llama_args; dtype_ := Half; block_manager_ := None |}.

(** Factories and loaders known by name only. *)
#[local] Instance named_callables : Registry.Callables :=
  {| Registry.CausalLMFactory := string; Registry.DialogFactory := string;
     Registry.ModelArgsLoader := string; Registry.QuantizationArgsLoader := string |}.

(** A registry in which a causal LM factory is registered for "mpt". *)
Definition mpt_registered : Registry.ModelRegistry :=
  Registry.register_causallm_factory "mpt" (Some "MPTForCausalLM")
    Registry.get_instance.

(** Checkpoint files read whole, as with a single rank. *)
#[local] Instance whole_files : Linear.StateDictOps :=
  {| Linear.StateDict := gmap string Tensor;
     Linear.get_sharded_tensor := fun sd name _ _ _ => sd !! name |}.

Definition q_rows : Tensor := {| sizes := [2; 2]; elems := [1; 2; 3; 4] |}.
Definition k_rows : Tensor := {| sizes := [2; 2]; elems := [5; 6; 7; 8] |}.

(** A fused layer for two parts of two rows each, nothing loaded yet. *)
Definition fused_layer : Linear.ColumnParallelLinearImpl :=
  {| Linear.weight_ := {| sizes := [4; 2]; elems := [0; 0; 0; 0; 0; 0; 0; 0] |};
     Linear.weight_list_ := []; Linear.is_loaded_ := false;
     Linear.rank := 0; Linear.world_size := 1 |}.


Definition q_file : gmap string Tensor := {[ "q_proj.weight" := q_rows ]}.
Definition k_file : gmap string Tensor := {[ "k_proj.weight" := k_rows ]}.

(** Two heads of dimension one and hidden size two, kept head by head. *)
Definition small_neox : GptNeox.GPTNeoXAttention :=
  {| GptNeox.hidden_size_ := 2; GptNeox.head_dim_ := 1 |}.
Definition small_bloom : Bloom.BloomAttention :=
  {| Bloom.hidden_size_ := 2; Bloom.head_dim_ := 1 |}.

Definition rows_by_head : Tensor :=
  {| sizes := [6; 2];
     elems := [10; 11; 20; 21; 30; 31; 40; 41; 50; 51; 60; 61] |}.
Definition bias_by_head : Tensor :=
  {| sizes := [6]; elems := [10; 20; 30; 40; 50; 60] |}.

(** A cache geometry whose head dimension is no multiple of 16 / 2 = 8. *)
Definition odd_geometry : Geometry :=
  {| g_block_size := 16; g_n_local_kv_heads := 2; g_head_dim := 100;
     g_dtype_size := 2; g_block_size_in_bytes := 2 * 16 * 2 * 100 * 2 |}.

End Scenarios.

(* ===================================================================== *)
(** * Part II: properties                                                 *)
(* ===================================================================== *)

(** ** Case-insensitive comparison *)

Module BoostFacts.

Lemma lower_of_upper (c : ascii) : to_lower (to_upper c) = to_lower c.
Proof.
  destruct c as [[] [] [] [] [] [] [] []]; vm_compute; reflexivity.
Qed.

Lemma upper_of_lower (c : ascii) : to_upper (to_lower c) = to_upper c.
Proof.
  destruct c as [[] [] [] [] [] [] [] []]; vm_compute; reflexivity.
Qed.

Lemma upper_eq_iff_lower_eq (a b : ascii) :
  to_upper a = to_upper b <-> to_lower a = to_lower b.
Proof.
  split; intros E.
  - rewrite <- (lower_of_upper a), <- (lower_of_upper b). now rewrite E.
  - rewrite <- (upper_of_lower a), <- (upper_of_lower b). now rewrite E.
Qed.

(** [boost::iequals] decides equality up to letter case. *)
Lemma iequals_spec (s t : string) :
  iequals s t = true <-> same_up_to_case s t.
Proof.
  unfold same_up_to_case. revert t.
  induction s as [|a s IH]; intros [|b t]; simpl; try (split; congruence).
  destruct (Ascii.eqb_spec (to_upper a) (to_upper b)) as [E|N].
  - rewrite IH. apply upper_eq_iff_lower_eq in E. split.
    + intros ->. now rewrite E.
    + now intros [= _ ->].
  - split; [congruence|]. intros [= E _].
    apply upper_eq_iff_lower_eq in E. contradiction.
Qed.

Lemma iequals_false (s t : string) :
  iequals s t = false <-> ~ same_up_to_case s t.
Proof.
  rewrite <- iequals_spec. destruct (iequals s t); split; congruence.
Qed.

End BoostFacts.

(** ** [parse_dtype] *)

Module DtypeFacts.
Import Engine BoostFacts.

Lemma string_empty_spec (s : string) : string_empty s = true <-> s = EmptyString.
Proof. destruct s; simpl; split; congruence. Qed.

(** C2.  On a CPU device [parse_dtype] yields 32-bit float whatever the
    string.  On any other device it yields 16-bit float for a string equal
    up to case to "half" or "float16", bfloat16 for "bfloat16", 32-bit
    float for "float" or "float32", 16-bit float for the empty string or
    "auto", and aborts on every other string. *)
Theorem parse_dtype_table :
  forall (s : string) (d : Device),
    (is_cpu d = true -> parse_dtype s d = Ok Float) /\
    (is_cpu d = false ->
       (same_up_to_case s "half" \/ same_up_to_case s "float16" ->
          parse_dtype s d = Ok Half) /\
       (same_up_to_case s "bfloat16" -> parse_dtype s d = Ok BFloat16) /\
       (same_up_to_case s "float" \/ same_up_to_case s "float32" ->
          parse_dtype s d = Ok Float) /\
       (s = EmptyString \/ same_up_to_case s "auto" -> parse_dtype s d = Ok Half) /\
       (~ same_up_to_case s "half" -> ~ same_up_to_case s "float16" ->
        ~ same_up_to_case s "bfloat16" ->
        ~ same_up_to_case s "float" -> ~ same_up_to_case s "float32" ->
        s <> EmptyString -> ~ same_up_to_case s "auto" ->
          aborted (parse_dtype s d))).
Proof.
  intros s d. unfold parse_dtype. split; [intros ->; reflexivity|].
  intros ->.
  destruct (iequals s "half") eqn:E1, (iequals s "float16") eqn:E2,
           (iequals s "bfloat16") eqn:E3, (iequals s "float") eqn:E4,
           (iequals s "float32") eqn:E5, (iequals s "auto") eqn:E6,
           (string_empty s) eqn:E7; simpl;
    repeat match goal with
           | E : iequals _ _ = true |- _ => apply iequals_spec in E
           | E : iequals _ _ = false |- _ => apply iequals_false in E
           | E : string_empty _ = true |- _ => apply string_empty_spec in E
           end;
    unfold same_up_to_case in *;
    repeat split; intros;
    repeat match goal with
           | H : _ \/ _ |- _ => destruct H
           end;
    try reflexivity; try contradiction; try (subst; simpl in *; congruence);
    try (unfold aborted; eauto; fail).
  all: exfalso;
    match goal with
    | E : lowercase ?x = _, E' : lowercase ?x = _ |- _ =>
        rewrite E in E'; vm_compute in E'; discriminate
    end.
Qed.

End DtypeFacts.

(** ** The tokenizer *)

Module TokenizerFacts.
Import Tokenizer.

(** C10.  When the SentencePiece processor succeeds, [encode] returns true
    and [ids] holds the processor's encoding, with the BOS id put in front
    exactly when the tokenizer was built with [prepend_bos]; when the
    processor fails, [encode] returns false. *)
Theorem encode_prepends_bos :
  forall (self : SentencePieceTokenizer) (text : string),
    let status_ok := (Encode (sp_processor_ self) text).1 in
    let encoding := (Encode (sp_processor_ self) text).2 in
    let bos := bos_id (sp_processor_ self) in
    (status_ok = true ->
       (encode self text).1 = true /\
       (prepend_bos_ self = true -> (encode self text).2 = bos :: encoding) /\
       (prepend_bos_ self = false -> (encode self text).2 = encoding) /\
       ((encode self text).2 = bos :: encoding <-> prepend_bos_ self = true)) /\
    (status_ok = false -> (encode self text).1 = false).
Proof.
  intros self text. unfold encode. cbn zeta.
  destruct (Encode (sp_processor_ self) text) as [ok ids]. cbn [fst snd].
  split.
  - intros ->. cbn [negb].
    destruct (prepend_bos_ self); cbn [fst snd]; repeat split; try congruence.
    intros E. apply (f_equal (@length Z)) in E. cbn [length] in E. lia.
  - intros ->. reflexivity.
Qed.

End TokenizerFacts.

(** ** The model registry *)

Module RegistryFacts.
Import Registry.

Section WithCallables.
Context `{Callables}.

Lemma subscript_value (name : string) (m : gmap string ModelMeta) :
  (subscript name m).1 = default empty_meta (m !! name).
Proof. unfold subscript. destruct (m !! name); reflexivity. Qed.

Lemma subscript_map (name n : string) (m : gmap string ModelMeta) :
  default empty_meta ((subscript name m).2 !! n) = default empty_meta (m !! n).
Proof.
  unfold subscript. destruct (m !! name) eqn:E; cbn [snd]; [reflexivity|].
  destruct (decide (name = n)) as [->|N].
  - rewrite lookup_insert_eq, E. reflexivity.
  - rewrite lookup_insert_ne by assumption. reflexivity.
Qed.

(** Unfold one registry call down to map lookups. *)
Ltac open_call name n :=
  unfold stored, register_causallm_factory, register_model_args_loader,
    register_quant_args_loader, register_dialog_factory,
    get_causallm_factory, get_model_args_loader, get_quant_args_loader,
    get_dialog_factory in *;
  match goal with
  | |- context [subscript name ?m] =>
      pose proof (subscript_value name m);
      pose proof (subscript_map name n m);
      destruct (subscript name m) as [meta m'];
      cbn [fst snd] in *; subst meta
  end;
  repeat case_bool_decide; cbn [model_registry_ warnings fst snd];
  repeat match goal with
         | N : ~ (_ <> None) |- _ => apply dec_stable in N
         end;
  try (let D := fresh "D" in
       destruct (decide (name = n)) as [D|D];
       [try subst name; rewrite ?lookup_insert_eq
       |try congruence; rewrite ?lookup_insert_ne by assumption]);
  cbn [default from_option id causal_lm_factory dialog_factory
         model_args_loader quant_args_loader] in *.

(** A getter does not change what is stored. *)
Lemma get_keeps_stored (n : string) (o : operation) (r : ModelRegistry) :
  match o with
  | GetCausalLM _ | GetModelArgs _ | GetQuantArgs _ | GetDialog _ => True
  | _ => False
  end ->
  stored n (step r o) = stored n r.
Proof.
  destruct o as [name f|name f|name f|name f|name|name|name|name];
    intros []; cbn [step]; open_call name n; congruence.
Qed.

(** A call that registers nothing under [n] leaves its entry alone. *)
Lemma step_other_name (n : string) (o : operation) (r : ModelRegistry) :
  registers n o = false -> stored n (step r o) = stored n r.
Proof.
  destruct o as [name f|name f|name f|name f|name|name|name|name];
    cbn [registers step]; intros E;
    try (apply bool_decide_eq_false in E);
    open_call name n; congruence.
Qed.

(** No call overwrites a non-null slot. *)
Lemma step_keeps_causal (n : string) (o : operation) (r : ModelRegistry) f :
  causal_lm_factory (stored n r) = Some f ->
  causal_lm_factory (stored n (step r o)) = Some f.
Proof.
  destruct o as [name g|name g|name g|name g|name|name|name|name];
    cbn [step]; intros E; open_call name n; congruence.
Qed.

Lemma step_keeps_model_args (n : string) (o : operation) (r : ModelRegistry) f :
  model_args_loader (stored n r) = Some f ->
  model_args_loader (stored n (step r o)) = Some f.
Proof.
  destruct o as [name g|name g|name g|name g|name|name|name|name];
    cbn [step]; intros E; open_call name n; congruence.
Qed.

Lemma step_keeps_quant_args (n : string) (o : operation) (r : ModelRegistry) f :
  quant_args_loader (stored n r) = Some f ->
  quant_args_loader (stored n (step r o)) = Some f.
Proof.
  destruct o as [name g|name g|name g|name g|name|name|name|name];
    cbn [step]; intros E; open_call name n; congruence.
Qed.

Lemma step_keeps_dialog (n : string) (o : operation) (r : ModelRegistry) f :
  dialog_factory (stored n r) = Some f ->
  dialog_factory (stored n (step r o)) = Some f.
Proof.
  destruct o as [name g|name g|name g|name g|name|name|name|name];
    cbn [step]; intros E; open_call name n; congruence.
Qed.

Lemma run_never_registered (n : string) (ops : list operation) (r : ModelRegistry) :
  forallb (fun o => negb (registers n o)) ops = true ->
  stored n (run ops r) = stored n r.
Proof.
  unfold run. revert r.
  induction ops as [|o ops IH]; intros r E; cbn in *; [reflexivity|].
  apply andb_prop in E as [E1 E2]. apply negb_true_iff in E1.
  rewrite IH by assumption. now apply step_other_name.
Qed.

Lemma stored_get_instance (n : string) : stored n get_instance = empty_meta.
Proof. unfold stored, get_instance. cbn. now rewrite lookup_empty. Qed.

Lemma run_keeps_causal (n : string) (ops : list operation) (r : ModelRegistry) f :
  causal_lm_factory (stored n r) = Some f ->
  causal_lm_factory (stored n (run ops r)) = Some f.
Proof.
  unfold run. revert r.
  induction ops as [|o ops IH]; intros r E; cbn; [assumption|].
  apply IH. now apply step_keeps_causal.
Qed.

Lemma get_causallm_factory_value (n : string) (r : ModelRegistry) :
  (get_causallm_factory n r).1 = causal_lm_factory (stored n r).
Proof.
  unfold get_causallm_factory, stored.
  pose proof (subscript_value n (model_registry_ r)).
  destruct (subscript n (model_registry_ r)). cbn [fst] in *. congruence.
Qed.

Lemma register_causallm_factory_again (n : string) g (r : ModelRegistry) f :
  causal_lm_factory (stored n r) = Some f ->
  stored n (register_causallm_factory n g r) = stored n r /\
  length (warnings (register_causallm_factory n g r)) = S (length (warnings r)).
Proof.
  intros E. split.
  - open_call n n; congruence.
  - open_call n n; try congruence. rewrite length_app. cbn. lia.
Qed.

Lemma register_causallm_factory_first (n : string) g (r : ModelRegistry) :
  causal_lm_factory (stored n r) = None ->
  causal_lm_factory (stored n (register_causallm_factory n g r)) = g.
Proof. intros E. open_call n n; congruence. Qed.

Lemma run_keeps_model_args (n : string) (ops : list operation) (r : ModelRegistry) f :
  model_args_loader (stored n r) = Some f ->
  model_args_loader (stored n (run ops r)) = Some f.
Proof.
  unfold run. revert r.
  induction ops as [|o ops IH]; intros r E; cbn; [assumption|].
  apply IH. now apply step_keeps_model_args.
Qed.

Lemma get_model_args_loader_value (n : string) (r : ModelRegistry) :
  (get_model_args_loader n r).1 = model_args_loader (stored n r).
Proof.
  unfold get_model_args_loader, stored.
  pose proof (subscript_value n (model_registry_ r)).
  destruct (subscript n (model_registry_ r)). cbn [fst] in *. congruence.
Qed.

Lemma register_model_args_loader_again (n : string) g (r : ModelRegistry) f :
  model_args_loader (stored n r) = Some f ->
  stored n (register_model_args_loader n g r) = stored n r /\
  length (warnings (register_model_args_loader n g r)) = S (length (warnings r)).
Proof.
  intros E. split.
  - open_call n n; congruence.
  - open_call n n; try congruence. rewrite length_app. cbn. lia.
Qed.

Lemma register_model_args_loader_first (n : string) g (r : ModelRegistry) :
  model_args_loader (stored n r) = None ->
  model_args_loader (stored n (register_model_args_loader n g r)) = g.
Proof. intros E. open_call n n; congruence. Qed.

Lemma run_keeps_quant_args (n : string) (ops : list operation) (r : ModelRegistry) f :
  quant_args_loader (stored n r) = Some f ->
  quant_args_loader (stored n (run ops r)) = Some f.
Proof.
  unfold run. revert r.
  induction ops as [|o ops IH]; intros r E; cbn; [assumption|].
  apply IH. now apply step_keeps_quant_args.
Qed.

Lemma get_quant_args_loader_value (n : string) (r : ModelRegistry) :
  (get_quant_args_loader n r).1 = quant_args_loader (stored n r).
Proof.
  unfold get_quant_args_loader, stored.
  pose proof (subscript_value n (model_registry_ r)).
  destruct (subscript n (model_registry_ r)). cbn [fst] in *. congruence.
Qed.

Lemma register_quant_args_loader_again (n : string) g (r : ModelRegistry) f :
  quant_args_loader (stored n r) = Some f ->
  stored n (register_quant_args_loader n g r) = stored n r /\
  length (warnings (register_quant_args_loader n g r)) = S (length (warnings r)).
Proof.
  intros E. split.
  - open_call n n; congruence.
  - open_call n n; try congruence. rewrite length_app. cbn. lia.
Qed.

Lemma register_quant_args_loader_first (n : string) g (r : ModelRegistry) :
  quant_args_loader (stored n r) = None ->
  quant_args_loader (stored n (register_quant_args_loader n g r)) = g.
Proof. intros E. open_call n n; congruence. Qed.

Lemma run_keeps_dialog (n : string) (ops : list operation) (r : ModelRegistry) f :
  dialog_factory (stored n r) = Some f ->
  dialog_factory (stored n (run ops r)) = Some f.
Proof.
  unfold run. revert r.
  induction ops as [|o ops IH]; intros r E; cbn; [assumption|].
  apply IH. now apply step_keeps_dialog.
Qed.

Lemma get_dialog_factory_value (n : string) (r : ModelRegistry) :
  (get_dialog_factory n r).1 = dialog_factory (stored n r).
Proof.
  unfold get_dialog_factory, stored.
  pose proof (subscript_value n (model_registry_ r)).
  destruct (subscript n (model_registry_ r)). cbn [fst] in *. congruence.
Qed.

Lemma register_dialog_factory_again (n : string) g (r : ModelRegistry) f :
  dialog_factory (stored n r) = Some f ->
  stored n (register_dialog_factory n g r) = stored n r /\
  length (warnings (register_dialog_factory n g r)) = S (length (warnings r)).
Proof.
  intros E. split.
  - open_call n n; congruence.
  - open_call n n; try congruence. rewrite length_app. cbn. lia.
Qed.

Lemma register_dialog_factory_first (n : string) g (r : ModelRegistry) :
  dialog_factory (stored n r) = None ->
  dialog_factory (stored n (register_dialog_factory n g r)) = g.
Proof. intros E. open_call n n; congruence. Qed.

(** C8.  For each of the four kinds of entry: once a non-null entry is
    stored under a name, registering again under that name leaves the
    stored entry as it was and only adds a warning, and after any
    further calls the getter still returns the entry registered first;
    a first registration on a null slot is the one the getter returns
    from then on; and in a registry where nothing was ever registered
    under a name, the getter returns the null entry. *)
Theorem first_registration_wins :
  (forall (name : string) (r : ModelRegistry) f g (ops : list operation),
      causal_lm_factory (stored name r) = Some f ->
      stored name (register_causallm_factory name g r) = stored name r /\
      length (warnings (register_causallm_factory name g r)) = S (length (warnings r)) /\
      (get_causallm_factory name (run ops (register_causallm_factory name g r))).1 = Some f) /\
  (forall (name : string) (r : ModelRegistry) f (ops : list operation),
      causal_lm_factory (stored name r) = None ->
      (get_causallm_factory name (run ops (register_causallm_factory name (Some f) r))).1 = Some f) /\
  (forall (name : string) (ops : list operation),
      forallb (fun o => negb (registers name o)) ops = true ->
      (get_causallm_factory name (run ops get_instance)).1 = None) /\
  (forall (name : string) (r : ModelRegistry) f g (ops : list operation),
      model_args_loader (stored name r) = Some f ->
      stored name (register_model_args_loader name g r) = stored name r /\
      length (warnings (register_model_args_loader name g r)) = S (length (warnings r)) /\
      (get_model_args_loader name (run ops (register_model_args_loader name g r))).1 = Some f) /\
  (forall (name : string) (r : ModelRegistry) f (ops : list operation),
      model_args_loader (stored name r) = None ->
      (get_model_args_loader name (run ops (register_model_args_loader name (Some f) r))).1 = Some f) /\
  (forall (name : string) (ops : list operation),
      forallb (fun o => negb (registers name o)) ops = true ->
      (get_model_args_loader name (run ops get_instance)).1 = None) /\
  (forall (name : string) (r : ModelRegistry) f g (ops : list operation),
      quant_args_loader (stored name r) = Some f ->
      stored name (register_quant_args_loader name g r) = stored name r /\
      length (warnings (register_quant_args_loader name g r)) = S (length (warnings r)) /\
      (get_quant_args_loader name (run ops (register_quant_args_loader name g r))).1 = Some f) /\
  (forall (name : string) (r : ModelRegistry) f (ops : list operation),
      quant_args_loader (stored name r) = None ->
      (get_quant_args_loader name (run ops (register_quant_args_loader name (Some f) r))).1 = Some f) /\
  (forall (name : string) (ops : list operation),
      forallb (fun o => negb (registers name o)) ops = true ->
      (get_quant_args_loader name (run ops get_instance)).1 = None) /\
  (forall (name : string) (r : ModelRegistry) f g (ops : list operation),
      dialog_factory (stored name r) = Some f ->
      stored name (register_dialog_factory name g r) = stored name r /\
      length (warnings (register_dialog_factory name g r)) = S (length (warnings r)) /\
      (get_dialog_factory name (run ops (register_dialog_factory name g r))).1 = Some f) /\
  (forall (name : string) (r : ModelRegistry) f (ops : list operation),
      dialog_factory (stored name r) = None ->
      (get_dialog_factory name (run ops (register_dialog_factory name (Some f) r))).1 = Some f) /\
  (forall (name : string) (ops : list operation),
      forallb (fun o => negb (registers name o)) ops = true ->
      (get_dialog_factory name (run ops get_instance)).1 = None).
Proof.
  repeat apply conj.
  - intros name r f g ops E.
    destruct (register_causallm_factory_again name g r f E) as [S W].
    repeat split; [exact S|exact W|].
    rewrite get_causallm_factory_value. apply run_keeps_causal. now rewrite S.
  - intros name r f ops E.
    rewrite get_causallm_factory_value. apply run_keeps_causal.
    now apply register_causallm_factory_first.
  - intros name ops E.
    rewrite get_causallm_factory_value, run_never_registered by assumption.
    now rewrite stored_get_instance.
  - intros name r f g ops E.
    destruct (register_model_args_loader_again name g r f E) as [S W].
    repeat split; [exact S|exact W|].
    rewrite get_model_args_loader_value. apply run_keeps_model_args. now rewrite S.
  - intros name r f ops E.
    rewrite get_model_args_loader_value. apply run_keeps_model_args.
    now apply register_model_args_loader_first.
  - intros name ops E.
    rewrite get_model_args_loader_value, run_never_registered by assumption.
    now rewrite stored_get_instance.
  - intros name r f g ops E.
    destruct (register_quant_args_loader_again name g r f E) as [S W].
    repeat split; [exact S|exact W|].
    rewrite get_quant_args_loader_value. apply run_keeps_quant_args. now rewrite S.
  - intros name r f ops E.
    rewrite get_quant_args_loader_value. apply run_keeps_quant_args.
    now apply register_quant_args_loader_first.
  - intros name ops E.
    rewrite get_quant_args_loader_value, run_never_registered by assumption.
    now rewrite stored_get_instance.
  - intros name r f g ops E.
    destruct (register_dialog_factory_again name g r f E) as [S W].
    repeat split; [exact S|exact W|].
    rewrite get_dialog_factory_value. apply run_keeps_dialog. now rewrite S.
  - intros name r f ops E.
    rewrite get_dialog_factory_value. apply run_keeps_dialog.
    now apply register_dialog_factory_first.
  - intros name ops E.
    rewrite get_dialog_factory_value, run_never_registered by assumption.
    now rewrite stored_get_instance.
Qed.

End WithCallables.

End RegistryFacts.

(** ** 64-bit arithmetic *)

Module Int64Facts.

Lemma wrap64_small (z : Z) : in_int64 z -> wrap64 z = z.
Proof.
  unfold in_int64, min_int64, max_int64, wrap64. intros Hz.
  rewrite Z.mod_small by lia. lia.
Qed.

Lemma wrap64_congr (a b : Z) : a mod 2 ^ 64 = b mod 2 ^ 64 -> wrap64 a = wrap64 b.
Proof.
  intros E. unfold wrap64.
  rewrite (Zplus_mod a), (Zplus_mod b), E. reflexivity.
Qed.

Lemma wrap64_mod (z : Z) : wrap64 z mod 2 ^ 64 = z mod 2 ^ 64.
Proof.
  unfold wrap64. rewrite Zminus_mod_idemp_l. f_equal. lia.
Qed.

Lemma mul64_wrap_l (a b : Z) : mul64 (wrap64 a) b = wrap64 (a * b).
Proof.
  unfold mul64. apply wrap64_congr.
  rewrite Zmult_mod, wrap64_mod, <- Zmult_mod. reflexivity.
Qed.

Lemma mul_u64_wrap (a b : Z) : wrap64 (mul_u64 (wrap64 a) b) = wrap64 (a * b).
Proof.
  unfold mul_u64, to_u64. apply wrap64_congr.
  rewrite Zmod_mod, <- Zmult_mod, Zmult_mod, wrap64_mod, <- Zmult_mod.
  reflexivity.
Qed.

Lemma div64_pos (a b : Z) : 0 < b -> div64 a b = Ok (a ÷ b).
Proof.
  intros Hb. unfold div64.
  destruct (Z.eqb_spec b 0); [lia|].
  destruct (Z.eqb_spec b (-1)); [lia|].
  now rewrite andb_false_r.
Qed.

Lemma div64_inv (a b q : Z) : div64 a b = Ok q -> b <> 0 /\ q = a ÷ b.
Proof.
  unfold div64. destruct (Z.eqb_spec b 0); [discriminate|].
  destruct ((a =? min_int64) && (b =? -1)); [discriminate|].
  intros [= <-]. split; [assumption|reflexivity].
Qed.

Lemma div_u64_itemsize (t : ScalarType) : div_u64 16 (itemsize t) = Ok (16 / itemsize t).
Proof. destruct t; reflexivity. Qed.

Lemma sixteen_over_itemsize_pos (t : ScalarType) : 0 < 16 / itemsize t.
Proof. destruct t; reflexivity. Qed.

End Int64Facts.

(** ** The engine *)

Module EngineFacts.
Import Engine Int64Facts.

Section WithCollaborators.
Context `{Collaborators}.

(** Unfold the monad operations of an engine method applied to a state. *)
Ltac step_m :=
  unfold mbind, mret, M_bind, M_ret, bindM, ret, lift, get, emit, modify in *;
  cbn [engine trace fst snd devices_ workers_ tokenizer_ args_ dtype_
         block_manager_ set_tokenizer set_args set_dtype] in *.

(** A fan-out whose per-worker action emits one event and returns a value
    computed from the worker. *)
Lemma for_workers_pure {A} (ev : nat -> Worker -> event) (g : Worker -> A)
      (ws : list Worker) (i : nat) (s : State) :
  for_workers (fun rank w => emit (ev rank w);; ret (g w)) i ws s =
  (Ok (map g ws),
   {| engine := engine s; trace := trace s ++ imap (fun j w => ev (i + j)%nat w) ws |}).
Proof.
  revert i s. induction ws as [|w ws IH]; intros i s; cbn [for_workers].
  - step_m. cbn. rewrite app_nil_r. now destruct s.
  - unfold mbind at 1, M_bind at 1, bindM at 1.
    unfold mbind at 1, M_bind at 1, bindM at 1.
    unfold emit at 1. cbn [fst snd].
    unfold ret at 1.
    unfold mbind at 1, M_bind at 1, bindM at 1.
    rewrite IH. unfold ret. cbn [engine trace map imap].
    rewrite <- app_assoc. cbn [app]. rewrite Nat.add_0_r.
    do 4 f_equal. apply imap_ext. intros j x _. cbn. f_equal. lia.
Qed.

(** The geometry, when the head count and the worker count are positive. *)
Lemma kv_geometry_ok (e : EngineData) :
  (0 < length (workers_ e))%nat ->
  0 < n_heads (args_ e) ->
  kv_geometry e =
  Ok {| g_block_size := FLAGS_block_size flags;
        g_n_local_kv_heads :=
          default (n_heads (args_ e)) (n_kv_heads (args_ e))
          ÷ Z.of_nat (length (workers_ e));
        g_head_dim := hidden_size (args_ e) ÷ n_heads (args_ e);
        g_dtype_size := itemsize (dtype_ e);
        g_block_size_in_bytes :=
          wrap64 (2 * FLAGS_block_size flags
                  * (default (n_heads (args_ e)) (n_kv_heads (args_ e))
                     ÷ Z.of_nat (length (workers_ e)))
                  * (hidden_size (args_ e) ÷ n_heads (args_ e))
                  * n_layers (args_ e) * itemsize (dtype_ e)) |}.
Proof.
  intros HW Hh. unfold kv_geometry.
  rewrite div64_pos by lia. cbn [mbind outcome_bind Outcome.bind].
  rewrite div64_pos by lia. cbn [mbind outcome_bind Outcome.bind].
  do 2 f_equal.
  unfold mul64 at 4. rewrite !mul64_wrap_l, mul_u64_wrap. reflexivity.
Qed.

Lemma kv_cache_shapes_ok (g : Geometry) (t : ScalarType) (N : Z) :
  g_dtype_size g = itemsize t ->
  kv_cache_shapes g N =
  Ok ([N; g_n_local_kv_heads g; g_head_dim g ÷ (16 / itemsize t); g_block_size g;
       16 / itemsize t],
      [N; g_n_local_kv_heads g; g_head_dim g; g_block_size g]).
Proof.
  intros E. unfold kv_cache_shapes. rewrite E, div_u64_itemsize.
  cbn [mbind outcome_bind Outcome.bind].
  rewrite div64_pos by apply sixteen_over_itemsize_pos. reflexivity.
Qed.

(** [init_kv_cache] once its four pure stages have succeeded. *)
Lemma init_kv_cache_run (s : State) (g : Geometry) (w0 : Worker) (ws : list Worker)
      (N : Z) (k v : list Z) :
  workers_ (engine s) = w0 :: ws ->
  kv_geometry (engine s) = Ok g ->
  profile_num_blocks (device w0) (g_block_size_in_bytes g) = Ok N ->
  kv_cache_shapes g N = Ok (k, v) ->
  init_kv_cache s =
  (Ok (forallb id (map (fun w => worker_init_kv_cache w k v) (w0 :: ws))),
   {| engine := {| devices_ := devices_ (engine s); workers_ := workers_ (engine s);
                   tokenizer_ := tokenizer_ (engine s); args_ := args_ (engine s);
                   dtype_ := dtype_ (engine s);
                   block_manager_ := Some (N, g_block_size g) |};
      trace := trace s ++ NewBlockManager N (g_block_size g)
                 :: dispatch_events (w0 :: ws) (InitKvCache k v) |}).
Proof.
  intros HW HG HN HS. unfold init_kv_cache, dispatch_events.
  unfold mbind at 1, M_bind at 1, bindM at 1, get at 1.
  unfold mbind at 1, M_bind at 1, bindM at 1, lift at 1. rewrite HG.
  unfold mbind at 1, M_bind at 1, bindM at 1, lift at 1. rewrite HW.
  cbn [front].
  unfold mbind at 1, M_bind at 1, bindM at 1, lift at 1. rewrite HN.
  unfold mbind at 1, M_bind at 1, bindM at 1, lift at 1. rewrite HS.
  cbn [fst snd].
  unfold mbind at 1, M_bind at 1, bindM at 1, modify at 1.
  unfold mbind at 1, M_bind at 1, bindM at 1, emit at 1.
  cbn [engine trace workers_].
  destruct ws as [|w1 ws].
  - cbn [length Nat.eqb]. step_m. cbn [map forallb id].
    rewrite andb_true_r, <- app_assoc, ?HW. reflexivity.
  - cbn [length Nat.eqb].
    unfold mbind at 1, M_bind at 1, bindM at 1.
    rewrite (for_workers_pure
               (fun rank _ => Async rank (InitKvCache k v))
               (fun w => worker_init_kv_cache w k v)).
    step_m. cbn [length map]. rewrite length_map.
    rewrite <- !app_assoc, ?HW. reflexivity.
Qed.

(** A failing stage is the outcome of [init_kv_cache]; the state is kept. *)
Lemma init_kv_cache_fails (s : State) (w0 : Worker) (ws : list Worker)
      (g : Geometry) (err : error) :
  workers_ (engine s) = w0 :: ws ->
  kv_geometry (engine s) = Ok g ->
  profile_num_blocks (device w0) (g_block_size_in_bytes g) = Err err ->
  init_kv_cache s = (Err err, s).
Proof.
  intros HW HG HN. unfold init_kv_cache.
  unfold mbind at 1, M_bind at 1, bindM at 1, get at 1.
  unfold mbind at 1, M_bind at 1, bindM at 1, lift at 1. rewrite HG.
  unfold mbind at 1, M_bind at 1, bindM at 1, lift at 1. rewrite HW.
  cbn [front].
  unfold mbind at 1, M_bind at 1, bindM at 1, lift at 1. rewrite HN.
  reflexivity.
Qed.

(** Every worker receives the dispatched call exactly once. *)
Lemma calls_to_async (c : call) (ws : list Worker) (i rank : nat) :
  calls_to rank (imap (fun j _ => Async (i + j)%nat c) ws) =
  if bool_decide (i <= rank < i + length ws)%nat then [c] else [].
Proof.
  revert i. induction ws as [|w ws IH]; intros i.
  - cbn. case_bool_decide; [lia|reflexivity].
  - cbn [imap]. rewrite Nat.add_0_r.
    rewrite (imap_ext _ (fun j _ => Async (S i + j)%nat c))
      by (intros j x _; cbn; f_equal; lia).
    unfold calls_to in *. cbn [omap list_omap]. rewrite (IH (S i)).
    cbn [length]. destruct (Nat.eqb_spec i rank) as [->|N];
      repeat case_bool_decide; try lia; reflexivity.
Qed.

Lemma calls_to_dispatch (c : call) (ws : list Worker) (rank : nat) :
  (rank < length ws)%nat -> calls_to rank (dispatch_events ws c) = [c].
Proof.
  intros Hr. unfold dispatch_events.
  destruct (Nat.eqb_spec (length ws) 1) as [E|N].
  - assert (rank = 0%nat) as -> by lia. reflexivity.
  - pose proof (calls_to_async c ws 0 rank) as HA. cbn [Nat.add] in HA.
    unfold calls_to in *. rewrite omap_app, HA. cbn.
    case_bool_decide; [reflexivity|lia].
Qed.

(** C1.  With at least one worker, a positive head count and a block size
    in bytes that is positive and fits [int64_t], [init_kv_cache] computes
    [block_size_in_bytes = 2 * block_size * n_local_kv_heads * head_dim *
    n_layers * dtype_size], with [n_local_kv_heads = n_kv_heads / world_size],
    [n_kv_heads] defaulting to [n_heads], and [head_dim = hidden_size /
    n_heads].  On a CUDA device the budget is the scaled total memory minus
    the allocated memory, clamped by the configured cap when the cap is
    positive, and the block manager gets [N = budget / block_size_in_bytes];
    on CPU [N = configured cap / block_size_in_bytes].  Whenever the budget
    or [N] is not positive the call aborts; on any other device it aborts
    too. *)
Theorem kv_cache_sizing (s : State) (w0 : Worker) (ws : list Worker) :
  let e := engine s in
  let B := FLAGS_block_size flags in
  let cap := FLAGS_max_cache_size flags in
  let kv_heads := default (n_heads (args_ e)) (n_kv_heads (args_ e)) in
  let n_local_kv_heads := kv_heads ÷ Z.of_nat (length (workers_ e)) in
  let head_dim := hidden_size (args_ e) ÷ n_heads (args_ e) in
  let dtype_size := itemsize (dtype_ e) in
  let block_size_in_bytes :=
    2 * B * n_local_kv_heads * head_dim * n_layers (args_ e) * dtype_size in
  let already_allocated := max_memory_allocated memory (device w0) in
  let total := total_memory memory (device w0) in
  let measured := FLAGS_max_memory_utilization flags total - already_allocated in
  let max_cache_size := if 0 <? cap then Z.min measured cap else measured in
  workers_ e = w0 :: ws ->
  0 < n_heads (args_ e) ->
  0 < block_size_in_bytes <= max_int64 ->
  in_int64 measured ->
  (exists g, kv_geometry e = Ok g /\
             g_n_local_kv_heads g = n_local_kv_heads /\
             g_head_dim g = head_dim /\
             g_block_size_in_bytes g = block_size_in_bytes) /\
  match device_type (device w0) with
  | CPU =>
      let N := cap ÷ block_size_in_bytes in
      (N <= 0 -> aborted (init_kv_cache s).1) /\
      (0 < N ->
       is_ok (init_kv_cache s).1 = true /\
       block_manager_ (engine (init_kv_cache s).2) = Some (N, B))
  | CUDA =>
      let N := max_cache_size ÷ block_size_in_bytes in
      (max_cache_size <= 0 \/ N <= 0 -> aborted (init_kv_cache s).1) /\
      (0 < max_cache_size -> 0 < N ->
       is_ok (init_kv_cache s).1 = true /\
       block_manager_ (engine (init_kv_cache s).2) = Some (N, B))
  | OtherDevice => aborted (init_kv_cache s).1
  end.
Proof.
  intros e B cap kv_heads n_local_kv_heads head_dim dtype_size block_size_in_bytes
         already_allocated total measured max_cache_size HW Hh HP Hm.
  assert (HG := kv_geometry_ok e). rewrite HW in HG.
  specialize (HG ltac:(cbn; lia) Hh). rewrite <- HW in HG.
  fold B kv_heads n_local_kv_heads head_dim dtype_size in HG.
  rewrite wrap64_small in HG
    by (fold block_size_in_bytes; unfold in_int64, min_int64; lia).
  fold block_size_in_bytes in HG.
  split; [eexists; split; [exact HG|]; repeat split|].
  set (g := {| g_block_size := B; g_n_local_kv_heads := n_local_kv_heads;
               g_head_dim := head_dim; g_dtype_size := dtype_size;
               g_block_size_in_bytes := block_size_in_bytes |}) in *.
  assert (HS : forall N, kv_cache_shapes g N = Ok _)
    by (intros N; apply (kv_cache_shapes_ok g (dtype_ e) N); reflexivity).
  assert (Good : forall N, profile_num_blocks (device w0) block_size_in_bytes = Ok N ->
                 is_ok (init_kv_cache s).1 = true /\
                 block_manager_ (engine (init_kv_cache s).2) = Some (N, B)).
  { intros N HN. rewrite (init_kv_cache_run s g w0 ws N _ _ HW HG HN (HS N)).
    split; reflexivity. }
  assert (Bad : forall msg, profile_num_blocks (device w0) block_size_in_bytes
                            = Err (CheckFailed msg) ->
                aborted (init_kv_cache s).1).
  { intros msg HN. rewrite (init_kv_cache_fails s w0 ws g _ HW HG HN).
    exists msg. reflexivity. }
  unfold profile_num_blocks, is_cpu, is_cuda in Good, Bad.
  destruct (device_type (device w0)).
  - (* CPU *)
    rewrite div64_pos in Good, Bad by lia.
    cbn [mbind outcome_bind Outcome.bind] in Good, Bad. fold cap in Good, Bad.
    unfold CHECK in Good, Bad. cbn zeta. split.
    + intros HN. destruct (Z.ltb_spec 0 (cap ÷ block_size_in_bytes)); [lia|].
      eapply Bad. reflexivity.
    + intros HN. destruct (Z.ltb_spec 0 (cap ÷ block_size_in_bytes)); [|lia].
      apply Good. reflexivity.
  - (* CUDA *)
    assert (HC : cuda_max_cache_size (device w0) = max_cache_size).
    { unfold cuda_max_cache_size, sub64. now rewrite wrap64_small. }
    rewrite HC in Good, Bad. rewrite div64_pos in Good, Bad by lia.
    cbn [mbind outcome_bind Outcome.bind] in Good, Bad.
    unfold CHECK in Good, Bad. cbn zeta. split.
    + intros HN. destruct (Z.ltb_spec 0 max_cache_size).
      * destruct (Z.ltb_spec 0 (max_cache_size ÷ block_size_in_bytes)); [lia|].
        eapply Bad. reflexivity.
      * eapply Bad. reflexivity.
    + intros H1 H2. destruct (Z.ltb_spec 0 max_cache_size); [|lia].
      destruct (Z.ltb_spec 0 (max_cache_size ÷ block_size_in_bytes)); [|lia].
      apply Good. reflexivity.
  - (* any other device *)
    eapply Bad. reflexivity.
Qed.

(** What a successful geometry computation returned. *)
Lemma kv_geometry_inv (e : EngineData) (g : Geometry) :
  kv_geometry e = Ok g ->
  g_block_size g = FLAGS_block_size flags /\
  g_n_local_kv_heads g =
    default (n_heads (args_ e)) (n_kv_heads (args_ e)) ÷ Z.of_nat (length (workers_ e)) /\
  g_head_dim g = hidden_size (args_ e) ÷ n_heads (args_ e) /\
  g_dtype_size g = itemsize (dtype_ e).
Proof.
  unfold kv_geometry. intros E.
  destruct (div64 _ (Z.of_nat _)) as [q1|] eqn:E1; [|discriminate].
  apply div64_inv in E1 as [_ ->].
  cbn [mbind outcome_bind Outcome.bind] in E.
  destruct (div64 (hidden_size _) _) as [q2|] eqn:E2; [|discriminate].
  apply div64_inv in E2 as [_ ->].
  cbn [mbind outcome_bind Outcome.bind] in E.
  injection E as <-. repeat split.
Qed.

Lemma profile_num_blocks_pos (d : Device) (b N : Z) :
  profile_num_blocks d b = Ok N -> 0 < N.
Proof.
  unfold profile_num_blocks, CHECK.
  destruct (is_cpu d); [|destruct (is_cuda d); [|discriminate]].
  - destruct (div64 _ b) as [q|]; [|discriminate].
    cbn [mbind outcome_bind Outcome.bind].
    destruct (Z.ltb_spec 0 q); [|discriminate]. now intros [= <-].
  - destruct (0 <? _); [|discriminate].
    cbn [mbind outcome_bind Outcome.bind].
    destruct (div64 _ b) as [q|]; [|discriminate].
    cbn [mbind outcome_bind Outcome.bind].
    destruct (Z.ltb_spec 0 q); [|discriminate]. now intros [= <-].
Qed.

(** C3.  Whenever [init_kv_cache] returns, it has created the block manager
    for some [N > 0] blocks and has called [init_kv_cache] exactly once on
    every worker, each time with key shape
    [[N, n_local_kv_heads, head_dim / x, block_size, x]], [x = 16 /
    dtype_size], and value shape [[N, n_local_kv_heads, head_dim,
    block_size]]; with two workers the second key dimension is
    [n_kv_heads / 2]. *)
Theorem kv_cache_shapes_passed (s : State) (ok : bool) :
  let e := engine s in
  let B := FLAGS_block_size flags in
  let kv_heads := default (n_heads (args_ e)) (n_kv_heads (args_ e)) in
  let n_local_kv_heads := kv_heads ÷ Z.of_nat (length (workers_ e)) in
  let head_dim := hidden_size (args_ e) ÷ n_heads (args_ e) in
  let x := 16 / itemsize (dtype_ e) in
  (init_kv_cache s).1 = Ok ok ->
  exists N : Z,
    let key_cache_shape := [N; n_local_kv_heads; head_dim ÷ x; B; x] in
    let value_cache_shape := [N; n_local_kv_heads; head_dim; B] in
    let c := InitKvCache key_cache_shape value_cache_shape in
    0 < N /\
    block_manager_ (engine (init_kv_cache s).2) = Some (N, B) /\
    trace (init_kv_cache s).2 =
      trace s ++ NewBlockManager N B :: dispatch_events (workers_ e) c /\
    (forall rank : nat, (rank < length (workers_ e))%nat ->
       calls_to rank (dispatch_events (workers_ e) c) = [c]) /\
    (length (workers_ e) = 2%nat -> key_cache_shape !! 1%nat = Some (kv_heads ÷ 2)).
Proof.
  intros e B kv_heads n_local_kv_heads head_dim x Hok.
  destruct (kv_geometry e) as [g|err] eqn:HG.
  2:{ exfalso. revert Hok. unfold init_kv_cache.
      unfold mbind at 1, M_bind at 1, bindM at 1, get at 1.
      unfold mbind at 1, M_bind at 1, bindM at 1, lift at 1.
      fold e. rewrite HG. discriminate. }
  destruct (workers_ e) as [|w0 ws] eqn:HW.
  { exfalso. revert Hok. unfold init_kv_cache.
    unfold mbind at 1, M_bind at 1, bindM at 1, get at 1.
    unfold mbind at 1, M_bind at 1, bindM at 1, lift at 1.
    fold e. rewrite HG.
    unfold mbind at 1, M_bind at 1, bindM at 1, lift at 1.
    rewrite HW. discriminate. }
  destruct (profile_num_blocks (device w0) (g_block_size_in_bytes g)) as [N|err] eqn:HN.
  2:{ exfalso. rewrite (init_kv_cache_fails s w0 ws g err HW HG HN) in Hok.
      discriminate. }
  destruct (kv_geometry_inv e g HG) as (EB & EL & EH & ED).
  pose proof (kv_cache_shapes_ok g (dtype_ e) N ED) as HS.
  rewrite (init_kv_cache_run s g w0 ws N _ _ HW HG HN HS).
  rewrite EB, EL, EH, HW. cbn [fst snd engine trace block_manager_].
  fold B kv_heads head_dim x. exists N. cbn zeta.
  split; [now apply profile_num_blocks_pos in HN|].
  split; [reflexivity|]. split; [reflexivity|]. split.
  - intros rank Hr. now apply calls_to_dispatch.
  - intros E. cbn [lookup list_lookup]. unfold n_local_kv_heads.
    now rewrite E.
Qed.

(** [execute_model] on an engine with workers [w0 :: ws]. *)
Lemma execute_model_run (s : State) (batch : list Sequence)
      (w0 : Worker) (ws : list Worker) :
  let p := prepare_inputs batch (FLAGS_block_size flags) in
  let c := ExecuteModel (input_token_ids p) (input_positions p)
                        (input_params p) (sampling_params p) in
  workers_ (engine s) = w0 :: ws ->
  execute_model batch s =
  (index_select (worker_execute_model w0 (input_token_ids p) (input_positions p)
                                      (input_params p) (sampling_params p))
                (seq_indices p),
   {| engine := engine s; trace := trace s ++ dispatch_events (w0 :: ws) c |}).
Proof.
  intros p c HW.
  unfold execute_model, dispatch_events.
  unfold mbind at 1, M_bind at 1, bindM at 1, get at 1.
  rewrite HW. fold p c. destruct ws as [|w1 ws]; cbn [length Nat.eqb].
  - step_m. cbn [front]. reflexivity.
  - unfold mbind at 1, M_bind at 1, bindM at 1.
    rewrite (for_workers_pure
               (fun rank _ => Async rank c)
               (fun w => worker_execute_model w (input_token_ids p)
                           (input_positions p) (input_params p)
                           (sampling_params p))).
    step_m. cbn [map front length]. rewrite length_map.
    rewrite <- !app_assoc. reflexivity.
Qed.

(** C5.  With one worker the step is a single blocking [execute_model]
    call on it.  With several workers every worker gets one asynchronous
    [execute_model] call, all with the same prepared token ids, positions,
    input parameters and sampling parameters, followed by one join on all
    the futures.  In both cases the result is the output of the first
    (rank 0) worker, reordered by [seq_indices]. *)
Theorem step_dispatch (s : State) (batch : list Sequence)
        (w0 : Worker) (ws : list Worker) :
  let p := prepare_inputs batch (FLAGS_block_size flags) in
  let c := ExecuteModel (input_token_ids p) (input_positions p)
                        (input_params p) (sampling_params p) in
  let rank0_output :=
    worker_execute_model w0 (input_token_ids p) (input_positions p)
                         (input_params p) (sampling_params p) in
  workers_ (engine s) = w0 :: ws ->
  trace (execute_model batch s).2 = trace s ++ dispatch_events (w0 :: ws) c /\
  (ws = [] -> dispatch_events (w0 :: ws) c = [Blocking 0 c]) /\
  (ws <> [] ->
   dispatch_events (w0 :: ws) c =
   imap (fun rank _ => Async rank c) (w0 :: ws) ++ [CollectAll (length (w0 :: ws))]) /\
  (forall rank : nat, (rank < length (w0 :: ws))%nat ->
     calls_to rank (dispatch_events (w0 :: ws) c) = [c]) /\
  (execute_model batch s).1 = index_select rank0_output (seq_indices p) /\
  engine (execute_model batch s).2 = engine s.
Proof.
  intros p c rank0_output HW.
  pose proof (execute_model_run s batch w0 ws HW) as E. cbn zeta in E.
  fold p c rank0_output in E.
  rewrite E. cbn [fst snd engine trace].
  repeat split.
  - intros ->. reflexivity.
  - intros N. unfold dispatch_events. destruct ws; [congruence|reflexivity].
  - intros rank Hr. now apply calls_to_dispatch.
Qed.

(** *** State-oblivious computations *)

Lemma oblivious_ret {A} (a : A) : oblivious (ret a).
Proof.
  exists (Ok a), []. split; [constructor|].
  intros [e t]. unfold ret. cbn. now rewrite app_nil_r.
Qed.

Lemma oblivious_lift {A} (o : outcome A) : oblivious (lift o).
Proof.
  exists o, []. split; [constructor|].
  intros [e t]. unfold lift. cbn. now rewrite app_nil_r.
Qed.

Lemma oblivious_emit (ev : event) : is_log ev = false -> oblivious (emit ev).
Proof.
  intros L. exists (Ok tt), [ev]. split; [now repeat constructor|].
  intros s. reflexivity.
Qed.

Lemma oblivious_bind {A B} (m : M A) (k : A -> M B) :
  oblivious m -> (forall a, oblivious (k a)) -> oblivious (m ≫= k).
Proof.
  intros (r & evs & L & Hm) Hk.
  destruct r as [a|err].
  - destruct (Hk a) as (r2 & evs2 & L2 & Hk2).
    exists r2, (evs ++ evs2). split; [now apply Forall_app|].
    intros s. unfold mbind, M_bind, bindM. rewrite Hm, Hk2.
    cbn [engine trace]. now rewrite app_assoc.
  - exists (Err err), evs. split; [assumption|].
    intros s. unfold mbind, M_bind, bindM. now rewrite Hm.
Qed.

Lemma oblivious_for_workers {A} (f : nat -> Worker -> M A) (ws : list Worker) :
  (forall i w, oblivious (f i w)) -> forall i, oblivious (for_workers f i ws).
Proof.
  intros Hf. induction ws as [|w ws IH]; intros i; cbn [for_workers].
  - apply oblivious_ret.
  - apply oblivious_bind; [apply Hf|]. intros a.
    apply oblivious_bind; [apply IH|]. intros rest. apply oblivious_ret.
Qed.

Lemma oblivious_load_blocking (w : Worker) (sds : list StateDict) :
  oblivious (load_blocking w sds).
Proof.
  induction sds as [|sd sds IH]; cbn [load_blocking].
  - apply oblivious_ret.
  - apply oblivious_bind; [now apply oblivious_emit|]. intros _.
    apply oblivious_bind; [apply oblivious_lift|]. intros _. exact IH.
Qed.

Lemma oblivious_load_parallel (ws : list Worker) (sds : list StateDict) :
  oblivious (load_parallel ws sds).
Proof.
  induction sds as [|sd sds IH]; cbn [load_parallel].
  - apply oblivious_ret.
  - apply oblivious_bind.
    + apply oblivious_for_workers. intros i w.
      apply oblivious_bind; [now apply oblivious_emit|]. intros _.
      apply oblivious_ret.
    + intros results.
      apply oblivious_bind; [now apply oblivious_emit|]. intros _.
      destruct (forallb is_ok results); [exact IH|apply oblivious_ret].
Qed.

Lemma oblivious_init_workers (e : EngineData) (dt : ScalarType) (args : ModelArgs)
      (q : QuantizationArgs) (sds : list StateDict) :
  oblivious (init_workers e dt args q sds).
Proof.
  unfold init_workers. destruct (Nat.eqb (length (workers_ e)) 1).
  - apply oblivious_bind; [apply oblivious_lift|]. intros w.
    apply oblivious_bind; [now apply oblivious_emit|]. intros _.
    destruct (negb _); [apply oblivious_ret|].
    apply oblivious_bind; [apply oblivious_load_blocking|]. intros _.
    apply oblivious_bind; [now apply oblivious_emit|]. intros _.
    apply oblivious_bind; [apply oblivious_lift|]. intros _.
    apply oblivious_ret.
  - apply oblivious_bind.
    { apply oblivious_for_workers. intros i w.
      apply oblivious_bind; [now apply oblivious_emit|]. intros _.
      apply oblivious_ret. }
    intros results.
    apply oblivious_bind; [now apply oblivious_emit|]. intros _.
    destruct (negb _); [apply oblivious_ret|].
    apply oblivious_bind; [apply oblivious_load_parallel|]. intros loaded.
    destruct (negb loaded); [apply oblivious_ret|].
    apply oblivious_bind; [|intros _; apply oblivious_ret].
    apply oblivious_for_workers. intros i w.
    apply oblivious_bind; [now apply oblivious_emit|]. intros _.
    apply oblivious_lift.
Qed.

Lemma non_log_events_app (t1 t2 : list event) :
  non_log_events (t1 ++ t2) = non_log_events t1 ++ non_log_events t2.
Proof. unfold non_log_events. apply List.filter_app. Qed.

(** The unsigned comparison of the two vocabulary sizes is the
    mathematical one for a tokenizer size below 2^63. *)
Lemma vocab_size_mismatch_spec (t : Tokenizer) (a : ModelArgs) :
  0 <= tokenizer_vocab_size t <= max_int64 ->
  in_int64 (vocab_size a) ->
  vocab_size_mismatch t a = true <-> tokenizer_vocab_size t <> vocab_size a.
Proof.
  unfold vocab_size_mismatch, to_u64, in_int64, min_int64, max_int64.
  intros Ht Ha. rewrite negb_true_iff, Z.eqb_neq.
  rewrite (Z.mod_small (tokenizer_vocab_size t)) by lia.
  destruct (Z.le_gt_cases 0 (vocab_size a)).
  - rewrite (Z.mod_small (vocab_size a)) by lia. reflexivity.
  - replace (vocab_size a mod 2 ^ 64) with (vocab_size a + 2 ^ 64).
    + split; lia.
    + apply Z.mod_unique with (q := -1); lia.
Qed.

(** The shape of [init_model_from] once the tokenizer is there: a failure
    before the comparison, or the comparison followed by the worker
    bring-up. *)
Lemma init_model_from_run (l : ModelLoader) (t : Tokenizer) (s : State) :
  let args := loader_model_args l in
  let run := init_model_from (with_tokenizer l t) s in
  (exists err, run.1 = Err err /\ trace run.2 = trace s /\
               (front (devices_ (engine s)) = Err err \/
                exists d, front (devices_ (engine s)) = Ok d /\
                          parse_dtype (dtype args) d = Err err)) \/
  (exists d dt r evs,
      front (devices_ (engine s)) = Ok d /\
      parse_dtype (dtype args) d = Ok dt /\
      Forall (fun ev => is_log ev = false) evs /\
      (forall s', init_workers (engine s) dt args (loader_quant_args l)
                               (loader_state_dicts l) s' =
                  (r, {| engine := engine s'; trace := trace s' ++ evs |})) /\
      run.1 = r /\
      trace run.2 =
        trace s ++ (if vocab_size_mismatch t args
                    then [Log WARNING "Vocab size mismatch"] else []) ++ evs).
Proof.
  intros args run. subst run.
  destruct (init_model_from (with_tokenizer l t) s) as [r0 s0] eqn:E.
  cbn [fst snd]. revert E. unfold init_model_from.
  cbn [with_tokenizer loader_tokenizer loader_model_args loader_quant_args
         loader_state_dicts]. fold args.
  unfold mbind at 1, M_bind at 1, bindM at 1, lift at 1.
  unfold mbind at 1, M_bind at 1, bindM at 1, modify at 1.
  unfold mbind at 1, M_bind at 1, bindM at 1, modify at 1.
  unfold mbind at 1, M_bind at 1, bindM at 1, get at 1.
  cbn [engine trace set_args set_tokenizer devices_].
  unfold mbind at 1, M_bind at 1, bindM at 1, lift at 1.
  destruct (front (devices_ (engine s))) as [d|err] eqn:HD.
  2:{ intros [= <- <-]. left. exists err. cbn. auto. }
  unfold mbind at 1, M_bind at 1, bindM at 1, lift at 1.
  destruct (parse_dtype (dtype args) d) as [dt|err] eqn:HP.
  2:{ intros [= <- <-]. left. exists err. cbn.
      split; [reflexivity|]. split; [reflexivity|].
      right. exists d. auto. }
  destruct (oblivious_init_workers
              (set_args args (set_tokenizer t (engine s)))
              dt args (loader_quant_args l) (loader_state_dicts l))
    as (r & evs & L & Hrun).
  unfold mbind at 1, M_bind at 1, bindM at 1, modify at 1.
  unfold mbind at 1, M_bind at 1, bindM at 1.
  intros E. right.
  exists d, dt, r, evs. split; [reflexivity|]. split; [exact HP|].
  split; [assumption|]. split.
  { intros s'. rewrite <- Hrun. reflexivity. }
  revert E. destruct (vocab_size_mismatch t args).
  - unfold emit at 1. rewrite Hrun. cbn [fst snd engine trace].
    rewrite <- app_assoc. intros [= <- <-]. split; reflexivity.
  - unfold ret at 1. rewrite Hrun. cbn [fst snd engine trace app].
    intros [= <- <-]. split; reflexivity.
Qed.

(** C6.  ([init_model] is [init_model_from] at the loader that
    [ModelLoader::create] returned.)  The outcome of [init_model] and the
    calls it makes do not depend on the tokenizer's vocabulary size:
    changing the tokenizer changes nothing but the warning.  When the sizes
    differ and the device and dtype checks that come first pass, the
    warning is logged and the outcome is that of the worker bring-up alone;
    when they agree, nothing is logged. *)
Theorem vocab_mismatch_only_warns :
  forall (l : ModelLoader) (t t' : Tokenizer) (s : State),
    let args := loader_model_args l in
    let run := init_model_from (with_tokenizer l t) s in
    let run' := init_model_from (with_tokenizer l t') s in
    run.1 = run'.1 /\
    non_log_events (trace run.2) = non_log_events (trace run'.2) /\
    (forall d dt,
        front (devices_ (engine s)) = Ok d ->
        parse_dtype (dtype args) d = Ok dt ->
        exists evs,
          Forall (fun ev => is_log ev = false) evs /\
          run.1 = (init_workers (engine s) dt args (loader_quant_args l)
                                (loader_state_dicts l) s).1 /\
          (vocab_size_mismatch t args = true ->
           trace run.2 = trace s ++ Log WARNING "Vocab size mismatch" :: evs) /\
          (vocab_size_mismatch t args = false ->
           trace run.2 = trace s ++ evs)) /\
    (0 <= tokenizer_vocab_size t <= max_int64 ->
     in_int64 (vocab_size args) ->
     vocab_size_mismatch t args = true <-> tokenizer_vocab_size t <> vocab_size args).
Proof.
  intros l t t' s args run run'.
  pose proof (init_model_from_run l t s) as R.
  pose proof (init_model_from_run l t' s) as R'.
  cbn zeta in R, R'. fold args run in R. fold args run' in R'.
  repeat apply conj.
  - destruct R as [(err & E & _ & C)|(d & dt & r & evs & D & P & _ & W & E & _)],
             R' as [(err' & E' & _ & C')|(d' & dt' & r' & evs' & D' & P' & _ & W' & E' & _)];
      rewrite E, E'.
    + destruct C as [C|(d & C1 & C2)], C' as [C'|(d' & C1' & C2')]; congruence.
    + destruct C as [C|(d0 & C1 & C2)]; congruence.
    + destruct C' as [C'|(d0 & C1 & C2)]; congruence.
    + assert (d = d') by congruence. subst d'.
      assert (dt = dt') by congruence. subst dt'.
      specialize (W s). specialize (W' s). congruence.
  - destruct R as [(err & _ & T & C)|(d & dt & r & evs & D & P & _ & W & _ & T)],
             R' as [(err' & _ & T' & C')|(d' & dt' & r' & evs' & D' & P' & _ & W' & _ & T')];
      rewrite T, T'.
    + reflexivity.
    + destruct C as [C|(d0 & C1 & C2)]; congruence.
    + destruct C' as [C'|(d0 & C1 & C2)]; congruence.
    + assert (d = d') by congruence. subst d'.
      assert (dt = dt') by congruence. subst dt'.
      specialize (W s). specialize (W' s).
      assert (evs = evs').
      { rewrite W in W'. injection W' as _ W'. now apply app_inv_head in W'. }
      subst evs'. rewrite !non_log_events_app.
      destruct (vocab_size_mismatch t args), (vocab_size_mismatch t' args);
        reflexivity.
  - intros d dt D P.
    destruct R as [(err & _ & _ & C)|(d' & dt' & r & evs & D' & P' & L & W & E & T)].
    { destruct C as [C|(d0 & C1 & C2)]; congruence. }
    assert (d' = d) by congruence. subst d'.
    assert (dt' = dt) by congruence. subst dt'.
    exists evs. split; [assumption|]. split; [now rewrite W|].
    split; intros M; rewrite M in T; exact T.
  - apply vocab_size_mismatch_spec.
Qed.

End WithCollaborators.

(** *** The packing permutation *)

Lemma filter_app_length {A} (f : A -> bool) (l1 l2 : list A) :
  length (List.filter f (l1 ++ l2)) =
  (length (List.filter f l1) + length (List.filter f l2))%nat.
Proof. now rewrite List.filter_app, length_app. Qed.

(** Bring the two counters in the goal to the form they have in [IH]. *)
Ltac align_indices IH :=
  match type of IH with
  | context [seq_indices_from ?l ?a' ?b'] =>
      match goal with
      | |- context [seq_indices_from l ?a ?b] =>
          replace (seq_indices_from l a b) with (seq_indices_from l a' b')
            by (f_equal; lia)
      end
  end.

(** Reading the packed order at the recorded indices gives back the rest of
    the batch, whatever prefix [pre] has been processed already. *)
Lemma seq_indices_from_lookup (pre rest : list Sequence) :
  unpermute (packed_order (pre ++ rest))
            (seq_indices_from rest
               (length (List.filter is_prefill pre))
               (length (List.filter is_prefill (pre ++ rest))
                + length (List.filter (fun s => negb (is_prefill s)) pre)))
  = Some rest.
Proof.
  revert pre. induction rest as [|s rest IH]; intros pre; [reflexivity|].
  cbn [seq_indices_from]. unfold unpermute in *.
  specialize (IH (pre ++ [s])). rewrite <- app_assoc in IH. cbn [app] in IH.
  rewrite !filter_app_length in IH. cbn [List.filter] in IH.
  destruct (is_prefill s) eqn:P; cbn [negb length] in IH; cbn [mapM].
  - assert (L : packed_order (pre ++ s :: rest)
                !! length (List.filter is_prefill pre) = Some s).
    { unfold packed_order. rewrite List.filter_app. cbn [List.filter]. rewrite P.
      rewrite <- app_assoc. rewrite lookup_app_r by lia.
      now rewrite Nat.sub_diag. }
    rewrite L. cbn [mbind option_bind].
    rewrite filter_app_length in *.
    cbn [List.filter] in *. rewrite P in *. cbn [length] in *.
    align_indices IH. rewrite IH. reflexivity.
  - assert (L : packed_order (pre ++ s :: rest)
                !! (length (List.filter is_prefill (pre ++ s :: rest))
                    + length (List.filter (fun s => negb (is_prefill s)) pre))%nat
                = Some s).
    { unfold packed_order. rewrite lookup_app_r by lia.
      replace (_ + _ - _)%nat
        with (length (List.filter (fun s => negb (is_prefill s)) pre)) by lia.
      rewrite List.filter_app. cbn [List.filter]. rewrite P. cbn [negb].
      rewrite lookup_app_r by lia. now rewrite Nat.sub_diag. }
    rewrite L. cbn [mbind option_bind].
    rewrite filter_app_length in *.
    cbn [List.filter] in *. rewrite P in *. cbn [length] in *.
    align_indices IH. rewrite IH. reflexivity.
Qed.

Lemma unpermute_packed (batch : list Sequence) :
  unpermute (permute batch) (packed_seq_indices batch) = Some batch.
Proof.
  pose proof (seq_indices_from_lookup [] batch) as L.
  cbn [app List.filter length] in L. rewrite Nat.add_0_r in L. exact L.
Qed.

(** The recorded indices are the prefill positions from [next_prefill] on
    and the decode positions from [next_decode] on, interleaved. *)
Lemma seq_indices_from_perm (batch : list Sequence) (next_prefill next_decode : nat) :
  Permutation
    (seq_indices_from batch next_prefill next_decode)
    (seq next_prefill (length (List.filter is_prefill batch))
     ++ seq next_decode (length (List.filter (fun q => negb (is_prefill q)) batch))).
Proof.
  revert next_prefill next_decode.
  induction batch as [|q batch IH]; intros np nd; cbn [seq_indices_from List.filter].
  - constructor.
  - destruct (is_prefill q); cbn [negb length seq app].
    + constructor. apply IH.
    + rewrite IH. apply Permutation_middle.
Qed.

Lemma filter_partition_length {A} (f : A -> bool) (l : list A) :
  (length (List.filter f l) + length (List.filter (fun x => negb (f x)) l))%nat
  = length l.
Proof.
  induction l as [|x l IH]; cbn [List.filter length]; [reflexivity|].
  destruct (f x); cbn [negb length]; lia.
Qed.

Lemma packed_seq_indices_perm (batch : list Sequence) :
  Permutation (packed_seq_indices batch) (seq 0 (length batch)).
Proof.
  unfold packed_seq_indices. rewrite seq_indices_from_perm.
  rewrite <- (filter_partition_length is_prefill batch), seq_app.
  reflexivity.
Qed.

Lemma unpermute_map {A B} (f : A -> B) (l r : list A) (indices : list nat) :
  unpermute l indices = Some r ->
  unpermute (map f l) indices = Some (map f r).
Proof.
  unfold unpermute. revert r.
  induction indices as [|i indices IH]; intros r; cbn [mapM].
  - now intros [= <-].
  - change (map f l) with (f <$> l). rewrite list_lookup_fmap.
    destruct (l !! i) as [a|]; [|discriminate]. cbn [mbind option_bind fmap option_fmap option_map].
    destruct (mapM (fun i => l !! i) indices) as [k|]; [|discriminate].
    cbn [mbind option_bind mret option_ret]. intros [= <-].
    change (f <$> l) with (map f l). rewrite (IH k eq_refl). reflexivity.
Qed.

Section RoundTrip.
Context `{Collaborators}.

(** C4.  The indices recorded by the packing are a permutation of the
    batch positions and give, for every position of the original batch, the
    place of that sequence in the packed order; reading the packed order at
    these indices restores the batch.  Hence,
    when the packer records these indices and the first worker returns one
    token per sequence in packed order, [execute_model] returns one token
    per sequence in the order of the caller's batch. *)
Theorem output_order_round_trip (s : State) (batch : list Sequence)
        (w0 : Worker) (ws : list Worker) (sampled : Sequence -> Z) :
  let p := prepare_inputs batch (FLAGS_block_size flags) in
  workers_ (engine s) = w0 :: ws ->
  seq_indices p = packed_seq_indices batch ->
  next_tokens (worker_execute_model w0 (input_token_ids p) (input_positions p)
                                    (input_params p) (sampling_params p))
    = map sampled (packed_order batch) ->
  unpermute (permute batch) (packed_seq_indices batch) = Some batch /\
  Permutation (packed_seq_indices batch) (seq 0 (length batch)) /\
  (forall (i : nat) (q : Sequence), batch !! i = Some q ->
     exists j : nat, packed_seq_indices batch !! i = Some j /\
                     packed_order batch !! j = Some q) /\
  (execute_model batch s).1 = Ok {| next_tokens := map sampled batch |}.
Proof.
  intros p HW HI HO. pose proof (unpermute_packed batch) as U.
  split; [exact U|]. split; [apply packed_seq_indices_perm|]. split.
  - intros i q Hq. unfold unpermute, permute in U.
    apply mapM_Some in U.
    destruct (Forall2_lookup_r _ _ _ _ _ U Hq) as (j & Hj & Hl).
    exists j. split; assumption.
  - rewrite (execute_model_run s batch w0 ws HW). fold p.
    cbn [fst]. unfold index_select. rewrite HO, HI.
    apply (unpermute_map sampled) in U. unfold unpermute, permute in U.
    rewrite U. reflexivity.
Qed.

End RoundTrip.

(** *** The theorems at work on the example engines *)

(** One 24 GB card: the budget 0.9 * 24 GB - 14 GB is clamped to the 5 GB
    cap, and 8 MB blocks give 640 of them. *)
Lemma kv_cache_sizing_witness :
  is_ok (init_kv_cache (H := Examples.collaborators) Examples.one_gpu).1 = true /\
  block_manager_ (engine (init_kv_cache (H := Examples.collaborators)
                                        Examples.one_gpu).2)
  = Some (640, 16).
Proof.
  pose proof (kv_cache_sizing (H := Examples.collaborators) Examples.one_gpu
                (Examples.worker_on (Examples.cuda 0)) [] eq_refl eq_refl) as W.
  cbv zeta in W.
  assert (B : 0 < 2 * 16 * (32 ÷ 1) * (4096 ÷ 32) * 32 * 2 <= max_int64)
    by (vm_compute; split; [reflexivity|discriminate]).
  assert (M : in_int64 (24 * Examples.GB * 9 / 10 - 14 * Examples.GB))
    by (vm_compute; split; discriminate).
  destruct (W B M) as [_ [_ Good]].
  apply Good; reflexivity.
Defined.

(** Two cards: both workers are handed the same shapes, with 32 / 2 = 16
    local heads. *)
Lemma kv_cache_shapes_passed_witness :
  calls_to 1 (trace (init_kv_cache (H := Examples.collaborators)
                                   Examples.two_gpus).2)
  = [InitKvCache [1280; 16; 16; 16; 8] [1280; 16; 128; 16]].
Proof.
  destruct (kv_cache_shapes_passed (H := Examples.collaborators)
              Examples.two_gpus true eq_refl) as (N & _ & HB & HT & _).
  injection HB as <-. rewrite HT. reflexivity.
Defined.

(** Two cards: one asynchronous call per worker, then the join; the result
    is the first worker's output in the order of the caller's batch. *)
Lemma step_dispatch_witness :
  non_log_events (trace (execute_model (H := Examples.collaborators)
                                       Examples.mixed_batch Examples.two_gpus).2)
  = (let p := Examples.pack_last_tokens Examples.mixed_batch 16 in
     let c := ExecuteModel (input_token_ids p) (input_positions p)
                           (input_params p) (sampling_params p) in
     [Async 0 c; Async 1 c; CollectAll 2]) /\
  (execute_model (H := Examples.collaborators)
                 Examples.mixed_batch Examples.two_gpus).1
  = Ok {| next_tokens := [14; 24; 34] |}.
Proof.
  destruct (step_dispatch (H := Examples.collaborators) Examples.two_gpus
              Examples.mixed_batch (Examples.worker_on (Examples.cuda 0))
              [Examples.worker_on (Examples.cuda 1)] eq_refl)
    as (HT & _ & _ & _ & HR & _).
  rewrite HT, HR. split; reflexivity.
Defined.

(** The mixed batch (decode, prefill, decode) is packed as (prefill,
    decode, decode); the tokens come back in the caller's order. *)
Lemma output_order_round_trip_witness :
  packed_seq_indices Examples.mixed_batch = [1; 0; 2]%nat /\
  (execute_model (H := Examples.collaborators)
                 Examples.mixed_batch Examples.one_gpu).1
  = Ok {| next_tokens := [14; 24; 34] |}.
Proof.
  split; [reflexivity|].
  destruct (output_order_round_trip (H := Examples.collaborators) Examples.one_gpu
              Examples.mixed_batch (Examples.worker_on (Examples.cuda 0)) []
              (fun q => Z.succ (Examples.last_token q))
              eq_refl eq_refl eq_refl) as (_ & _ & _ & HR).
  rewrite HR. reflexivity.
Defined.

End EngineFacts.

(** ** Tensors: chunks, transposition and shape inference *)

Module TorchFacts.

Section Lists.
Context {A : Type}.

Lemma chunks_n_length (n k : nat) (l : list A) : length (chunks_n n k l) = n.
Proof.
  revert l. induction n as [|n IH]; intros l; cbn; [reflexivity|].
  now rewrite IH.
Qed.

Lemma chunks_n_uniform (n k : nat) (l : list A) :
  length l = (n * k)%nat -> uniform k (chunks_n n k l).
Proof.
  revert l. induction n as [|n IH]; intros l E; cbn; constructor.
  - rewrite length_take. lia.
  - apply IH. rewrite length_drop. lia.
Qed.

Lemma chunks_n_concat (n k : nat) (l : list A) :
  length l = (n * k)%nat -> concat (chunks_n n k l) = l.
Proof.
  revert l. induction n as [|n IH]; intros l E; cbn.
  - destruct l; [reflexivity|discriminate].
  - rewrite IH by (rewrite length_drop; lia). apply take_drop.
Qed.

Lemma concat_uniform_length (k : nat) (m : list (list A)) :
  uniform k m -> length (concat m) = (length m * k)%nat.
Proof.
  induction 1 as [|row m E _ IH]; cbn; [reflexivity|].
  rewrite length_app, IH, E. reflexivity.
Qed.

Lemma chunks_n_of_concat (k : nat) (m : list (list A)) :
  uniform k m -> chunks_n (length m) k (concat m) = m.
Proof.
  induction 1 as [|row m E _ IH]; cbn; [reflexivity|].
  rewrite take_app_length' by congruence.
  rewrite drop_app_length' by congruence.
  now rewrite IH.
Qed.

Lemma chunks_of_concat (k : nat) (m : list (list A)) :
  (0 < k)%nat -> uniform k m -> chunks k (concat m) = m.
Proof.
  intros Hk U. unfold chunks.
  rewrite (concat_uniform_length k m U), Nat.div_mul by lia.
  now apply chunks_n_of_concat.
Qed.

Lemma chunks_length (n k : nat) (l : list A) :
  (0 < k)%nat -> length l = (n * k)%nat -> length (chunks k l) = n.
Proof.
  intros Hk E. unfold chunks. rewrite chunks_n_length, E.
  apply Nat.div_mul. lia.
Qed.

Lemma chunks_uniform (n k : nat) (l : list A) :
  (0 < k)%nat -> length l = (n * k)%nat -> uniform k (chunks k l).
Proof.
  intros Hk E. unfold chunks. rewrite E, Nat.div_mul by lia.
  now apply chunks_n_uniform.
Qed.

Lemma chunks_concat (n k : nat) (l : list A) :
  (0 < k)%nat -> length l = (n * k)%nat -> concat (chunks k l) = l.
Proof.
  intros Hk E. unfold chunks. rewrite E, Nat.div_mul by lia.
  now apply chunks_n_concat.
Qed.

End Lists.

Section Transpose.
Context {A : Type}.

Lemma zip_cons_length (r : list A) (m : list (list A)) :
  length r = length m -> length (zip_cons r m) = length m.
Proof.
  revert m. induction r as [|x r IH]; intros [|c m]; cbn; try congruence.
  intros [= E]. now rewrite IH.
Qed.

Lemma zip_cons_uniform (h : nat) (r : list A) (m : list (list A)) :
  uniform h m -> uniform (S h) (zip_cons r m).
Proof.
  intros U. revert r. induction U as [|c m E _ IH]; intros [|x r]; cbn;
    try constructor.
  - cbn. now rewrite E.
  - apply IH.
Qed.

Lemma transpose_length (w : nat) (m : list (list A)) :
  uniform w m -> length (transpose w m) = w.
Proof.
  induction 1 as [|r m E _ IH]; cbn.
  - apply length_replicate.
  - rewrite zip_cons_length; congruence.
Qed.

Lemma transpose_uniform (w : nat) (m : list (list A)) :
  uniform (length m) (transpose w m).
Proof.
  induction m as [|r m IH]; cbn.
  - unfold uniform. apply Forall_replicate. reflexivity.
  - now apply zip_cons_uniform.
Qed.

(** Transposing the matrix with first column [r] and remaining columns [m]
    puts [r] on top as first row. *)
Lemma transpose_zip_cons (h : nat) (r : list A) (m : list (list A)) :
  length r = length m ->
  transpose (S h) (zip_cons r m) = r :: transpose h m.
Proof.
  revert m. induction r as [|x r IH]; intros [|c m]; cbn; try congruence.
  intros [= E]. rewrite IH by assumption. reflexivity.
Qed.

Lemma transpose_involutive (w : nat) (m : list (list A)) :
  uniform w m -> transpose (length m) (transpose w m) = m.
Proof.
  induction 1 as [|r m E U IH]; cbn.
  - destruct w; reflexivity.
  - rewrite transpose_zip_cons
      by (rewrite transpose_length by assumption; congruence).
    now rewrite IH.
Qed.

(** Transposition keeps the entries. *)
Lemma zip_cons_Forall (P : A -> Prop) (r : list A) (m : list (list A)) :
  Forall P r -> Forall (Forall P) m -> Forall (Forall P) (zip_cons r m).
Proof.
  intros Hr. revert m. induction Hr as [|x r Hx _ IH]; intros m Hm; cbn.
  - constructor.
  - destruct Hm as [|c m Hc Hm]; constructor; [now constructor|now apply IH].
Qed.

Lemma transpose_Forall (P : A -> Prop) (w : nat) (m : list (list A)) :
  Forall (Forall P) m -> Forall (Forall P) (transpose w m).
Proof.
  induction 1 as [|r m Hr _ IH]; cbn.
  - apply Forall_replicate. constructor.
  - now apply zip_cons_Forall.
Qed.

End Transpose.

(** *** Shape inference *)

Lemma product_cons (d : Z) (shape : list Z) : product (d :: shape) = d * product shape.
Proof. reflexivity. Qed.

Lemma product_pos (shape : list Z) : Forall (fun d => 0 < d) shape -> 0 < product shape.
Proof.
  induction 1 as [|d shape Hd _ IH]; [reflexivity|].
  rewrite product_cons. now apply Z.mul_pos_pos.
Qed.

Lemma known_product_pos (shape : list Z) :
  Forall (fun d => 0 < d) shape -> known_product shape = Ok (product shape, 0%nat).
Proof.
  induction 1 as [|d shape Hd _ IH]; [reflexivity|].
  cbn [known_product]. rewrite IH. cbn [mbind outcome_bind Outcome.bind fst snd].
  destruct (Z.eqb_spec d (-1)); [lia|].
  destruct (Z.leb_spec 0 d); [|lia]. reflexivity.
Qed.

Lemma known_product_one (pre post : list Z) :
  Forall (fun d => 0 < d) pre -> Forall (fun d => 0 < d) post ->
  known_product (pre ++ -1 :: post) = Ok (product pre * product post, 1%nat).
Proof.
  intros Hpre Hpost. induction Hpre as [|d pre Hd _ IH].
  - cbn [app known_product]. rewrite known_product_pos by assumption.
    cbn [mbind outcome_bind Outcome.bind fst snd Z.eqb].
    do 2 f_equal. change (product []) with 1. lia.
  - cbn [app known_product]. rewrite IH.
    cbn [mbind outcome_bind Outcome.bind fst snd].
    destruct (Z.eqb_spec d (-1)); [lia|].
    destruct (Z.leb_spec 0 d); [|lia].
    rewrite product_cons. do 2 f_equal. lia.
Qed.

Lemma map_infer_pos (q : Z) (shape : list Z) :
  Forall (fun d => 0 < d) shape ->
  map (fun d => if d =? -1 then q else d) shape = shape.
Proof.
  induction 1 as [|d shape Hd _ IH]; cbn [map]; [reflexivity|].
  rewrite IH. destruct (Z.eqb_spec d (-1)); [lia|reflexivity].
Qed.

(** A shape with one [-1] among positive entries, for an element count
    that is a multiple of the product of the others. *)
Lemma infer_size_one (pre post : list Z) (q n : Z) :
  Forall (fun d => 0 < d) pre -> Forall (fun d => 0 < d) post ->
  n = q * (product pre * product post) ->
  infer_size (pre ++ -1 :: post) n = Ok (pre ++ q :: post).
Proof.
  intros Hpre Hpost ->. unfold infer_size.
  rewrite known_product_one by assumption.
  cbn [mbind outcome_bind Outcome.bind fst snd].
  pose proof (product_pos pre Hpre). pose proof (product_pos post Hpost).
  assert (0 < product pre * product post) as Hp by now apply Z.mul_pos_pos.
  destruct (Z.ltb_spec 0 (product pre * product post)); [|lia].
  rewrite Z.mod_mul by lia. cbn [andb Z.eqb].
  rewrite Z.div_mul by lia.
  rewrite map_app. cbn [map Z.eqb]. rewrite !map_infer_pos by assumption.
  reflexivity.
Qed.

(** *** Exchanging the first two dimensions *)

Section Permute.
Context {A : Type}.

Lemma swapped_blocks (a b r : nat) (l : list A) :
  (0 < r)%nat -> (0 < b)%nat -> length l = (a * b * r)%nat ->
  let t := transpose b (chunks b (chunks r l)) in
  length t = b /\ uniform a t /\ uniform r (concat t) /\
  transpose a t = chunks b (chunks r l).
Proof.
  intros Hr Hb E t.
  pose proof (chunks_uniform (a * b) r l Hr E) as U1.
  pose proof (chunks_length (a * b) r l Hr E) as L1.
  pose proof (chunks_uniform a b (chunks r l) Hb L1) as U2.
  pose proof (chunks_length a b (chunks r l) Hb L1) as L2.
  pose proof (transpose_uniform b (chunks b (chunks r l))) as U3.
  rewrite L2 in U3. fold t in U3.
  pose proof (transpose_involutive b _ U2) as I. rewrite L2 in I. fold t in I.
  split; [now apply transpose_length|]. split; [assumption|]. split; [|assumption].
  unfold uniform. apply Forall_concat. apply transpose_Forall.
  rewrite <- (chunks_concat a b (chunks r l) Hb L1) in U1.
  unfold uniform in U1. now apply Forall_concat in U1.
Qed.

Lemma swapped_length (a b r : nat) (l : list A) :
  (0 < r)%nat -> (0 < b)%nat -> length l = (a * b * r)%nat ->
  length (swapped b r l) = (b * a * r)%nat.
Proof.
  intros Hr Hb E. unfold swapped.
  destruct (swapped_blocks a b r l Hr Hb E) as (L & U & UR & _).
  rewrite (concat_uniform_length r _ UR), (concat_uniform_length a _ U), L.
  reflexivity.
Qed.

(** Exchanging twice restores the element list. *)
Lemma swapped_twice (a b r : nat) (l : list A) :
  (0 < r)%nat -> (0 < a)%nat -> (0 < b)%nat -> length l = (a * b * r)%nat ->
  swapped a r (swapped b r l) = l.
Proof.
  intros Hr Ha Hb E. unfold swapped.
  destruct (swapped_blocks a b r l Hr Hb E) as (L & U & UR & I).
  rewrite (chunks_of_concat r _ Hr UR).
  rewrite (chunks_of_concat a _ Ha U).
  rewrite I.
  pose proof (chunks_length (a * b) r l Hr E) as L1.
  rewrite (chunks_concat a b _ Hb L1).
  now apply (chunks_concat (a * b) r).
Qed.

(** *** Where the blocks go *)

Lemma chunks_n_lookup {B} (n k : nat) (l : list B) (i : nat) :
  (i < n)%nat -> chunks_n n k l !! i = Some (block k i l).
Proof.
  unfold block. revert l i. induction n as [|n IH]; intros l i Hi; [lia|].
  destruct i as [|i]; cbn [chunks_n lookup list_lookup].
  - reflexivity.
  - rewrite IH by lia. rewrite drop_drop. reflexivity.
Qed.

Lemma chunks_lookup {B} (n k : nat) (l : list B) (i : nat) :
  (0 < k)%nat -> length l = (n * k)%nat -> (i < n)%nat ->
  chunks k l !! i = Some (block k i l).
Proof.
  intros Hk E Hi. unfold chunks. rewrite E, Nat.div_mul by lia.
  now apply chunks_n_lookup.
Qed.

Lemma zip_cons_lookup {B} (r : list B) (m : list (list B)) (j : nat) :
  length r = length m ->
  zip_cons r m !! j = (x ← r !! j; c ← m !! j; Some (x :: c)).
Proof.
  revert m j. induction r as [|x r IH]; intros [|c m] j; cbn; try congruence.
  - now destruct j.
  - intros [= E]. destruct j as [|j]; cbn; [reflexivity|]. now apply IH.
Qed.

Lemma transpose_lookup {B} (w : nat) (m : list (list B)) (j : nat) :
  uniform w m -> (j < w)%nat ->
  transpose w m !! j = mapM (fun row => row !! j) m.
Proof.
  intros U Hj. induction U as [|r m E U IH]; cbn [transpose mapM].
  - now apply lookup_replicate_2.
  - rewrite zip_cons_lookup by (rewrite transpose_length by assumption; congruence).
    rewrite IH. reflexivity.
Qed.

Lemma concat_uniform_lookup {B} (k : nat) (m : list (list B)) (h c : nat) :
  uniform k m -> (c < k)%nat ->
  concat m !! (h * k + c)%nat = (row ← m !! h; row !! c).
Proof.
  intros U Hc. revert h. induction U as [|row m E U IH]; intros h.
  - now destruct h.
  - destruct h as [|h]; cbn [concat lookup list_lookup mbind option_bind].
    + cbn [Nat.mul Nat.add]. apply lookup_app_l. lia.
    + rewrite lookup_app_r by lia. rewrite <- IH. f_equal. lia.
Qed.

Lemma mapM_lookup {B C} (f : B -> option C) (m : list B) (k : list C) (i : nat) :
  mapM f m = Some k -> k !! i = (x ← m !! i; f x).
Proof.
  revert k i. induction m as [|x m IH]; intros k i; cbn [mapM].
  - intros [= <-]. now destruct i.
  - destruct (f x) as [y|] eqn:Fx; [|discriminate].
    cbn [mbind option_bind].
    destruct (mapM f m) as [k'|]; [|discriminate].
    cbn [mbind option_bind mret option_ret]. intros [= <-].
    destruct i as [|i]; cbn [lookup list_lookup mbind option_bind].
    + now rewrite Fx.
    + now apply IH.
Qed.

Lemma mapM_lookup_total {B} (w : nat) (m : list (list B)) (j : nat) :
  uniform w m -> (j < w)%nat -> is_Some (mapM (fun row => row !! j) m).
Proof.
  intros U Hj. induction U as [|r m E U IH]; cbn [mapM]; [eauto|].
  destruct (lookup_lt_is_Some_2 r j) as [x ->]; [lia|].
  destruct IH as [k ->]. cbn. eauto.
Qed.

(** The block at row [i], column [j] of the [a] by [b] block matrix is the
    block at row [j], column [i] after the exchange. *)
Lemma swapped_block (a b r : nat) (l : list A) (i j : nat) :
  (0 < r)%nat -> (0 < b)%nat -> length l = (a * b * r)%nat ->
  (i < a)%nat -> (j < b)%nat ->
  block r (j * a + i) (swapped b r l) = block r (i * b + j) l.
Proof.
  intros Hr Hb E Hi Hj.
  destruct (swapped_blocks a b r l Hr Hb E) as (L & U & UR & _).
  pose proof (chunks_uniform (a * b) r l Hr E) as U1.
  pose proof (chunks_length (a * b) r l Hr E) as L1.
  pose proof (chunks_uniform a b (chunks r l) Hb L1) as U2.
  assert (S1 : chunks r (swapped b r l) !! (j * a + i)%nat
               = Some (block r (j * a + i) (swapped b r l))).
  { apply (chunks_lookup (b * a)); [assumption| |nia].
    now apply swapped_length. }
  unfold swapped in S1 at 1. rewrite (chunks_of_concat r _ Hr UR) in S1.
  rewrite (concat_uniform_lookup a _ j i U Hi) in S1.
  rewrite (transpose_lookup b _ j U2 Hj) in S1.
  destruct (mapM_lookup_total b _ j U2 Hj) as [col Hcol].
  rewrite Hcol in S1. cbn [mbind option_bind] in S1.
  rewrite (mapM_lookup _ _ _ i Hcol) in S1.
  rewrite (chunks_lookup a b (chunks r l) i Hb L1 Hi) in S1.
  cbn [mbind option_bind] in S1. unfold block at 1 in S1.
  rewrite lookup_take_lt, lookup_drop in S1 by assumption.
  rewrite (chunks_lookup (a * b) r l (i * b + j) Hr E) in S1 by nia.
  congruence.
Qed.

End Permute.

End TorchFacts.

(** ** Fused-QKV reshapes *)

Module MptFacts.
Import Mpt TorchFacts.

(** [view], [permute({1, 0, ...})], [reshape] in a row, on a tensor whose
    elements form an [a] by [b] matrix of blocks of shape [rest]. *)
Lemma view_permute_reshape (t : Tensor) (a b : Z) (rest : list Z)
      (shape_in shape_out final : list Z) :
  Forall (fun d => 0 < d) rest -> 0 < a -> 0 < b ->
  Z.of_nat (length (elems t)) = a * b * product rest ->
  infer_size shape_in (numel t) = Ok (a :: b :: rest) ->
  infer_size shape_out (product (b :: a :: rest)) = Ok final ->
  (v ← view t shape_in; p ← permute_1_0 v; reshape p shape_out) =
  Ok {| sizes := final;
        elems := swapped (Z.to_nat b) (Z.to_nat (product rest)) (elems t) |}.
Proof.
  intros Hrest Ha Hb E Hin Hout. unfold view at 1. rewrite Hin.
  cbn [mbind outcome_bind Outcome.bind]. unfold permute_1_0. cbn [sizes elems].
  cbn [mbind outcome_bind Outcome.bind].
  unfold reshape, view, numel. cbn [sizes elems]. rewrite Hout. reflexivity.
Qed.

(** Decide the dimension tests of the reshapes on a concrete shape. *)
Ltac reduce_dim :=
  cbn [sizes length];
  change (Z.of_nat 2) with 2; change (Z.of_nat 1) with 1;
  change (2 =? 2) with true; change (1 =? 2) with false;
  change (1 =? 1) with true;
  cbn [orb CHECK mbind outcome_bind Outcome.bind].

(** C7.  On a fused weight of shape [[3 * n_heads * head_dim, hidden_size]]
    and on a fused bias of shape [[3 * n_heads * head_dim]], the reshape
    before sharding succeeds, keeps the shape, and moves the block of
    projection [c] and head [h] from position [c * n_heads + h] to position
    [h * 3 + c], that is from the [[3, n_heads, ...]] to the [[n_heads, 3,
    ...]] layout; the reshape after sharding applied to its result gives
    back the original tensor. *)
Theorem reshape_qkv_round_trip (self : MPTAttention) (n_heads : Z) (t : Tensor) :
  0 < n_heads -> 0 < head_dim_ self -> 0 < hidden_size_ self ->
  Z.of_nat (length (elems t)) = numel t ->
  sizes t = fused_weight_shape self n_heads \/ sizes t = fused_bias_shape self n_heads ->
  exists t' : Tensor,
    reshape_qkv_before_sharding self t = Ok t' /\
    sizes t' = sizes t /\
    (forall c h : nat, (c < 3)%nat -> (h < Z.to_nat n_heads)%nat ->
       block (block_elems self t) (h * 3 + c) (elems t')
       = block (block_elems self t) (c * Z.to_nat n_heads + h) (elems t)) /\
    reshape_qkv_after_sharding self t' = Ok t.
Proof.
  intros Hn Hd Hs HL Hshape.
  destruct t as [sz el]. cbn [sizes elems] in *.
  unfold reshape_qkv_before_sharding, reshape_qkv_after_sharding, block_elems, dim.
  unfold numel in HL. cbn [sizes] in HL.
  destruct Hshape as [-> | ->];
    unfold fused_weight_shape, fused_bias_shape in *;
    reduce_dim;
    rewrite !product_cons in HL; change (product []) with 1 in HL.
  - (* the weight *)
    set (hd := head_dim_ self) in *. set (hs := hidden_size_ self) in *.
    assert (Hrest : Forall (fun d => 0 < d) [hd; hs]) by (repeat constructor; assumption).
    assert (Hhs : Forall (fun d => 0 < d) [hs]) by (repeat constructor; assumption).
    assert (Hp : product [hd; hs] = hd * hs)
      by (rewrite !product_cons; change (product []) with 1; lia).
    rewrite (view_permute_reshape _ 3 n_heads [hd; hs] _ _ [3 * n_heads * hd; hs]
               Hrest ltac:(lia) Hn).
    2:{ cbn [elems]. rewrite Hp. lia. }
    2:{ unfold numel. cbn [sizes]. apply (infer_size_one [3] [hd; hs] n_heads).
        - repeat constructor.
        - assumption.
        - rewrite !product_cons. change (product []) with 1. lia. }
    2:{ apply (infer_size_one [] [hs] (3 * n_heads * hd)).
        - constructor.
        - assumption.
        - rewrite !product_cons. change (product []) with 1. lia. }
    cbn [elems]. rewrite Hp.
    assert (EL : length el = (3 * Z.to_nat n_heads * Z.to_nat (hd * hs))%nat) by nia.
    assert (Hr : (0 < Z.to_nat (hd * hs))%nat) by nia.
    eexists. split; [reflexivity|]. cbn [sizes elems]. split; [reflexivity|]. split.
    { intros c h Hc Hh.
      now apply (swapped_block 3 (Z.to_nat n_heads) _ el c h Hr ltac:(lia) EL). }
    reduce_dim.
    rewrite (view_permute_reshape _ n_heads 3 [hd; hs] _ _ [3 * n_heads * hd; hs]
               Hrest Hn ltac:(lia)).
    + cbn [elems]. rewrite Hp. change (Z.to_nat 3) with 3%nat.
      rewrite (swapped_twice 3 (Z.to_nat n_heads)) by (assumption || lia).
      reflexivity.
    + cbn [elems]. rewrite Hp.
      rewrite (swapped_length 3 (Z.to_nat n_heads)) by (assumption || lia). nia.
    + unfold numel. cbn [sizes]. apply (infer_size_one [] [3; hd; hs] n_heads).
      * constructor.
      * repeat constructor; assumption.
      * rewrite !product_cons. change (product []) with 1. lia.
    + apply (infer_size_one [] [hs] (3 * n_heads * hd)).
      * constructor.
      * assumption.
      * rewrite !product_cons. change (product []) with 1. lia.
  - (* the bias *)
    set (hd := head_dim_ self) in *.
    assert (Hrest : Forall (fun d => 0 < d) [hd]) by (repeat constructor; assumption).
    assert (Hp : product [hd] = hd)
      by (rewrite !product_cons; change (product []) with 1; lia).
    rewrite (view_permute_reshape _ 3 n_heads [hd] _ _ [3 * n_heads * hd]
               Hrest ltac:(lia) Hn).
    2:{ cbn [elems]. rewrite Hp. lia. }
    2:{ unfold numel. cbn [sizes]. apply (infer_size_one [3] [hd] n_heads).
        - repeat constructor.
        - assumption.
        - rewrite !product_cons. change (product []) with 1. lia. }
    2:{ apply (infer_size_one [] [] (3 * n_heads * hd)).
        - constructor.
        - constructor.
        - rewrite !product_cons. change (product []) with 1. lia. }
    cbn [elems]. rewrite Hp.
    assert (EL : length el = (3 * Z.to_nat n_heads * Z.to_nat hd)%nat) by nia.
    assert (Hr : (0 < Z.to_nat hd)%nat) by lia.
    eexists. split; [reflexivity|]. cbn [sizes elems]. split; [reflexivity|]. split.
    { intros c h Hc Hh.
      now apply (swapped_block 3 (Z.to_nat n_heads) _ el c h Hr ltac:(lia) EL). }
    reduce_dim.
    rewrite (view_permute_reshape _ n_heads 3 [hd] _ _ [3 * n_heads * hd]
               Hrest Hn ltac:(lia)).
    + cbn [elems]. rewrite Hp. change (Z.to_nat 3) with 3%nat.
      rewrite (swapped_twice 3 (Z.to_nat n_heads)) by (assumption || lia).
      reflexivity.
    + cbn [elems]. rewrite Hp.
      rewrite (swapped_length 3 (Z.to_nat n_heads)) by (assumption || lia). nia.
    + unfold numel. cbn [sizes]. apply (infer_size_one [] [3; hd] n_heads).
      * constructor.
      * repeat constructor; assumption.
      * rewrite !product_cons. change (product []) with 1. lia.
    + apply (infer_size_one [] [] (3 * n_heads * hd)).
      * constructor.
      * constructor.
      * rewrite !product_cons. change (product []) with 1. lia.
Qed.

(** Two heads of dimension one, hidden size two: the rows (q0, q1, k0, k1,
    v0, v1) become (q0, k0, v0, q1, k1, v1) and come back. *)
Lemma reshape_qkv_round_trip_witness :
  reshape_qkv_before_sharding Examples.small_attention Examples.small_wqkv
  = Ok {| sizes := [6; 2]; elems := [0; 1; 4; 5; 8; 9; 2; 3; 6; 7; 10; 11] |} /\
  (t ← reshape_qkv_before_sharding Examples.small_attention Examples.small_wqkv;
   reshape_qkv_after_sharding Examples.small_attention t)
  = Ok Examples.small_wqkv.
Proof.
  split; [reflexivity|].
  destruct (reshape_qkv_round_trip Examples.small_attention 2 Examples.small_wqkv
              eq_refl eq_refl eq_refl eq_refl (or_introl eq_refl))
    as (t' & HB & _ & _ & HA).
  rewrite HB. exact HA.
Defined.

End MptFacts.

(** ** Fused weight loading *)

Module LinearFacts.
Import Linear.

Lemma forallb_defined_omap (wl : list (option Tensor)) :
  forallb defined wl = true -> map Some (omap id wl) = wl.
Proof.
  induction wl as [|[t|] wl IH]; cbn; [reflexivity| |discriminate].
  intros E. now rewrite IH.
Qed.

Lemma omap_id_Some (ts : list Tensor) : omap id (map Some ts) = ts.
Proof. induction ts as [|t ts IH]; cbn; [reflexivity|]. now rewrite IH. Qed.

Lemma forallb_defined_Some (ts : list Tensor) : forallb defined (map Some ts) = true.
Proof. induction ts as [|t ts IH]; cbn; [reflexivity|assumption]. Qed.

Lemma forallb_defined_false (wl : list (option Tensor)) :
  In None wl -> forallb defined wl = false.
Proof.
  induction wl as [|[t|] wl IH]; cbn; [tauto| |reflexivity].
  intros [E|E]; [discriminate|now apply IH].
Qed.

Lemma cat0_elems (ts : list Tensor) (merged : Tensor) :
  cat0 ts = Ok merged -> elems merged = concat (map elems ts).
Proof.
  unfold cat0. destruct ts as [|t0 ts]; [discriminate|].
  destruct (sizes t0); [discriminate|].
  destruct (forallb _ _); [|discriminate].
  now intros [= <-].
Qed.

(** What [load_weights] can return. *)
Lemma load_weights_inv (wl wl' : list (option Tensor)) (w w' : Tensor) (loaded : bool) :
  load_weights wl w = Ok (loaded, wl', w') ->
  (loaded = false /\ wl' = wl /\ w' = w /\ forallb defined wl = false) \/
  (loaded = true /\ wl' = [] /\ forallb defined wl = true).
Proof.
  unfold load_weights. destruct (forallb defined wl); cbn [negb].
  - destruct (cat0 _) as [m|]; [|discriminate].
    cbn [mbind outcome_bind Outcome.bind]. unfold CHECK.
    case_bool_decide; [|discriminate].
    cbn [mbind outcome_bind Outcome.bind]. intros [= <- <- <-]. right. auto.
  - intros [= <- <- <-]. left. auto.
Qed.

Section WithStateDict.
Context `{StateDictOps}.

Lemma seen_mono (self : ColumnParallelLinearImpl) (sds sds' : list StateDict)
      (prefix : string) :
  (forall sd, In sd sds -> In sd sds') ->
  seen self sds prefix -> seen self sds' prefix.
Proof. intros Hsub (sd & Hin & Hd). exists sd. auto. Qed.

(** The loop over the prefixes keeps the length of the list, and every
    defined slot was defined before or comes from the shard file. *)
Lemma collect_shards_inv (self : ColumnParallelLinearImpl) (sd : StateDict)
      (prefixes : list string) (i0 : nat) (wl wl' : list (option Tensor)) :
  collect_shards self sd i0 prefixes wl = Ok wl' ->
  length wl' = length wl /\
  forall (i : nat) (t : Tensor),
    wl' !! i = Some (Some t) ->
    wl !! i = Some (Some t) \/
    exists prefix, prefixes !! (i - i0)%nat = Some prefix /\ (i0 <= i)%nat /\
      get_sharded_tensor sd (prefix +:+ "weight") 0 (rank self) (world_size self)
      = Some t.
Proof.
  revert i0 wl. induction prefixes as [|prefix rest IH]; intros i0 wl; cbn [collect_shards].
  - intros [= <-]. split; [reflexivity|]. auto.
  - destruct (get_sharded_tensor sd _ 0 _ _) as [weight|] eqn:G.
    + destruct (wl !! i0) as [slot|] eqn:Hslot;
        cbn [mbind outcome_bind Outcome.bind]; [|discriminate].
      unfold CHECK. destruct (defined slot); cbn [negb]; [discriminate|].
      cbn [mbind outcome_bind Outcome.bind]. intros E.
      apply IH in E as [L E]. rewrite length_insert in L. split; [assumption|].
      intros i t Hi. destruct (E i t Hi) as [Hold|(p & Hp & Hle & Hg)].
      * destruct (decide (i = i0)) as [->|N].
        -- rewrite list_lookup_insert_eq in Hold
             by (now apply lookup_lt_Some in Hslot).
           injection Hold as ->. right. exists prefix.
           rewrite Nat.sub_diag. auto.
        -- rewrite list_lookup_insert_ne in Hold by congruence. auto.
      * right. exists p. replace (i - i0)%nat with (S (i - S i0)) by lia.
        split; [assumption|]. split; [lia|assumption].
    + intros E. apply IH in E as [L E]. split; [assumption|].
      intros i t Hi. destruct (E i t Hi) as [Hold|(p & Hp & Hle & Hg)]; [auto|].
      right. exists p. replace (i - i0)%nat with (S (i - S i0)) by lia.
      split; [assumption|]. split; [lia|assumption].
Qed.

Lemma resize_to_lookup (n : nat) (wl : list (option Tensor)) (i : nat) (t : Tensor) :
  resize_to n wl !! i = Some (Some t) -> wl !! i = Some (Some t).
Proof.
  unfold resize_to. destruct (length wl <? n)%nat; [|auto].
  intros E. apply lookup_app_Some in E as [E|[_ E]]; [assumption|].
  apply lookup_replicate_1 in E as [E _]. discriminate.
Qed.

Lemma resize_to_length (n : nat) (wl : list (option Tensor)) :
  (n <= length (resize_to n wl))%nat.
Proof.
  unfold resize_to. destruct (Nat.ltb_spec (length wl) n); [|assumption].
  rewrite length_app, length_replicate. lia.
Qed.

Lemma forallb_defined_lookup (wl : list (option Tensor)) (i : nat) :
  forallb defined wl = true -> (i < length wl)%nat ->
  exists t, wl !! i = Some (Some t).
Proof.
  revert i. induction wl as [|[t|] wl IH]; intros i; cbn; try (intros; lia || discriminate).
  intros E Hi. destruct i as [|i]; cbn; [eauto|]. apply IH; [assumption|lia].
Qed.

(** One call keeps the rank data and the consistency with the shard files
    processed. *)
Lemma load_state_dict_fused_consistent (self self' : ColumnParallelLinearImpl)
      (sd : StateDict) (prefixes : list string) (processed : list StateDict) :
  consistent self prefixes processed ->
  load_state_dict_fused self sd prefixes = Ok self' ->
  rank self' = rank self /\ world_size self' = world_size self /\
  consistent self' prefixes (sd :: processed).
Proof.
  intros [I1 I2]. unfold load_state_dict_fused.
  destruct (collect_shards self sd 0 prefixes _) as [wl1|] eqn:C;
    cbn [mbind outcome_bind Outcome.bind]; [|discriminate].
  destruct (load_weights wl1 (weight_ self)) as [[[loaded wl2] w2]|] eqn:LW;
    cbn [mbind outcome_bind Outcome.bind]; [|discriminate].
  intros [= <-]. cbn [rank world_size].
  split; [reflexivity|]. split; [reflexivity|].
  apply collect_shards_inv in C as [L C].
  assert (J1 : forall i t, wl1 !! i = Some (Some t) ->
               exists prefix, prefixes !! i = Some prefix /\
                              seen self (sd :: processed) prefix).
  { intros i t Hi. destruct (C i t Hi) as [Hold|(p & Hp & _ & Hg)].
    - apply resize_to_lookup in Hold. destruct (I1 i t Hold) as (p & Hp & Hs).
      exists p. split; [assumption|].
      eapply seen_mono; [|exact Hs]. intros x Hx. now right.
    - exists p. rewrite Nat.sub_0_r in Hp. split; [assumption|].
      exists sd. split; [now left|]. congruence. }
  apply load_weights_inv in LW
    as [(-> & -> & -> & _)|(-> & -> & All)];
    split; cbn [weight_list_ is_loaded_ rank world_size].
  - intros i t Hi. destruct (J1 i t Hi) as (p & Hp & sd' & Hin & Hd).
    exists p. split; [assumption|]. exists sd'. auto.
  - intros E prefix Hp. specialize (I2 E prefix Hp).
    destruct I2 as (sd' & Hin & Hd). exists sd'. split; [now right|assumption].
  - intros i t Hi. now destruct i.
  - intros _ prefix Hp. apply list_elem_of_In, list_elem_of_lookup in Hp as [i Hi].
    assert (i < length wl1)%nat as Hlt.
    { rewrite L. pose proof (resize_to_length (length prefixes) (weight_list_ self)).
      apply lookup_lt_Some in Hi. lia. }
    destruct (forallb_defined_lookup wl1 i All Hlt) as [t Ht].
    destruct (J1 i t Ht) as (p & Hp' & sd' & Hin & Hd).
    assert (p = prefix) by congruence. subst p.
    exists sd'. auto.
Qed.

Lemma load_all_consistent (sds : list StateDict) :
  forall (self self' : ColumnParallelLinearImpl) (prefixes : list string)
         (processed : list StateDict),
    consistent self prefixes processed ->
    load_all self sds prefixes = Ok self' ->
    consistent self' prefixes (sds ++ processed).
Proof.
  induction sds as [|sd sds IH]; intros self self' prefixes processed I;
    cbn [load_all app].
  - now intros [= <-].
  - destruct (load_state_dict_fused self sd prefixes) as [self1|] eqn:E;
      cbn [mbind outcome_bind Outcome.bind]; [|discriminate].
    intros E'.
    destruct (load_state_dict_fused_consistent _ _ _ _ _ I E) as (R & W & I').
    pose proof (IH _ _ _ _ I' E') as [J1 J2].
    assert (Sub : forall prefix, seen self' (sds ++ sd :: processed) prefix ->
                                 seen self' (sd :: sds ++ processed) prefix).
    { intros prefix. apply seen_mono. intros x Hx.
      apply in_app_or in Hx as [Hx|[Hx|Hx]]; cbn; rewrite in_app_iff; auto. }
    split.
    + intros i t Hi. destruct (J1 i t Hi) as (p & Hp & Hs). eauto.
    + intros L prefix Hp. auto.
Qed.

(** C9.  [load_weights] returns false and leaves the shard list and the
    registered weight as they are while a shard is undefined; with every
    shard defined, concatenable and of the registered shape, it returns
    true, clears the list, and the registered weight holds the shards'
    elements one after the other.  A fresh layer fed any sequence of shard
    files is marked loaded only if every prefix had its weight in one of
    them; and a call that does not complete the list leaves the weight and
    the flag unchanged. *)
Theorem fused_loading_all_or_nothing :
  (forall (weight_list : list (option Tensor)) (weight : Tensor),
      In None weight_list ->
      load_weights weight_list weight = Ok (false, weight_list, weight)) /\
  (forall (shards : list Tensor) (weight merged : Tensor),
      cat0 shards = Ok merged ->
      sizes weight = sizes merged ->
      load_weights (map Some shards) weight = Ok (true, [], merged) /\
      elems merged = concat (map elems shards)) /\
  (forall (self self' : ColumnParallelLinearImpl) (state_dicts : list StateDict)
          (prefixes : list string),
      fresh self ->
      load_all self state_dicts prefixes = Ok self' ->
      is_loaded_ self' = true ->
      forall prefix, In prefix prefixes -> seen self' state_dicts prefix) /\
  (forall (self self' : ColumnParallelLinearImpl) (sd : StateDict)
          (prefixes : list string),
      load_state_dict_fused self sd prefixes = Ok self' ->
      (weight_ self' = weight_ self /\ is_loaded_ self' = is_loaded_ self /\
       In None (weight_list_ self')) \/
      (is_loaded_ self' = true /\ weight_list_ self' = [])).
Proof.
  repeat apply conj.
  - intros wl w Hin. unfold load_weights.
    now rewrite (forallb_defined_false wl Hin).
  - intros ts w merged Hcat Hsz. split; [|now apply cat0_elems].
    unfold load_weights. rewrite forallb_defined_Some, omap_id_Some, Hcat.
    cbn [negb mbind outcome_bind Outcome.bind]. unfold CHECK.
    rewrite bool_decide_eq_true_2 by assumption.
    cbn [mbind outcome_bind Outcome.bind]. unfold copy_. rewrite Hsz.
    now destruct merged.
  - intros self self' sds prefixes [F1 F2] E L prefix Hp.
    assert (I : consistent self prefixes []).
    { split; [rewrite F1; intros i t Hi; now destruct i|congruence]. }
    pose proof (load_all_consistent sds self self' prefixes [] I E) as [_ J2].
    rewrite app_nil_r in J2. auto.
  - intros self self' sd prefixes. unfold load_state_dict_fused.
    destruct (collect_shards self sd 0 prefixes _) as [wl1|];
      cbn [mbind outcome_bind Outcome.bind]; [|discriminate].
    destruct (load_weights wl1 (weight_ self)) as [[[loaded wl2] w2]|] eqn:LW;
      cbn [mbind outcome_bind Outcome.bind]; [|discriminate].
    intros [= <-]. cbn [weight_ is_loaded_ weight_list_].
    apply load_weights_inv in LW as [(-> & -> & -> & N)|(-> & -> & _)].
    + left. repeat split.
      clear - N. induction wl1 as [|[t|] wl IH]; cbn in *;
        [discriminate|right; auto|left; reflexivity].
    + right. auto.
Qed.

End WithStateDict.

End LinearFacts.


(** ** The bring-up protocol *)

Module ProtocolFacts.
Import Engine Protocol EngineFacts.

Section WithCollaborators.
Context `{Collaborators}.

Lemma appended_nil (s : State) : appended s [] = s.
Proof. destruct s. unfold appended. cbn. now rewrite app_nil_r. Qed.

Lemma appended_appended (s : State) (a b : list event) :
  appended (appended s a) b = appended s (a ++ b).
Proof. unfold appended. cbn. now rewrite app_assoc. Qed.

(** Unfold the monad operations of an engine method applied to a state. *)
Ltac run_m :=
  unfold mbind, mret, M_bind, M_ret, bindM, ret, lift, get, emit, modify in *;
  cbn [engine trace fst snd devices_ workers_ tokenizer_ args_ dtype_
         block_manager_ set_tokenizer set_args set_dtype] in *.

Lemma load_blocking_cons (w : Worker) (sd : StateDict) (sds : list StateDict)
      (s : State) :
  load_blocking w (sd :: sds) s =
  match worker_load_state_dict w sd with
  | Ok _ => load_blocking w sds (appended s [Blocking 0 (LoadStateDict sd)])
  | Err err => (Err err, appended s [Blocking 0 (LoadStateDict sd)])
  end.
Proof.
  cbn [load_blocking].
  unfold mbind at 1, M_bind at 1, bindM at 1, emit at 1.
  unfold mbind at 1, M_bind at 1, bindM at 1, lift at 1.
  fold (appended s [Blocking 0 (LoadStateDict sd)]).
  destruct (worker_load_state_dict w sd); reflexivity.
Qed.

(** The single worker loads the shards in order and stops at the first one
    that throws. *)
Lemma load_blocking_spec (w : Worker) (sds : list StateDict) (s : State) :
  (Forall (fun sd => worker_load_state_dict w sd = Ok tt) sds /\
   load_blocking w sds s = (Ok tt, appended s (blocking_loads sds))) \/
  (exists pre sd post err,
      sds = pre ++ sd :: post /\
      Forall (fun sd => worker_load_state_dict w sd = Ok tt) pre /\
      worker_load_state_dict w sd = Err err /\
      load_blocking w sds s = (Err err, appended s (blocking_loads (pre ++ [sd])))).
Proof.
  revert s. induction sds as [|sd sds IH]; intros s.
  - left. split; [constructor|]. cbn. unfold ret. now rewrite appended_nil.
  - rewrite load_blocking_cons.
    destruct (worker_load_state_dict w sd) as [[]|err] eqn:E.
    + destruct (IH (appended s [Blocking 0 (LoadStateDict sd)]))
        as [[F R]|(pre & sd' & post & err & -> & F & E' & R)].
      * left. split; [now constructor|].
        rewrite R, appended_appended. reflexivity.
      * right. exists (sd :: pre), sd', post, err.
        split; [reflexivity|]. split; [now constructor|]. split; [assumption|].
        cbn [app]. rewrite R, appended_appended. reflexivity.
    + right. exists [], sd, sds, err. split; [reflexivity|]. split; [constructor|].
      split; [assumption|reflexivity].
Qed.

Lemma for_workers_lift_cons {A} (ev : nat -> Worker -> event)
      (g : Worker -> outcome A) (w : Worker) (ws : list Worker) (i : nat) (s : State) :
  for_workers (fun rank w => emit (ev rank w);; lift (g w)) i (w :: ws) s =
  match g w with
  | Ok a =>
      match for_workers (fun rank w => emit (ev rank w);; lift (g w)) (S i) ws
                        (appended s [ev i w]) with
      | (Ok rest, s') => (Ok (a :: rest), s')
      | (Err err, s') => (Err err, s')
      end
  | Err err => (Err err, appended s [ev i w])
  end.
Proof.
  cbn [for_workers].
  unfold mbind at 1, M_bind at 1, bindM at 1.
  unfold mbind at 1, M_bind at 1, bindM at 1, emit at 1, lift at 1.
  fold (appended s [ev i w]).
  destruct (g w); [|reflexivity].
  unfold mbind at 1, M_bind at 1, bindM at 1.
  destruct (for_workers _ (S i) ws _) as [[rest|err] s']; reflexivity.
Qed.

Lemma imap_cons_shift {A} (f : nat -> Worker -> A) (i : nat) (w : Worker)
      (ws : list Worker) :
  imap (fun j x => f (i + j)%nat x) (w :: ws)
  = f i w :: imap (fun j x => f (S i + j)%nat x) ws.
Proof.
  cbn [imap]. rewrite Nat.add_0_r. f_equal.
  apply imap_ext. intros j x _. cbn. f_equal. lia.
Qed.

(** A fan-out whose per-worker action emits one event and lifts a result:
    it stops at the first worker whose result is an error. *)
Lemma for_workers_lift_spec {A} (ev : nat -> Worker -> event)
      (g : Worker -> outcome A) (ws : list Worker) (i : nat) (s : State) :
  (exists results,
      Forall2 (fun w a => g w = Ok a) ws results /\
      for_workers (fun rank w => emit (ev rank w);; lift (g w)) i ws s =
      (Ok results, appended s (imap (fun j w => ev (i + j)%nat w) ws))) \/
  (exists pre w post err,
      ws = pre ++ w :: post /\
      Forall (fun w => is_ok (g w) = true) pre /\
      g w = Err err /\
      for_workers (fun rank w => emit (ev rank w);; lift (g w)) i ws s =
      (Err err, appended s (imap (fun j w => ev (i + j)%nat w) (pre ++ [w])))).
Proof.
  revert i s. induction ws as [|w ws IH]; intros i s.
  - left. exists []. split; [constructor|]. cbn. unfold ret. now rewrite appended_nil.
  - destruct (g w) as [a|err] eqn:E.
    + destruct (IH (S i) (appended s [ev i w]))
        as [(results & F & R)|(pre & w' & post & err & -> & F & E' & R)].
      * left. exists (a :: results). split; [now constructor|].
        rewrite for_workers_lift_cons, E, R, appended_appended, imap_cons_shift.
        reflexivity.
      * right. exists (w :: pre), w', post, err.
        split; [reflexivity|]. split; [constructor; [now rewrite E|assumption]|].
        split; [assumption|].
        cbn [app]. rewrite for_workers_lift_cons, E, R, appended_appended.
        rewrite imap_cons_shift. reflexivity.
    + right. exists [], w, ws, err. split; [reflexivity|]. split; [constructor|].
      split; [assumption|].
      rewrite for_workers_lift_cons, E. cbn [app imap]. now rewrite Nat.add_0_r.
Qed.

Lemma forallb_of_map {A B} (f : B -> bool) (g : A -> B) (l : list A) :
  forallb f (map g l) = forallb (fun x => f (g x)) l.
Proof. induction l as [|x l IH]; cbn; [reflexivity|]. now rewrite IH. Qed.

Lemma load_parallel_cons (ws : list Worker) (sd : StateDict) (sds : list StateDict)
      (s : State) :
  load_parallel ws (sd :: sds) s =
  if forallb (fun w => is_ok (worker_load_state_dict w sd)) ws
  then load_parallel ws sds (appended s (load_round ws sd))
  else (Ok false, appended s (load_round ws sd)).
Proof.
  cbn [load_parallel].
  unfold mbind at 1, M_bind at 1, bindM at 1.
  rewrite (for_workers_pure (fun rank _ => Async rank (LoadStateDict sd))
                            (fun w => worker_load_state_dict w sd)).
  unfold mbind at 1, M_bind at 1, bindM at 1, emit at 1.
  cbn [engine trace]. rewrite length_map, <- app_assoc.
  rewrite forallb_of_map. unfold appended, load_round.
  destruct (forallb _ ws); reflexivity.
Qed.

Lemma forallb_false_Exists {A} (f : A -> bool) (l : list A) :
  forallb f l = false -> Exists (fun x => f x = false) l.
Proof.
  induction l as [|x l IH]; cbn; [discriminate|].
  destruct (f x) eqn:E; cbn.
  - intros F. right. now apply IH.
  - intros _. now left.
Qed.

Lemma forallb_true_Forall {A} (f : A -> bool) (l : list A) :
  forallb f l = true -> Forall (fun x => f x = true) l.
Proof.
  induction l as [|x l IH]; cbn; [constructor|].
  intros E. apply andb_prop in E as [E1 E2]. constructor; auto.
Qed.

(** Every shard goes to all the workers, round by round, until a round in
    which some worker throws. *)
Lemma load_parallel_spec (ws : list Worker) (sds : list StateDict) (s : State) :
  (Forall (fun sd => Forall (fun w => is_ok (worker_load_state_dict w sd) = true) ws) sds /\
   load_parallel ws sds s = (Ok true, appended s (load_rounds ws sds))) \/
  (exists pre sd post,
      sds = pre ++ sd :: post /\
      Forall (fun sd => Forall (fun w => is_ok (worker_load_state_dict w sd) = true) ws) pre /\
      Exists (fun w => is_ok (worker_load_state_dict w sd) = false) ws /\
      load_parallel ws sds s = (Ok false, appended s (load_rounds ws (pre ++ [sd])))).
Proof.
  revert s. induction sds as [|sd sds IH]; intros s.
  - left. split; [constructor|]. cbn. unfold ret. now rewrite appended_nil.
  - destruct (forallb (fun w => is_ok (worker_load_state_dict w sd)) ws) eqn:All.
    + pose proof (forallb_true_Forall _ _ All) as Fsd.
      destruct (IH (appended s (load_round ws sd)))
        as [[F R]|(pre & sd' & post & -> & F & E' & R)].
      * left. split; [now constructor|].
        rewrite load_parallel_cons, All, R, appended_appended. reflexivity.
      * right. exists (sd :: pre), sd', post.
        split; [reflexivity|]. split; [now constructor|]. split; [assumption|].
        cbn [app]. rewrite load_parallel_cons, All, R, appended_appended.
        reflexivity.
    + right. exists [], sd, sds. split; [reflexivity|]. split; [constructor|].
      split; [now apply forallb_false_Exists in All|].
      rewrite load_parallel_cons, All. unfold load_rounds. cbn.
      now rewrite app_nil_r.
Qed.

(** *** Calls per worker *)

Lemma calls_to_app (rank : nat) (a b : list event) :
  calls_to rank (a ++ b) = calls_to rank a ++ calls_to rank b.
Proof. unfold calls_to. apply omap_app. Qed.

Lemma calls_to_imap (mk : nat -> call -> event) (c : call) (ws : list Worker)
      (i rank : nat) :
  (forall r, mk r c = Blocking r c) \/ (forall r, mk r c = Async r c) ->
  calls_to rank (imap (fun j _ => mk (i + j)%nat c) ws) =
  if bool_decide (i <= rank < i + length ws)%nat then [c] else [].
Proof.
  intros Hmk. revert i. induction ws as [|w ws IH]; intros i.
  - cbn. case_bool_decide; [lia|reflexivity].
  - rewrite (imap_cons_shift (fun r _ => mk r c)).
    unfold calls_to in *. cbn [omap list_omap]. rewrite (IH (S i)).
    cbn [length].
    assert (E : match mk i c with
                | Blocking r c' | Async r c' => if Nat.eqb r rank then Some c' else None
                | _ => None
                end = if Nat.eqb i rank then Some c else None)
      by (destruct Hmk as [-> | ->]; reflexivity).
    rewrite E. clear E. destruct (Nat.eqb_spec i rank) as [Heq|N];
      repeat case_bool_decide; try lia; reflexivity.
Qed.

Lemma calls_to_round (mk : nat -> call -> event) (c : call) (ws : list Worker)
      (rank : nat) :
  (forall r, mk r c = Blocking r c) \/ (forall r, mk r c = Async r c) ->
  (rank < length ws)%nat ->
  calls_to rank (imap (fun j _ => mk j c) ws) = [c].
Proof.
  intros Hmk Hr. pose proof (calls_to_imap mk c ws 0 rank Hmk) as E.
  cbn [Nat.add] in E. rewrite E. case_bool_decide; [reflexivity|lia].
Qed.

Lemma calls_to_load_round (ws : list Worker) (sd : StateDict) (rank : nat) :
  (rank < length ws)%nat ->
  calls_to rank (load_round ws sd) = [LoadStateDict sd].
Proof.
  intros Hr. unfold load_round. rewrite calls_to_app.
  rewrite (calls_to_round (fun r c => Async r c)) by auto. reflexivity.
Qed.

Lemma calls_to_load_rounds (ws : list Worker) (sds : list StateDict) (rank : nat) :
  (rank < length ws)%nat ->
  calls_to rank (load_rounds ws sds) = map LoadStateDict sds.
Proof.
  intros Hr. unfold load_rounds.
  induction sds as [|sd sds IH]; cbn [map concat]; [reflexivity|].
  rewrite calls_to_app, calls_to_load_round, IH by assumption. reflexivity.
Qed.

Lemma calls_to_blocking_loads (sds : list StateDict) :
  calls_to 0 (blocking_loads sds) = map LoadStateDict sds.
Proof.
  induction sds as [|sd sds IH]; [reflexivity|].
  unfold blocking_loads, calls_to in *. cbn. now rewrite IH.
Qed.

Lemma calls_to_verify_calls (ws : list Worker) (rank : nat) :
  (rank < length ws)%nat ->
  calls_to rank (verify_calls ws) = [VerifyLoadedWeights].
Proof.
  intros Hr. unfold verify_calls.
  now rewrite (calls_to_round (fun r c => Blocking r c)) by auto.
Qed.

(** *** [init_workers], case by case *)

(** The single-worker branch. *)
Lemma init_workers_single (e : EngineData) (w : Worker) (dt : ScalarType)
      (args : ModelArgs) (q : QuantizationArgs) (sds : list StateDict) (s : State) :
  workers_ e = [w] ->
  init_workers e dt args q sds s =
  let s0 := appended s [Blocking 0 (InitModel dt args q)] in
  if worker_init_model w dt args q then
    match load_blocking w sds s0 with
    | (Ok _, s1) =>
        match worker_verify_loaded_weights w sds with
        | Ok _ => (Ok true, appended s1 [Blocking 0 VerifyLoadedWeights])
        | Err err => (Err err, appended s1 [Blocking 0 VerifyLoadedWeights])
        end
    | (Err err, s1) => (Err err, s1)
    end
  else (Ok false, s0).
Proof.
  intros HW. unfold init_workers. rewrite HW. cbn [length Nat.eqb front].
  unfold mbind at 1, M_bind at 1, bindM at 1, lift at 1.
  unfold mbind at 1, M_bind at 1, bindM at 1, emit at 1.
  fold (appended s [Blocking 0 (InitModel dt args q)]). cbn zeta.
  destruct (worker_init_model w dt args q); cbn [negb]; [|reflexivity].
  unfold mbind at 1, M_bind at 1, bindM at 1.
  destruct (load_blocking w sds _) as [[[]|err] s1]; [|reflexivity].
  unfold mbind at 1, M_bind at 1, bindM at 1, emit at 1.
  unfold mbind at 1, M_bind at 1, bindM at 1, lift at 1.
  fold (appended s1 [Blocking 0 VerifyLoadedWeights]).
  destruct (worker_verify_loaded_weights w sds) as [[]|err]; reflexivity.
Qed.

(** The branch for any other number of workers. *)
Lemma init_workers_parallel (e : EngineData) (dt : ScalarType)
      (args : ModelArgs) (q : QuantizationArgs) (sds : list StateDict) (s : State) :
  length (workers_ e) <> 1%nat ->
  init_workers e dt args q sds s =
  let ws := workers_ e in
  let s0 := appended s (imap (fun rank _ => Async rank (InitModel dt args q)) ws
                        ++ [CollectAll (length ws)]) in
  if forallb (fun w => worker_init_model w dt args q) ws then
    match load_parallel ws sds s0 with
    | (Ok true, s1) =>
        match for_workers
                (fun rank w =>
                   emit (Blocking rank VerifyLoadedWeights);;
                   lift (worker_verify_loaded_weights w sds)) 0%nat ws s1 with
        | (Ok _, s2) => (Ok true, s2)
        | (Err err, s2) => (Err err, s2)
        end
    | (Ok false, s1) => (Ok false, s1)
    | (Err err, s1) => (Err err, s1)
    end
  else (Ok false, s0).
Proof.
  intros HW. unfold init_workers.
  destruct (Nat.eqb_spec (length (workers_ e)) 1) as [E|_]; [contradiction|].
  unfold mbind at 1, M_bind at 1, bindM at 1.
  rewrite (for_workers_pure (fun rank _ => Async rank (InitModel dt args q))
                            (fun w => worker_init_model w dt args q)).
  unfold mbind at 1, M_bind at 1, bindM at 1, emit at 1.
  cbn [engine trace]. rewrite length_map, <- app_assoc, forallb_of_map.
  cbn zeta. unfold appended at 1.
  change (forallb (fun x => id (worker_init_model x dt args q)) (workers_ e))
    with (forallb (fun w => worker_init_model w dt args q) (workers_ e)).
  destruct (forallb _ (workers_ e)); cbn [negb]; [|reflexivity].
  unfold mbind at 1, M_bind at 1, bindM at 1.
  destruct (load_parallel _ sds _) as [[[]|err] s1]; cbn [negb]; reflexivity.
Qed.

(** *** Forward lemmas for the two loading loops *)

Lemma is_ok_unit (o : outcome unit) : is_ok o = true -> o = Ok tt.
Proof. destruct o as [[]|]; [reflexivity|discriminate]. Qed.

Lemma load_blocking_ok (w : Worker) (sds : list StateDict) (s : State) :
  Forall (fun sd => is_ok (worker_load_state_dict w sd) = true) sds ->
  load_blocking w sds s = (Ok tt, appended s (blocking_loads sds)).
Proof.
  intros F. revert s. induction F as [|sd sds E _ IH]; intros s.
  - cbn. unfold ret. now rewrite appended_nil.
  - rewrite load_blocking_cons, (is_ok_unit _ E), IH, appended_appended.
    reflexivity.
Qed.

Lemma load_blocking_fail (w : Worker) (pre post : list StateDict) (sd : StateDict)
      (err : error) (s : State) :
  Forall (fun sd => is_ok (worker_load_state_dict w sd) = true) pre ->
  worker_load_state_dict w sd = Err err ->
  load_blocking w (pre ++ sd :: post) s
  = (Err err, appended s (blocking_loads (pre ++ [sd]))).
Proof.
  intros F E. revert s. induction F as [|sd' pre E' _ IH]; intros s; cbn [app].
  - now rewrite load_blocking_cons, E.
  - rewrite load_blocking_cons, (is_ok_unit _ E'), IH, appended_appended.
    reflexivity.
Qed.

Lemma Forall_forallb {A} (f : A -> bool) (l : list A) :
  Forall (fun x => f x = true) l -> forallb f l = true.
Proof. induction 1 as [|x l E _ IH]; cbn; [reflexivity|]. now rewrite E. Qed.

Lemma Exists_forallb {A} (f : A -> bool) (l : list A) :
  Exists (fun x => f x = false) l -> forallb f l = false.
Proof.
  induction 1 as [x l E|x l _ IH]; cbn.
  - now rewrite E.
  - rewrite IH. apply andb_false_r.
Qed.

Lemma load_parallel_ok (ws : list Worker) (sds : list StateDict) (s : State) :
  Forall (fun sd => Forall (fun w => is_ok (worker_load_state_dict w sd) = true) ws) sds ->
  load_parallel ws sds s = (Ok true, appended s (load_rounds ws sds)).
Proof.
  intros F. revert s. induction F as [|sd sds E _ IH]; intros s.
  - cbn. unfold ret. now rewrite appended_nil.
  - rewrite load_parallel_cons.
    rewrite (Forall_forallb (fun w => is_ok (worker_load_state_dict w sd)) ws E).
    rewrite IH, appended_appended. reflexivity.
Qed.

Lemma load_parallel_fail (ws : list Worker) (pre post : list StateDict)
      (sd : StateDict) (s : State) :
  Forall (fun sd => Forall (fun w => is_ok (worker_load_state_dict w sd) = true) ws) pre ->
  Exists (fun w => is_ok (worker_load_state_dict w sd) = false) ws ->
  load_parallel ws (pre ++ sd :: post) s
  = (Ok false, appended s (load_rounds ws (pre ++ [sd]))).
Proof.
  intros F E. revert s. induction F as [|sd' pre E' _ IH]; intros s; cbn [app].
  - rewrite load_parallel_cons.
    rewrite (Exists_forallb (fun w => is_ok (worker_load_state_dict w sd)) ws E).
    unfold load_rounds. cbn. now rewrite app_nil_r.
  - rewrite load_parallel_cons.
    rewrite (Forall_forallb (fun w => is_ok (worker_load_state_dict w sd')) ws E').
    rewrite IH, appended_appended. reflexivity.
Qed.

(** The calls one worker has received once the model is initialised on
    all workers and the shards [sds] have gone round. *)
Lemma calls_after_loading (ws : list Worker) (dt : ScalarType) (args : ModelArgs)
      (q : QuantizationArgs) (sds : list StateDict) (rank : nat) :
  (rank < length ws)%nat ->
  calls_to rank ((imap (fun r _ => Async r (InitModel dt args q)) ws
                  ++ [CollectAll (length ws)]) ++ load_rounds ws sds)
  = InitModel dt args q :: map LoadStateDict sds.
Proof.
  intros Hr. rewrite !calls_to_app.
  rewrite (calls_to_round (fun r c => Async r c)) by auto.
  rewrite calls_to_load_rounds by assumption. reflexivity.
Qed.

(** What a bring-up that returned true has done. *)
Lemma init_workers_true_inv (e : EngineData) (dt : ScalarType) (args : ModelArgs)
      (q : QuantizationArgs) (sds : list StateDict) (s : State) :
  (init_workers e dt args q sds s).1 = Ok true ->
  exists evs,
    (init_workers e dt args q sds s).2 = appended s evs /\
    (forall w, In w (workers_ e) ->
       worker_init_model w dt args q = true /\
       (forall sd, In sd sds -> is_ok (worker_load_state_dict w sd) = true) /\
       is_ok (worker_verify_loaded_weights w sds) = true) /\
    (forall rank, (rank < length (workers_ e))%nat ->
       calls_to rank evs = bring_up_calls dt args q sds).
Proof.
  destruct (Nat.eq_dec (length (workers_ e)) 1%nat) as [L|L].
  - destruct (workers_ e) as [|w [|w' ws]] eqn:HW; try discriminate.
    rewrite (init_workers_single e w dt args q sds s HW). cbn zeta.
    destruct (worker_init_model w dt args q) eqn:I; [|discriminate].
    destruct (load_blocking_spec w sds (appended s [Blocking 0 (InitModel dt args q)]))
      as [[F R]|(pre & sd & post & err & _ & _ & _ & R)]; rewrite R;
      [|discriminate].
    destruct (worker_verify_loaded_weights w sds) as [[]|err] eqn:V; [|discriminate].
    intros _. cbn [snd]. rewrite !appended_appended.
    eexists. split; [reflexivity|]. split.
    + intros w0 [<-|[]]. split; [assumption|]. split; [|now rewrite V].
      intros sd Hsd. rewrite Forall_forall in F.
      rewrite (F sd); [reflexivity|now apply list_elem_of_In].
    + intros rank Hr. cbn [length] in Hr. assert (rank = 0%nat) as -> by lia.
      rewrite !calls_to_app, calls_to_blocking_loads. reflexivity.
  - rewrite (init_workers_parallel e dt args q sds s L). cbn zeta.
    destruct (forallb _ (workers_ e)) eqn:I; [|discriminate].
    apply forallb_true_Forall in I.
    destruct (load_parallel_spec (workers_ e) sds
                (appended s (imap (fun rank _ => Async rank (InitModel dt args q))
                                  (workers_ e) ++ [CollectAll (length (workers_ e))])))
      as [[F R]|(pre & sd & post & _ & _ & _ & R)]; rewrite R; [|discriminate].
    destruct (for_workers_lift_spec
                (fun rank _ => Blocking rank VerifyLoadedWeights)
                (fun w => worker_verify_loaded_weights w sds)
                (workers_ e) 0%nat
                (appended (appended s (imap (fun rank _ => Async rank (InitModel dt args q))
                                            (workers_ e)
                                       ++ [CollectAll (length (workers_ e))]))
                          (load_rounds (workers_ e) sds)))
      as [(results & V & R')|(pre & w & post & err & _ & _ & _ & R')];
      rewrite R'; [|discriminate].
    intros _. cbn [snd]. rewrite !appended_appended.
    eexists. split; [reflexivity|]. split.
    + intros w Hw. apply list_elem_of_In in Hw. split.
      * rewrite Forall_forall in I. now apply I.
      * split.
        -- intros sd Hsd. apply list_elem_of_In in Hsd.
           rewrite Forall_forall in F. specialize (F sd Hsd).
           rewrite Forall_forall in F. now apply F.
        -- apply list_elem_of_lookup in Hw as [i Hi].
           destruct (Forall2_lookup_l _ _ _ _ _ V Hi) as (a & _ & Ea).
           now rewrite Ea.
    + intros rank Hr.
      rewrite app_assoc, calls_to_app, calls_after_loading by assumption.
      change (imap (fun j _ => Blocking (0 + j) VerifyLoadedWeights) (workers_ e))
        with (verify_calls (workers_ e)).
      rewrite calls_to_verify_calls by assumption. reflexivity.
Qed.

(** *** [init_model] and [init] *)

Lemma init_model_from_unfold (l : ModelLoader) (s : State) :
  init_model_from l s =
  match loader_tokenizer l with
  | None => (Err (CheckFailed "tokenizer_ != nullptr"), s)
  | Some tok =>
      let args := loader_model_args l in
      let e1 := set_args args (set_tokenizer tok (engine s)) in
      let s1 := {| engine := e1; trace := trace s |} in
      match front (devices_ (engine s)) with
      | Err err => (Err err, s1)
      | Ok d =>
          match parse_dtype (dtype args) d with
          | Err err => (Err err, s1)
          | Ok dt =>
              init_workers e1 dt args (loader_quant_args l) (loader_state_dicts l)
                {| engine := set_dtype dt e1;
                   trace := trace s ++ (if vocab_size_mismatch tok args
                                        then [Log WARNING "Vocab size mismatch"]
                                        else []) |}
          end
      end
  end.
Proof.
  unfold init_model_from.
  unfold mbind at 1, M_bind at 1, bindM at 1, lift at 1.
  destruct (loader_tokenizer l) as [tok|]; [|reflexivity].
  unfold mbind at 1, M_bind at 1, bindM at 1, modify at 1.
  unfold mbind at 1, M_bind at 1, bindM at 1, modify at 1.
  unfold mbind at 1, M_bind at 1, bindM at 1, get at 1.
  cbn [engine trace set_args set_tokenizer devices_]. cbn zeta.
  unfold mbind at 1, M_bind at 1, bindM at 1, lift at 1.
  destruct (front (devices_ (engine s))) as [d|err]; [|reflexivity].
  unfold mbind at 1, M_bind at 1, bindM at 1, lift at 1.
  destruct (parse_dtype _ d) as [dt|err]; [|reflexivity].
  unfold mbind at 1, M_bind at 1, bindM at 1, modify at 1.
  unfold mbind at 1, M_bind at 1, bindM at 1.
  destruct (vocab_size_mismatch tok (loader_model_args l)).
  - reflexivity.
  - unfold ret at 1. cbn [engine trace]. now rewrite app_nil_r.
Qed.

(** X1.  When [init_model] returns true, the tokenizer and the model
    arguments are those of the loader, the dtype is the one [parse_dtype]
    derives for the first device, and every worker, whatever its own
    device, has accepted the model with that dtype, accepted every shard
    and passed verification; each worker has been asked, in this order: to
    initialise the model, to load every shard in the loader's order, and
    to verify. *)
Theorem init_model_success (l : ModelLoader) (s : State) :
  (init_model_from l s).1 = Ok true ->
  exists (tok : Tokenizer) (d0 : Device) (dt : ScalarType) (evs : list event),
    let args := loader_model_args l in
    let q := loader_quant_args l in
    let sds := loader_state_dicts l in
    loader_tokenizer l = Some tok /\
    front (devices_ (engine s)) = Ok d0 /\
    parse_dtype (dtype args) d0 = Ok dt /\
    engine (init_model_from l s).2
      = set_dtype dt (set_args args (set_tokenizer tok (engine s))) /\
    trace (init_model_from l s).2 = trace s ++ evs /\
    (forall w, In w (workers_ (engine s)) ->
       worker_init_model w dt args q = true /\
       (forall sd, In sd sds -> is_ok (worker_load_state_dict w sd) = true) /\
       is_ok (worker_verify_loaded_weights w sds) = true) /\
    (forall rank, (rank < length (workers_ (engine s)))%nat ->
       calls_to rank evs = bring_up_calls dt args q sds).
Proof.
  rewrite init_model_from_unfold.
  destruct (loader_tokenizer l) as [tok|]; [|discriminate]. cbn zeta.
  destruct (front (devices_ (engine s))) as [d0|]; [|discriminate].
  destruct (parse_dtype _ d0) as [dt|] eqn:P; [|discriminate].
  intros Hok. apply init_workers_true_inv in Hok as (evs & E & A & C).
  rewrite E. cbn [snd engine trace appended set_args set_tokenizer workers_] in *.
  exists tok, d0, dt.
  exists ((if vocab_size_mismatch tok (loader_model_args l)
           then [Log WARNING "Vocab size mismatch"] else []) ++ evs).
  cbn zeta. repeat split; try reflexivity.
  - exact P.
  - now rewrite <- app_assoc.
  - now apply A.
  - now apply A.
  - now apply A.
  - intros rank Hr. rewrite calls_to_app, (C rank Hr).
    destruct (vocab_size_mismatch _ _); reflexivity.
Qed.

(** X2.  When some worker refuses the model, the bring-up returns false
    after every worker has been asked to initialise it, and nothing else
    has been asked of any worker: no shard is loaded, nothing is
    verified. *)
Theorem bring_up_init_failure (e : EngineData) (dt : ScalarType) (args : ModelArgs)
        (q : QuantizationArgs) (sds : list StateDict) (s : State) :
  Exists (fun w => worker_init_model w dt args q = false) (workers_ e) ->
  exists evs : list event,
    init_workers e dt args q sds s = (Ok false, appended s evs) /\
    forall rank, (rank < length (workers_ e))%nat ->
      calls_to rank evs = [InitModel dt args q].
Proof.
  intros Hex.
  destruct (Nat.eq_dec (length (workers_ e)) 1%nat) as [L|L].
  - destruct (workers_ e) as [|w [|w' ws]] eqn:HW; try discriminate.
    rewrite (init_workers_single e w dt args q sds s HW). cbn zeta.
    apply Exists_cons in Hex as [I|Hex]; [|now apply Exists_nil in Hex].
    rewrite I. eexists. split; [reflexivity|].
    intros rank Hr. cbn [length] in Hr. assert (rank = 0%nat) as -> by lia.
    reflexivity.
  - rewrite (init_workers_parallel e dt args q sds s L). cbn zeta.
    rewrite (Exists_forallb (fun w => worker_init_model w dt args q) _ Hex).
    eexists. split; [reflexivity|].
    intros rank Hr. rewrite calls_to_app.
    rewrite (calls_to_round (fun r c => Async r c)) by auto. reflexivity.
Qed.

(** X3.  When every worker accepts the model and the shards [pre], and some
    worker throws on the next shard [sd], no later shard is sent and nothing
    is verified: every worker has been asked to initialise and to load
    [pre] and [sd], nothing more.  With a single worker the exception
    leaves [init_model]; with several workers [init_model] returns
    false. *)
Theorem bring_up_shard_failure (e : EngineData) (dt : ScalarType) (args : ModelArgs)
        (q : QuantizationArgs) (pre post : list StateDict) (sd : StateDict)
        (s : State) :
  Forall (fun w => worker_init_model w dt args q = true) (workers_ e) ->
  Forall (fun sd' => Forall (fun w => is_ok (worker_load_state_dict w sd') = true)
                            (workers_ e)) pre ->
  Exists (fun w => is_ok (worker_load_state_dict w sd) = false) (workers_ e) ->
  let run := init_workers e dt args q (pre ++ sd :: post) s in
  exists evs : list event,
    run.2 = appended s evs /\
    (forall rank, (rank < length (workers_ e))%nat ->
       calls_to rank evs = InitModel dt args q :: map LoadStateDict (pre ++ [sd])) /\
    (length (workers_ e) = 1%nat -> exists err, run.1 = Err err) /\
    (length (workers_ e) <> 1%nat -> run.1 = Ok false).
Proof.
  intros Hinit Hpre Hsd run. subst run.
  destruct (Nat.eq_dec (length (workers_ e)) 1%nat) as [L|L].
  - destruct (workers_ e) as [|w [|w' ws]] eqn:HW; try discriminate.
    rewrite (init_workers_single e w dt args q _ s HW). cbn zeta.
    apply Forall_cons in Hinit as [I _]. rewrite I.
    apply Exists_cons in Hsd as [E|E]; [|now apply Exists_nil in E].
    destruct (worker_load_state_dict w sd) as [|err] eqn:Esd; [discriminate|].
    assert (Fpre : Forall (fun sd' => is_ok (worker_load_state_dict w sd') = true) pre).
    { eapply Forall_impl; [exact Hpre|]. intros sd' F. now apply Forall_cons in F as [F _]. }
    rewrite (load_blocking_fail w pre post sd err _ Fpre Esd).
    cbn [fst snd]. rewrite appended_appended.
    eexists. split; [reflexivity|]. split; [|split].
    + intros rank Hr. cbn [length] in Hr. assert (rank = 0%nat) as -> by lia.
      rewrite calls_to_app, calls_to_blocking_loads. reflexivity.
    + intros _. now exists err.
    + intros N. now cbn in N.
  - rewrite (init_workers_parallel e dt args q _ s L). cbn zeta.
    rewrite (Forall_forallb (fun w => worker_init_model w dt args q) _ Hinit).
    rewrite (load_parallel_fail (workers_ e) pre post sd _ Hpre Hsd).
    cbn [fst snd]. rewrite appended_appended.
    eexists. split; [reflexivity|]. split; [|split].
    + intros rank Hr. now apply calls_after_loading.
    + intros E. contradiction.
    + reflexivity.
Qed.


(** *** What [init_model] never emits *)

Section EmitsOnly.
Variable P : event -> Prop.

Lemma emits_only_ret {A} (a : A) : emits_only P (ret a).
Proof.
  exists (Ok a), []. split; [constructor|].
  intros s. unfold ret. now rewrite appended_nil.
Qed.

Lemma emits_only_lift {A} (o : outcome A) : emits_only P (lift o).
Proof.
  exists o, []. split; [constructor|].
  intros s. unfold lift. now rewrite appended_nil.
Qed.

Lemma emits_only_emit (ev : event) : P ev -> emits_only P (emit ev).
Proof.
  intros L. exists (Ok tt), [ev]. split; [now repeat constructor|].
  intros s. reflexivity.
Qed.

Lemma emits_only_bind {A B} (m : M A) (k : A -> M B) :
  emits_only P m -> (forall a, emits_only P (k a)) -> emits_only P (m ≫= k).
Proof.
  intros (r & evs & L & Hm) Hk.
  destruct r as [a|err].
  - destruct (Hk a) as (r2 & evs2 & L2 & Hk2).
    exists r2, (evs ++ evs2). split; [now apply Forall_app|].
    intros s. unfold mbind, M_bind, bindM. rewrite Hm.
    unfold appended at 1. fold (appended s evs).
    now rewrite Hk2, appended_appended.
  - exists (Err err), evs. split; [assumption|].
    intros s. unfold mbind, M_bind, bindM. rewrite Hm. reflexivity.
Qed.

Lemma emits_only_for_workers {A} (f : nat -> Worker -> M A) (ws : list Worker) :
  (forall i w, emits_only P (f i w)) -> forall i, emits_only P (for_workers f i ws).
Proof.
  intros Hf. induction ws as [|w ws IH]; intros i; cbn [for_workers].
  - apply emits_only_ret.
  - apply emits_only_bind; [apply Hf|]. intros a.
    apply emits_only_bind; [apply IH|]. intros rest. apply emits_only_ret.
Qed.

Hypothesis P_init : forall r dt args q, P (Blocking r (InitModel dt args q))
                                        /\ P (Async r (InitModel dt args q)).
Hypothesis P_load : forall r sd, P (Blocking r (LoadStateDict sd))
                                 /\ P (Async r (LoadStateDict sd)).
Hypothesis P_verify : forall r, P (Blocking r VerifyLoadedWeights).
Hypothesis P_join : forall n, P (CollectAll n).

Lemma emits_only_load_blocking (w : Worker) (sds : list StateDict) :
  emits_only P (load_blocking w sds).
Proof.
  induction sds as [|sd sds IH]; cbn [load_blocking].
  - apply emits_only_ret.
  - apply emits_only_bind; [apply emits_only_emit, P_load|]. intros _.
    apply emits_only_bind; [apply emits_only_lift|]. intros _. exact IH.
Qed.

Lemma emits_only_load_parallel (ws : list Worker) (sds : list StateDict) :
  emits_only P (load_parallel ws sds).
Proof.
  induction sds as [|sd sds IH]; cbn [load_parallel].
  - apply emits_only_ret.
  - apply emits_only_bind.
    + apply emits_only_for_workers. intros i w.
      apply emits_only_bind; [apply emits_only_emit, P_load|]. intros _.
      apply emits_only_ret.
    + intros results.
      apply emits_only_bind; [apply emits_only_emit, P_join|]. intros _.
      destruct (forallb is_ok results); [exact IH|apply emits_only_ret].
Qed.

Lemma emits_only_init_workers (e : EngineData) (dt : ScalarType) (args : ModelArgs)
      (q : QuantizationArgs) (sds : list StateDict) :
  emits_only P (init_workers e dt args q sds).
Proof.
  unfold init_workers. destruct (Nat.eqb (length (workers_ e)) 1).
  - apply emits_only_bind; [apply emits_only_lift|]. intros w.
    apply emits_only_bind; [apply emits_only_emit, P_init|]. intros _.
    destruct (negb _); [apply emits_only_ret|].
    apply emits_only_bind; [apply emits_only_load_blocking|]. intros _.
    apply emits_only_bind; [apply emits_only_emit, P_verify|]. intros _.
    apply emits_only_bind; [apply emits_only_lift|]. intros _.
    apply emits_only_ret.
  - apply emits_only_bind.
    { apply emits_only_for_workers. intros i w.
      apply emits_only_bind; [apply emits_only_emit, P_init|]. intros _.
      apply emits_only_ret. }
    intros results.
    apply emits_only_bind; [apply emits_only_emit, P_join|]. intros _.
    destruct (negb _); [apply emits_only_ret|].
    apply emits_only_bind; [apply emits_only_load_parallel|]. intros loaded.
    destruct (negb loaded); [apply emits_only_ret|].
    apply emits_only_bind; [|intros _; apply emits_only_ret].
    apply emits_only_for_workers. intros i w.
    apply emits_only_bind; [apply emits_only_emit, P_verify|]. intros _.
    apply emits_only_lift.
Qed.

End EmitsOnly.

(** [init_model] changes the tokenizer, the arguments and the dtype of the
    engine and nothing else, and emits nothing that belongs to the KV-cache
    set-up. *)
Lemma init_model_from_frame (l : ModelLoader) (s : State) :
  exists evs : list event,
    trace (init_model_from l s).2 = trace s ++ evs /\
    Forall (fun ev => is_kv_cache_event ev = false) evs /\
    block_manager_ (engine (init_model_from l s).2) = block_manager_ (engine s) /\
    workers_ (engine (init_model_from l s).2) = workers_ (engine s) /\
    devices_ (engine (init_model_from l s).2) = devices_ (engine s).
Proof.
  rewrite init_model_from_unfold.
  destruct (loader_tokenizer l) as [tok|].
  2:{ exists []. cbn. rewrite app_nil_r. repeat split. constructor. }
  cbn zeta. destruct (front (devices_ (engine s))) as [d|err].
  2:{ exists []. cbn. rewrite app_nil_r. repeat split. constructor. }
  destruct (parse_dtype _ d) as [dt|err].
  2:{ exists []. cbn. rewrite app_nil_r. repeat split. constructor. }
  destruct (emits_only_init_workers (fun ev => is_kv_cache_event ev = false)
              ltac:(intros; split; reflexivity) ltac:(intros; split; reflexivity)
              ltac:(reflexivity) ltac:(reflexivity)
              (set_args (loader_model_args l) (set_tokenizer tok (engine s)))
              dt (loader_model_args l) (loader_quant_args l) (loader_state_dicts l))
    as (r & evs & L & R).
  rewrite R. cbn [snd appended engine trace block_manager_ workers_ devices_
                    set_dtype set_args set_tokenizer].
  eexists. split; [now rewrite <- app_assoc|]. repeat split.
  apply Forall_app. split; [|assumption].
  destruct (vocab_size_mismatch _ _); repeat constructor.
Qed.

Lemma init_unfold (path : string) (s : State) :
  init path s =
  match init_model path s with
  | (Ok true, s1) =>
      match init_kv_cache s1 with
      | (Ok true, s2) => (Ok true, s2)
      | (Ok false, s2) => (Ok false, appended s2 [Log ERROR "Failed to initialize kv cache"])
      | (Err err, s2) => (Err err, s2)
      end
  | (Ok false, s1) => (Ok false,
                        appended s1 [Log ERROR ("Failed to initialize model from: " +:+ path)])
  | (Err err, s1) => (Err err, s1)
  end.
Proof.
  unfold init. unfold mbind at 1, M_bind at 1, bindM at 1.
  destruct (init_model path s) as [[[]|err] s1]; cbn [negb]; try reflexivity.
  unfold mbind at 1, M_bind at 1, bindM at 1.
  destruct (init_kv_cache s1) as [[[]|err] s2]; reflexivity.
Qed.

(** X5.  [init] returns true exactly when [init_model] returns true and
    [init_kv_cache], run on the state [init_model] left, returns true too.
    When [init_model] returns false, [init] returns false, logs the error
    last, and the KV cache is left alone: the block manager is as before,
    no block manager is created and no worker is asked for a cache.  An
    abort or exception of either step is the outcome of [init]. *)
Theorem init_composition :
  forall (path : string) (s : State),
    let m := init_model path s in
    let k := init_kv_cache m.2 in
    ((init path s).1 = Ok true <-> m.1 = Ok true /\ k.1 = Ok true) /\
    (m.1 = Ok false ->
     (init path s).1 = Ok false /\
     block_manager_ (engine (init path s).2) = block_manager_ (engine s) /\
     exists evs,
       trace (init path s).2
         = trace s ++ evs ++ [Log ERROR ("Failed to initialize model from: " +:+ path)] /\
       Forall (fun ev => is_kv_cache_event ev = false) evs) /\
    (m.1 = Ok true -> k.1 = Ok false ->
     (init path s).1 = Ok false /\
     (init path s).2 = appended k.2 [Log ERROR "Failed to initialize kv cache"]) /\
    (forall err, m.1 = Err err -> init path s = (Err err, m.2)) /\
    (forall err, m.1 = Ok true -> k.1 = Err err -> init path s = (Err err, k.2)).
Proof.
  intros path s m k. subst k.
  pose proof (init_unfold path s) as U.
  pose proof (init_model_from_frame (ModelLoader_create path) s)
    as (evs & T & L & BM & _ & _).
  fold (init_model path s) in T, BM. subst m.
  destruct (init_model path s) as [[[]|err] s1]; cbn [fst snd] in *.
  - destruct (init_kv_cache s1) as [[[]|err] s2]; cbn [fst snd] in *;
      rewrite U; cbn [fst snd]; repeat split; try discriminate;
      try (intros [_ E]; discriminate); try (intros; congruence).
  - rewrite U. cbn [fst snd]. repeat split; try discriminate;
      try (intros [E _]; discriminate); try assumption.
    exists evs. cbn [appended trace]. rewrite T, <- app_assoc. split; [reflexivity|assumption].
  - rewrite U. cbn [fst snd]. repeat split; try discriminate;
      try (intros [E _]; discriminate).
    intros err' [= <-]. reflexivity.
Qed.

End WithCollaborators.

(** Two cards and a checkpoint in two shards: the second worker is asked to
    initialise, to load the two shards in order, and to verify. *)
Lemma init_model_success_witness :
  (init_model_from Scenarios.checkpoint
                   Examples.two_gpus).1 = Ok true /\
  calls_to 1 (trace (init_model_from
                                     Scenarios.checkpoint Examples.two_gpus).2)
  = [InitModel Half Examples.llama_args Scenarios.no_quant;
     LoadStateDict (Scenarios.shard "wte.weight");
     LoadStateDict (Scenarios.shard "lm_head.weight");
     VerifyLoadedWeights].
Proof.
  split; [reflexivity|].
  destruct (init_model_success Scenarios.checkpoint
              Examples.two_gpus eq_refl)
    as (tok & d0 & dt & evs & _ & HF & HP & _ & HT & _ & HC).
  rewrite HT. injection HF as <-. injection HP as <-.
  exact (HC 1%nat (le_n 2)).
Defined.

(** The second of two workers refuses the model: [init_workers] returns
    false. *)
Lemma bring_up_init_failure_witness :
  (init_workers
     (Scenarios.engine_with [Examples.worker_on (Examples.cuda 0);
                             Scenarios.refusing_worker (Examples.cuda 1)])
     Half Examples.llama_args Scenarios.no_quant
     (loader_state_dicts Scenarios.checkpoint) Examples.two_gpus).1 = Ok false.
Proof.
  assert (E : Exists (fun w => worker_init_model w Half Examples.llama_args
                                 Scenarios.no_quant = false)
                     [Examples.worker_on (Examples.cuda 0);
                      Scenarios.refusing_worker (Examples.cuda 1)])
    by (apply Exists_cons_tl, Exists_cons_hd; reflexivity).
  destruct (bring_up_init_failure
              (Scenarios.engine_with [Examples.worker_on (Examples.cuda 0);
                                      Scenarios.refusing_worker (Examples.cuda 1)])
              Half Examples.llama_args Scenarios.no_quant
              (loader_state_dicts Scenarios.checkpoint) Examples.two_gpus E)
    as (evs & HR & _).
  now rewrite HR.
Defined.

(** The second of two workers throws on the empty second shard of three:
    the third shard is never sent, and [init_workers] returns false. *)
Lemma bring_up_shard_failure_witness :
  exists evs : list event,
    init_workers
      (Scenarios.engine_with [Examples.worker_on (Examples.cuda 0);
                              Scenarios.strict_worker (Examples.cuda 1)])
      Half Examples.llama_args Scenarios.no_quant
      ([Scenarios.shard "wte.weight"] ++ ∅ :: [Scenarios.shard "lm_head.weight"])
      Examples.two_gpus
    = (Ok false, appended Examples.two_gpus evs) /\
    calls_to 1 evs
    = [InitModel Half Examples.llama_args Scenarios.no_quant;
       LoadStateDict (Scenarios.shard "wte.weight"); LoadStateDict ∅].
Proof.
  assert (A : Forall (fun w => worker_init_model w Half Examples.llama_args
                                 Scenarios.no_quant = true)
                     [Examples.worker_on (Examples.cuda 0);
                      Scenarios.strict_worker (Examples.cuda 1)])
    by (repeat constructor).
  assert (B : Forall (fun sd' =>
                        Forall (fun w => is_ok (worker_load_state_dict w sd') = true)
                               [Examples.worker_on (Examples.cuda 0);
                                Scenarios.strict_worker (Examples.cuda 1)])
                     [Scenarios.shard "wte.weight"])
    by (repeat constructor).
  assert (E : Exists (fun w => is_ok (worker_load_state_dict w ∅) = false)
                     [Examples.worker_on (Examples.cuda 0);
                      Scenarios.strict_worker (Examples.cuda 1)])
    by (apply Exists_cons_tl, Exists_cons_hd; reflexivity).
  destruct (bring_up_shard_failure
              (Scenarios.engine_with [Examples.worker_on (Examples.cuda 0);
                                      Scenarios.strict_worker (Examples.cuda 1)])
              Half Examples.llama_args Scenarios.no_quant
              [Scenarios.shard "wte.weight"] [Scenarios.shard "lm_head.weight"] ∅
              Examples.two_gpus A B E)
    as (evs & HS & HC & _ & HR).
  exists evs. split.
  - rewrite <- HS, <- (HR ltac:(discriminate)). now destruct (init_workers _ _ _ _ _ _).
  - exact (HC 1%nat (le_n 2)).
Defined.

End ProtocolFacts.


(** ** Sizing the cache: bounds *)

Module CacheFacts.
Import Engine Protocol EngineFacts Int64Facts BoostFacts ProtocolFacts.

Lemma quot_bounds (a b q : Z) :
  0 < b -> a ÷ b = q -> 0 < q -> q * b <= a < (q + 1) * b.
Proof.
  intros Hb <- Hq.
  assert (0 <= a) as Ha.
  { destruct (Z.le_gt_cases 0 a) as [|Hneg]; [assumption|].
    pose proof (Z.quot_opp_l a b ltac:(lia)) as E.
    pose proof (Z.quot_pos (- a) b ltac:(lia) Hb). lia. }
  rewrite Z.quot_div_nonneg by lia.
  pose proof (Z.mul_div_le a b Hb).
  pose proof (Z.mul_succ_div_gt a b Hb). lia.
Qed.

Section WithCollaborators.
Context `{Collaborators}.

(** X6.  For a positive block size in bytes, the number of blocks
    [init_kv_cache] settles on is positive, the blocks fit the budget, and
    one block more would not.  The budget is the configured cap on CPU; on
    CUDA it is what the measurement leaves, never more than the configured
    cap when that cap is positive. *)
Theorem cache_fits_budget (d : Device) (block_size_in_bytes N : Z) :
  0 < block_size_in_bytes ->
  profile_num_blocks d block_size_in_bytes = Ok N ->
  let budget := if is_cpu d then FLAGS_max_cache_size flags
                else cuda_max_cache_size d in
  0 < N /\
  N * block_size_in_bytes <= budget < (N + 1) * block_size_in_bytes /\
  (is_cpu d = false -> 0 < FLAGS_max_cache_size flags ->
   budget <= FLAGS_max_cache_size flags) /\
  (is_cpu d = false ->
   budget <= sub64 (FLAGS_max_memory_utilization flags (total_memory memory d))
                   (max_memory_allocated memory d)).
Proof.
  intros Hb HN budget. subst budget.
  pose proof (profile_num_blocks_pos d _ N HN) as HP.
  split; [assumption|].
  unfold profile_num_blocks, CHECK in HN.
  destruct (is_cpu d).
  - rewrite div64_pos in HN by assumption.
    cbn [mbind outcome_bind Outcome.bind] in HN.
    destruct (0 <? _); [|discriminate]. injection HN as HN.
    split; [now apply quot_bounds|]. split; discriminate.
  - destruct (is_cuda d); [|discriminate].
    destruct (0 <? cuda_max_cache_size d); [|discriminate].
    cbn [mbind outcome_bind Outcome.bind] in HN.
    rewrite div64_pos in HN by assumption.
    cbn [mbind outcome_bind Outcome.bind] in HN.
    destruct (0 <? _); [|discriminate]. injection HN as HN.
    split; [now apply quot_bounds|].
    unfold cuda_max_cache_size. split.
    + intros _ Hcap. destruct (Z.ltb_spec 0 (FLAGS_max_cache_size flags)); lia.
    + intros _. destruct (0 <? FLAGS_max_cache_size flags); lia.
Qed.

(** X7.  Whenever [init_kv_cache] returns, the block manager has been
    created, before any worker was asked, whether or not the workers
    succeed; all workers were handed the same pair of shapes, and the
    result is true exactly when every worker returned true. *)
Theorem init_kv_cache_result (s : State) (ok : bool) :
  (init_kv_cache s).1 = Ok ok ->
  exists (N : Z) (key_cache_shape value_cache_shape : list Z) (evs : list event),
    block_manager_ (engine (init_kv_cache s).2) = Some (N, FLAGS_block_size flags) /\
    trace (init_kv_cache s).2
      = trace s ++ NewBlockManager N (FLAGS_block_size flags) :: evs /\
    (forall rank, (rank < length (workers_ (engine s)))%nat ->
       calls_to rank evs = [InitKvCache key_cache_shape value_cache_shape]) /\
    (ok = true <->
     Forall (fun w => worker_init_kv_cache w key_cache_shape value_cache_shape = true)
            (workers_ (engine s))).
Proof.
  intros Hok.
  destruct (kv_geometry (engine s)) as [g|err] eqn:HG.
  2:{ exfalso. revert Hok. unfold init_kv_cache.
      unfold mbind at 1, M_bind at 1, bindM at 1, get at 1.
      unfold mbind at 1, M_bind at 1, bindM at 1, lift at 1.
      rewrite HG. discriminate. }
  destruct (workers_ (engine s)) as [|w0 ws] eqn:HW.
  { exfalso. revert Hok. unfold init_kv_cache.
    unfold mbind at 1, M_bind at 1, bindM at 1, get at 1.
    unfold mbind at 1, M_bind at 1, bindM at 1, lift at 1.
    rewrite HG.
    unfold mbind at 1, M_bind at 1, bindM at 1, lift at 1.
    rewrite HW. discriminate. }
  destruct (profile_num_blocks (device w0) (g_block_size_in_bytes g)) as [N|err] eqn:HN.
  2:{ exfalso. rewrite (init_kv_cache_fails s w0 ws g err HW HG HN) in Hok.
      discriminate. }
  destruct (kv_geometry_inv (engine s) g HG) as (EB & _ & _ & ED).
  pose proof (kv_cache_shapes_ok g (dtype_ (engine s)) N ED) as HS.
  rewrite <- EB.
  rewrite (init_kv_cache_run s g w0 ws N _ _ HW HG HN HS) in *.
  cbn [fst snd engine trace block_manager_] in *.
  eexists N, _, _, _. split; [reflexivity|]. split; [reflexivity|]. split.
  - intros rank Hr. now apply calls_to_dispatch.
  - injection Hok as <-. rewrite forallb_of_map. split.
    + intros E.
      exact (forallb_true_Forall (fun w => worker_init_kv_cache w _ _) (w0 :: ws) E).
    + intros F.
      exact (Forall_forallb (fun w => worker_init_kv_cache w _ _) (w0 :: ws) F).
Qed.

End WithCollaborators.

(** X8.  The key cache never holds more elements than the value cache, and
    holds as many exactly when [head_dim] is a multiple of the packing
    factor [x = 16 / dtype_size] (or the cache is empty): otherwise the
    integer division [head_dim / x] drops the remainder. *)
Theorem key_cache_never_larger (g : Geometry) (t : ScalarType) (N : Z)
        (key_cache_shape value_cache_shape : list Z) :
  g_dtype_size g = itemsize t ->
  0 <= N -> 0 <= g_n_local_kv_heads g -> 0 <= g_head_dim g -> 0 <= g_block_size g ->
  kv_cache_shapes g N = Ok (key_cache_shape, value_cache_shape) ->
  product key_cache_shape <= product value_cache_shape /\
  (product key_cache_shape = product value_cache_shape <->
   g_head_dim g mod (16 / itemsize t) = 0
   \/ N * g_n_local_kv_heads g * g_block_size g = 0).
Proof.
  intros ED HN HL HD HB HS.
  rewrite (kv_cache_shapes_ok g t N ED) in HS. injection HS as <- <-.
  unfold product. cbn [fold_right].
  pose proof (sixteen_over_itemsize_pos t) as Hx.
  set (x := 16 / itemsize t) in *.
  rewrite Z.quot_div_nonneg by lia.
  pose proof (Z.div_mod (g_head_dim g) x ltac:(lia)) as DM.
  pose proof (Z.mod_pos_bound (g_head_dim g) x Hx) as MB.
  set (qd := g_head_dim g / x) in *. set (rd := g_head_dim g mod x) in *.
  assert (E : N * (g_n_local_kv_heads g * (g_head_dim g * (g_block_size g * 1)))
              - N * (g_n_local_kv_heads g * (qd * (g_block_size g * (x * 1))))
              = (N * g_n_local_kv_heads g * g_block_size g) * rd) by (rewrite DM; ring).
  assert (0 <= N * g_n_local_kv_heads g * g_block_size g) as P0 by nia.
  split; [nia|]. split.
  - intros Eq. destruct (Z.eq_dec rd 0); [now left|right]. nia.
  - intros [Z0|Z0]; nia.
Qed.

(** One 24 GB card, 8 MB blocks: 640 blocks fill the 5 GB cap exactly. *)
Lemma cache_fits_budget_witness :
  640 * 8388608 <= 5 * Examples.GB < 641 * 8388608.
Proof.
  destruct (cache_fits_budget (H := Examples.collaborators) (Examples.cuda 0)
              8388608 640 eq_refl eq_refl) as (_ & HB & _).
  exact HB.
Defined.

(** Two cards: the block manager is created with block size 16, and both
    workers succeed. *)
Lemma init_kv_cache_result_witness :
  exists N : Z,
    block_manager_ (engine (init_kv_cache (H := Examples.collaborators)
                                          Examples.two_gpus).2) = Some (N, 16).
Proof.
  destruct (init_kv_cache_result (H := Examples.collaborators) Examples.two_gpus
              true eq_refl) as (N & k & v & evs & HB & _).
  exists N. exact HB.
Defined.

(** Head dimension 100 in half precision: the key cache holds 96 of every
    100 elements of the value cache. *)
Lemma key_cache_never_larger_witness :
  product [4; 2; 12; 16; 8] <= product [4; 2; 100; 16].
Proof.
  refine (proj1 (key_cache_never_larger Scenarios.odd_geometry Half 4 _ _
                   eq_refl _ _ _ _ eq_refl)); discriminate.
Defined.

End CacheFacts.


(** ** The registry, call by call *)

Module RegistryCallFacts.
Import Registry RegistryCalls RegistryFacts.

Section WithCallables.
Context `{Callables}.

Lemma subscript_dom (name : string) (m : gmap string ModelMeta) :
  dom (subscript name m).2 = {[name]} ∪ dom m.
Proof.
  unfold subscript. destruct (m !! name) eqn:E; cbn [snd].
  - apply elem_of_dom_2 in E. symmetry.
    now apply subseteq_union_1_L, singleton_subseteq_l.
  - now rewrite dom_insert_L.
Qed.

Lemma subscript_lookup (name : string) (m : gmap string ModelMeta) :
  (subscript name m).2 !! name = Some (default empty_meta (m !! name)).
Proof.
  unfold subscript. destruct (m !! name) eqn:E; cbn [snd].
  - now rewrite E.
  - now rewrite lookup_insert_eq.
Qed.

Lemma subscript_lookup_ne (name n : string) (m : gmap string ModelMeta) :
  name <> n -> (subscript name m).2 !! n = m !! n.
Proof.
  intros N. unfold subscript. destruct (m !! name); cbn [snd]; [reflexivity|].
  now rewrite lookup_insert_ne.
Qed.

(** What one call does to the map: the key is subscripted, and a
    registration that is not refused assigns its member. *)
Ltac open_step o :=
  destruct o as [name f|name f|name f|name f|name|name|name|name];
  cbn [step name_of writes warning_of];
  unfold refused, register_causallm_factory, register_model_args_loader,
    register_quant_args_loader, register_dialog_factory,
    get_causallm_factory, get_model_args_loader, get_quant_args_loader,
    get_dialog_factory, stored;
  cbn [writes name_of slot];
  match goal with
  | |- context [subscript name ?m] =>
      pose proof (subscript_value name m) as SV;
      pose proof (subscript_dom name m) as SD;
      pose proof (subscript_lookup name m) as SL;
      pose proof (fun n => subscript_lookup_ne name n m) as SN;
      destruct (subscript name m) as [meta m'];
      cbn [fst snd] in *; subst meta
  end.

(** X9.  A call changes at most one member of one entry: the member of
    its own kind under its own name, and that only when the member is
    still null.  Every other member, every other name, and a member
    already registered read the same after the call as before. *)
Theorem registry_call_footprint (o : operation) (r : ModelRegistry)
        (k : kind) (n : string) :
  writes o <> Some k \/ name_of o <> n \/ refused o r = true ->
  slot k (stored n (step r o)) = slot k (stored n r).
Proof.
  intros Hyp. revert Hyp. open_step o; intros Hyp;
    repeat case_bool_decide; cbn [model_registry_ snd];
    destruct (decide (name = n)) as [->|N];
    rewrite ?lookup_insert_eq, ?lookup_insert_ne by assumption;
    rewrite ?SL, ?SN by assumption; cbn [default from_option id];
    try reflexivity;
    destruct k; cbn [slot causal_lm_factory dialog_factory model_args_loader
                       quant_args_loader]; try reflexivity;
    exfalso;
    repeat match goal with
           | I : is_Some _ |- _ => destruct I as [? I]
           end;
    destruct Hyp as [Hyp|[Hyp|Hyp]]; congruence.
Qed.

(** X10.  Every call, a getter included, goes through [operator[]] and so
    leaves its name as a key of the map: the keys after the call are the
    keys before together with the name.  A getter on a name that is no key
    stores a value-initialised entry under it. *)
Theorem registry_keys_grow :
  forall (o : operation) (r : ModelRegistry),
    dom (model_registry_ (step r o)) = {[name_of o]} ∪ dom (model_registry_ r) /\
    (writes o = None -> model_registry_ r !! name_of o = None ->
     model_registry_ (step r o) = <[name_of o := empty_meta]> (model_registry_ r)).
Proof.
  intros o r. split.
  - open_step o; repeat case_bool_decide; cbn [model_registry_ snd];
      rewrite ?dom_insert_L, SD, ?(assoc_L (∪)), ?union_idemp_L; reflexivity.
  - destruct o as [name f|name f|name f|name f|name|name|name|name];
      cbn [writes name_of step]; try discriminate; intros _ E;
      unfold get_causallm_factory, get_model_args_loader, get_quant_args_loader,
        get_dialog_factory, subscript; rewrite E; reflexivity.
Qed.

(** X11.  A call writes a warning exactly when it is a registration that
    finds its member already registered; the warnings written before are
    kept, and the refused call stores nothing. *)
Theorem registry_warns_iff_refused :
  forall (o : operation) (r : ModelRegistry),
    warnings (step r o)
    = (if refused o r then warnings r ++ [warning_of o] else warnings r) /\
    (refused o r = true ->
     forall n, stored n (step r o) = stored n r).
Proof.
  intros o r. split.
  - open_step o; repeat case_bool_decide; cbn [model_registry_ warnings snd];
      try reflexivity; exfalso;
      repeat match goal with
             | N : ~ (_ <> None) |- _ => apply dec_stable in N
             | I : is_Some _ |- _ => destruct I as [x I]
             | I : ~ is_Some _ |- _ => apply eq_None_not_Some in I
             end; first [contradiction | congruence].
  - intros R n. revert R. open_step o; intros R;
      repeat case_bool_decide; cbn [model_registry_ snd];
      try discriminate;
      try (destruct (decide (name = n)) as [->|N];
           [rewrite ?SL; reflexivity|rewrite ?SN by assumption; reflexivity]);
      exfalso;
      repeat match goal with
             | N : ~ (_ <> None) |- _ => apply dec_stable in N
             | I : is_Some _ |- _ => destruct I as [x I]
             end; first [contradiction | congruence].
Qed.

End WithCallables.

(** With a factory registered for "mpt", a second registration under the
    same name is refused and the getter's entry stays the first. *)
Lemma registry_call_footprint_witness :
  causal_lm_factory
    (stored (H := Scenarios.named_callables) "mpt"
       (step Scenarios.mpt_registered
             (RegisterCausalLM (H := Scenarios.named_callables) "mpt"
                               (Some "Other"%string))))
  = Some "MPTForCausalLM"%string.
Proof.
  exact (registry_call_footprint (H := Scenarios.named_callables)
           (RegisterCausalLM (H := Scenarios.named_callables) "mpt"
                             (Some "Other"%string))
           Scenarios.mpt_registered
           CausalLM "mpt" (or_intror (or_intror eq_refl))).
Defined.

End RegistryCallFacts.


(** ** Fused loading: a checkpoint in several files *)

Module LinearRunFacts.
Import Linear LinearRuns LinearFacts.

Lemma load_weights_complete (ts : list Tensor) (weight merged : Tensor) :
  cat0 ts = Ok merged -> sizes weight = sizes merged ->
  load_weights (map Some ts) weight = Ok (true, [], merged).
Proof.
  intros Hcat Hsz. unfold load_weights.
  rewrite forallb_defined_Some, omap_id_Some, Hcat.
  cbn [negb mbind outcome_bind Outcome.bind]. unfold CHECK.
  rewrite bool_decide_eq_true_2 by assumption.
  cbn [mbind outcome_bind Outcome.bind]. unfold copy_. rewrite Hsz.
  now destruct merged.
Qed.

Lemma load_weights_pending (wl : list (option Tensor)) (weight : Tensor) :
  forallb defined wl = false -> load_weights wl weight = Ok (false, wl, weight).
Proof. intros E. unfold load_weights. now rewrite E. Qed.

Lemma forallb_defined_In (wl : list (option Tensor)) :
  forallb defined wl = false -> In None wl.
Proof.
  induction wl as [|[t|] wl IH]; cbn; [discriminate| |auto].
  intros E. right. now apply IH.
Qed.

Lemma resize_to_same (n : nat) (wl : list (option Tensor)) :
  length wl = n -> resize_to n wl = wl.
Proof. intros <-. unfold resize_to. now rewrite Nat.ltb_irrefl. Qed.


Section WithStateDict.
Context `{StateDictOps}.

Lemma offers_same_rank (a b : ColumnParallelLinearImpl) (sds : list StateDict)
      (p : string) :
  same_rank a b -> offers a sds p = offers b sds p.
Proof. intros [R W]. unfold offers, shard_of. now rewrite R, W. Qed.

(** The loop over the prefixes when no shard arrives for a slot already
    filled: every slot offered is filled, the others are kept. *)
Lemma collect_shards_spec (self : ColumnParallelLinearImpl) (sd : StateDict)
      (prefixes : list string) (i0 : nat) (wl : list (option Tensor)) :
  (i0 + length prefixes <= length wl)%nat ->
  (forall j p, prefixes !! j = Some p -> shard_of self sd p <> None ->
               wl !! (i0 + j)%nat = Some None) ->
  exists wl',
    collect_shards self sd i0 prefixes wl = Ok wl' /\
    length wl' = length wl /\
    (forall i, (i < i0)%nat -> wl' !! i = wl !! i) /\
    (forall j p, prefixes !! j = Some p ->
       wl' !! (i0 + j)%nat = match shard_of self sd p with
                             | Some t => Some (Some t)
                             | None => wl !! (i0 + j)%nat
                             end).
Proof.
  revert i0 wl.
  induction prefixes as [|p rest IH]; intros i0 wl Hlen Hfree; cbn [collect_shards].
  - exists wl. repeat split; auto. intros j p E. discriminate.
  - cbn [length] in Hlen.
    change (get_sharded_tensor sd (p +:+ "weight") 0 (rank self) (world_size self))
      with (shard_of self sd p).
    destruct (shard_of self sd p) as [weight|] eqn:G.
    + pose proof (Hfree 0%nat p eq_refl ltac:(congruence)) as H0.
      rewrite Nat.add_0_r in H0. rewrite H0.
      cbn [mbind outcome_bind Outcome.bind defined negb CHECK].
      destruct (IH (S i0) (<[i0 := Some weight]> wl)) as (wl' & E & L & Hlow & Hin).
      * rewrite length_insert. lia.
      * intros j q Hq Ho. rewrite list_lookup_insert_ne by lia.
        replace (S i0 + j)%nat with (i0 + S j)%nat by lia.
        now apply (Hfree (S j) q).
      * exists wl'. split; [assumption|]. rewrite length_insert in L.
        split; [assumption|]. split.
        -- intros i Hi. rewrite Hlow by lia. apply list_lookup_insert_ne. lia.
        -- intros [|j] q Hq.
           ++ injection Hq as <-. rewrite G, Nat.add_0_r, Hlow by lia.
              apply list_lookup_insert_eq. lia.
           ++ replace (i0 + S j)%nat with (S i0 + j)%nat by lia.
              rewrite (Hin j q Hq). destruct (shard_of self sd q); [reflexivity|].
              apply list_lookup_insert_ne. lia.
    + destruct (IH (S i0) wl) as (wl' & E & L & Hlow & Hin).
      * lia.
      * intros j q Hq Ho. replace (S i0 + j)%nat with (i0 + S j)%nat by lia.
        now apply (Hfree (S j) q).
      * exists wl'. split; [assumption|]. split; [assumption|]. split.
        -- intros i Hi. apply Hlow. lia.
        -- intros [|j] q Hq.
           ++ injection Hq as <-. rewrite G, Nat.add_0_r. apply Hlow. lia.
           ++ replace (i0 + S j)%nat with (S i0 + j)%nat by lia. now apply Hin.
Qed.



Lemma list_lookup_all_Some (wl : list (option Tensor)) (ts : list Tensor) :
  length wl = length ts ->
  (forall i t, ts !! i = Some t -> wl !! i = Some (Some t)) ->
  wl = map Some ts.
Proof.
  intros L E. apply list_eq. intros i. rewrite list_lookup_fmap.
  destruct (ts !! i) as [t|] eqn:T; cbn.
  - now apply E.
  - apply lookup_ge_None. apply lookup_ge_None in T. lia.
Qed.

(** One file while loading is under way. *)
Lemma under_way_step (self : ColumnParallelLinearImpl) (sd : StateDict)
      (rest : list StateDict) (prefixes : list string) (ts : list Tensor)
      (merged : Tensor) :
  length ts = length prefixes ->
  cat0 ts = Ok merged ->
  under_way self prefixes ts merged (sd :: rest) ->
  exists self',
    load_state_dict_fused self sd prefixes = Ok self' /\
    same_rank self' self /\
    (under_way self' prefixes ts merged rest \/ done self' prefixes merged rest).
Proof.
  intros Hts Hcat (Hlen & Hsz & Hslots & Hnone).
  set (wl := resize_to (length prefixes) (weight_list_ self)) in *.
  assert (Hof : forall p, offers self (sd :: rest) p
                = match shard_of self sd p with
                  | Some t => t :: offers self rest p
                  | None => offers self rest p
                  end).
  { intros p. unfold offers. cbn [omap list_omap].
    now destruct (shard_of self sd p). }
  destruct (collect_shards_spec self sd prefixes 0 wl) as (wl1 & E & L & _ & Hin).
  - cbn. lia.
  - intros j p Hp Ho. cbn [Nat.add].
    destruct (lookup_lt_is_Some_2 ts j) as [t Ht].
    { rewrite Hts. now apply lookup_lt_Some in Hp. }
    destruct (Hslots j p t Hp Ht) as [[_ O]|[S _]]; [|assumption].
    rewrite Hof in O. destruct (shard_of self sd p); [discriminate|congruence].
  - cbn [Nat.add] in Hin.
    assert (Hnew : forall i p t, prefixes !! i = Some p -> ts !! i = Some t ->
               (wl1 !! i = Some (Some t) /\ offers self rest p = []) \/
               (wl1 !! i = Some None /\ offers self rest p = [t])).
    { intros i p t Hp Ht. rewrite (Hin i p Hp).
      destruct (Hslots i p t Hp Ht) as [[S O]|[S O]]; rewrite Hof in O;
        destruct (shard_of self sd p) as [t'|]; try discriminate; auto.
      injection O as -> O. auto. }
    unfold load_state_dict_fused. fold wl. rewrite E.
    cbn [mbind outcome_bind Outcome.bind].
    destruct (forallb defined wl1) eqn:F.
    + assert (wl1 = map Some ts) as ->.
      { apply list_lookup_all_Some; [congruence|].
        intros i t Ht.
        destruct (lookup_lt_is_Some_2 prefixes i) as [p Hp].
        { rewrite <- Hts. now apply lookup_lt_Some in Ht. }
        destruct (Hnew i p t Hp Ht) as [[S _]|[S _]]; [assumption|].
        destruct (forallb_defined_lookup _ i F) as [x Hx].
        { apply lookup_lt_Some in S. assumption. }
        congruence. }
      rewrite (load_weights_complete ts _ merged Hcat Hsz).
      cbn [mbind outcome_bind Outcome.bind].
      eexists. split; [reflexivity|]. split; [split; reflexivity|]. right.
      split; [reflexivity|]. split; [reflexivity|]. split; [now left|].
      intros p Hp. apply list_elem_of_In, list_elem_of_lookup in Hp as [i Hp].
      destruct (lookup_lt_is_Some_2 ts i) as [t Ht].
      { rewrite Hts. now apply lookup_lt_Some in Hp. }
      destruct (Hnew i p t Hp Ht) as [[_ O]|[S _]].
      * rewrite <- O. now apply offers_same_rank.
      * rewrite list_lookup_fmap, Ht in S. discriminate.
    + rewrite (load_weights_pending _ _ F).
      cbn [mbind outcome_bind Outcome.bind].
      eexists. split; [reflexivity|]. split; [split; reflexivity|]. left.
      unfold under_way. cbn [weight_list_ weight_].
      rewrite resize_to_same by congruence.
      split; [congruence|]. split; [assumption|]. split.
      * intros i p t Hp Ht.
        rewrite (offers_same_rank _ self) by (split; reflexivity). now apply Hnew.
      * now apply forallb_defined_In.
Qed.

(** One file after loading is done. *)
Lemma done_step (self : ColumnParallelLinearImpl) (sd : StateDict)
      (rest : list StateDict) (prefixes : list string) (merged : Tensor) :
  prefixes <> [] ->
  done self prefixes merged (sd :: rest) ->
  exists self',
    load_state_dict_fused self sd prefixes = Ok self' /\
    same_rank self' self /\ done self' prefixes merged rest.
Proof.
  intros Hne (Hl & Hw & Hwl & Hoff).
  assert (Hres : resize_to (length prefixes) (weight_list_ self)
                 = replicate (length prefixes) None).
  { destruct Hwl as [-> | ->].
    - unfold resize_to. cbn [length]. destruct prefixes; [contradiction|].
      cbn [length Nat.ltb Nat.leb]. rewrite Nat.sub_0_r. reflexivity.
    - apply resize_to_same. apply length_replicate. }
  assert (Hno : forall p, In p prefixes ->
                          shard_of self sd p = None /\ offers self rest p = []).
  { intros p Hp. specialize (Hoff p Hp). unfold offers in *.
    cbn [omap list_omap] in Hoff.
    destruct (shard_of self sd p); [discriminate|]. auto. }
  destruct (collect_shards_spec self sd prefixes 0 (replicate (length prefixes) None))
    as (wl1 & E & L & _ & Hin).
  - rewrite length_replicate. cbn. lia.
  - intros j p Hp Ho. exfalso. apply Ho. apply Hno.
    apply list_elem_of_In, list_elem_of_lookup. eauto.
  - assert (wl1 = replicate (length prefixes) None) as ->.
    { apply list_eq. intros i.
      destruct (prefixes !! i) as [p|] eqn:Hp.
      - specialize (Hin i p Hp). cbn [Nat.add] in Hin. rewrite Hin.
        destruct (Hno p) as [-> _]; [|reflexivity].
        apply list_elem_of_In, list_elem_of_lookup. eauto.
      - apply lookup_ge_None in Hp. rewrite !(proj2 (lookup_ge_None _ _)); auto.
        + rewrite length_replicate. lia.
        + rewrite L, length_replicate. lia. }
    unfold load_state_dict_fused. rewrite Hres, E.
    cbn [mbind outcome_bind Outcome.bind].
    rewrite load_weights_pending.
    2:{ destruct prefixes; [contradiction|reflexivity]. }
    cbn [mbind outcome_bind Outcome.bind].
    eexists. split; [reflexivity|]. split; [split; reflexivity|].
    split; [assumption|]. split; [assumption|]. split; [now right|].
    intros p Hp. rewrite (offers_same_rank _ self) by (split; reflexivity).
    now apply Hno.
Qed.

Lemma under_way_same_rank (a b : ColumnParallelLinearImpl) prefixes ts merged rest :
  same_rank a b -> weight_list_ a = weight_list_ b -> weight_ a = weight_ b ->
  under_way a prefixes ts merged rest -> under_way b prefixes ts merged rest.
Proof.
  intros R WL W (A & B & C & D). unfold under_way. rewrite <- WL, <- W.
  repeat split; try assumption.
  intros i p t Hp Ht. rewrite <- (offers_same_rank a b) by assumption. now apply C.
Qed.

(** The files one after the other. *)
Lemma load_all_reaches_done (self : ColumnParallelLinearImpl) (sds : list StateDict)
      (prefixes : list string) (ts : list Tensor) (merged : Tensor) :
  prefixes <> [] ->
  length ts = length prefixes ->
  cat0 ts = Ok merged ->
  under_way self prefixes ts merged sds \/ done self prefixes merged sds ->
  exists self', load_all self sds prefixes = Ok self' /\ done self' prefixes merged [].
Proof.
  intros Hne Hts Hcat. revert self.
  induction sds as [|sd rest IH]; intros self Hinv; cbn [load_all].
  - destruct Hinv as [(Hlen & _ & Hslots & Hnone)|Hd]; [|eauto].
    exfalso. apply list_elem_of_In, list_elem_of_lookup in Hnone as [i Hi].
    destruct (lookup_lt_is_Some_2 prefixes i) as [p Hp].
    { rewrite <- Hlen. now apply lookup_lt_Some in Hi. }
    destruct (lookup_lt_is_Some_2 ts i) as [t Ht].
    { rewrite Hts. now apply lookup_lt_Some in Hp. }
    destruct (Hslots i p t Hp Ht) as [[S _]|[_ O]]; [congruence|discriminate].
  - destruct Hinv as [Hu|Hd].
    + destruct (under_way_step self sd rest prefixes ts merged Hts Hcat Hu)
        as (self1 & E & _ & Hnext).
      rewrite E. cbn [mbind outcome_bind Outcome.bind]. now apply IH.
    + destruct (done_step self sd rest prefixes merged Hne Hd) as (self1 & E & _ & Hnext).
      rewrite E. cbn [mbind outcome_bind Outcome.bind]. apply IH. now right.
Qed.

(** X13.  A fresh layer fed the files of a checkpoint in which every part
    is offered exactly once, in whatever file and whatever order, ends up
    loaded, and its weight holds the parts one after the other in the
    order of the prefixes, given that the parts can be concatenated to the
    shape of the registered weight. *)
Theorem fused_loading_completes (self : ColumnParallelLinearImpl)
        (sds : list StateDict) (prefixes : list string) (ts : list Tensor)
        (merged : Tensor) :
  fresh self ->
  prefixes <> [] ->
  Forall2 (fun p t => offers self sds p = [t]) prefixes ts ->
  cat0 ts = Ok merged ->
  sizes (weight_ self) = sizes merged ->
  exists self',
    load_all self sds prefixes = Ok self' /\
    is_loaded_ self' = true /\
    weight_ self' = merged /\
    elems (weight_ self') = concat (map elems ts).
Proof.
  intros [Hwl Hl] Hne Hoff Hcat Hsz.
  pose proof (Forall2_length _ _ _ Hoff) as Hlen.
  destruct (load_all_reaches_done self sds prefixes ts merged Hne
              ltac:(congruence) Hcat) as (self' & E & D1 & D2 & _).
  - left. unfold under_way. rewrite Hwl.
    assert (R : resize_to (length prefixes) [] = replicate (length prefixes) None).
    { unfold resize_to. cbn [length]. destruct prefixes; [contradiction|].
      cbn [length Nat.ltb Nat.leb]. rewrite Nat.sub_0_r. reflexivity. }
    rewrite R. split; [apply length_replicate|]. split; [assumption|]. split.
    + intros i p t Hp Ht. right. split.
      * apply lookup_replicate_2. now apply lookup_lt_Some in Hp.
      * now apply (Forall2_lookup_lr _ _ _ i p t Hoff).
    + destruct prefixes; [contradiction|]. now left.
  - exists self'. repeat split; try assumption.
    rewrite D2. now apply cat0_elems.
Qed.

End WithStateDict.


(** The key rows arrive in the first file and the query rows in the second:
    the weight holds the query rows first. *)
Lemma fused_loading_completes_witness :
  exists self' : ColumnParallelLinearImpl,
    load_all (H := Scenarios.whole_files) Scenarios.fused_layer
      [Scenarios.k_file; Scenarios.q_file] ["q_proj."; "k_proj."] = Ok self' /\
    is_loaded_ self' = true /\
    elems (weight_ self') = [1; 2; 3; 4; 5; 6; 7; 8].
Proof.
  destruct (fused_loading_completes (H := Scenarios.whole_files)
              Scenarios.fused_layer [Scenarios.k_file; Scenarios.q_file]
              ["q_proj."; "k_proj."] [Scenarios.q_rows; Scenarios.k_rows]
              {| sizes := [4; 2]; elems := [1; 2; 3; 4; 5; 6; 7; 8] |}
              (conj eq_refl eq_refl) ltac:(discriminate)
              ltac:(repeat constructor)
              eq_refl eq_refl)
    as (self' & E & L & _ & W).
  exists self'. split; [exact E|]. split; [exact L|exact W].
Defined.

End LinearRunFacts.


(** ** Fused qkv tensors, head by head *)

Module HeadsFacts.
Import Mpt Heads TorchFacts MptFacts.

Lemma block_take_drop {A} (r i m o : nat) (l : list A) :
  (i < m)%nat ->
  block r i (take (m * r) (drop (o * r) l)) = block r (o + i) l.
Proof.
  intros Hi. unfold block.
  replace (m * r)%nat with (i * r + (m - i) * r)%nat by nia.
  rewrite <- take_drop_commute, take_take, drop_drop.
  replace (r `min` ((m - i) * r))%nat with r by nia.
  now replace ((o + i) * r)%nat with (o * r + i * r)%nat by nia.
Qed.

Lemma product_two (a b : Z) : product [a; b] = a * b.
Proof. rewrite !product_cons. change (product []) with 1. lia. Qed.

Lemma product_one (a : Z) : product [a] = a.
Proof. rewrite !product_cons. change (product []) with 1. lia. Qed.

(** [reshape_qkv_before_sharding] on a fused weight or bias of [n] heads. *)
Lemma before_sharding_run (self : MPTAttention) (n : Z) (t : Tensor) :
  0 < n -> 0 < head_dim_ self -> 0 < hidden_size_ self ->
  Z.of_nat (length (elems t)) = numel t ->
  sizes t = fused_weight_shape self n \/ sizes t = fused_bias_shape self n ->
  reshape_qkv_before_sharding self t
  = Ok {| sizes := sizes t;
          elems := swapped (Z.to_nat n) (block_elems self t) (elems t) |}.
Proof.
  intros Hn Hd Hs HL Hshape.
  destruct t as [sz el]. cbn [sizes elems] in *.
  unfold reshape_qkv_before_sharding, block_elems, dim.
  unfold numel in HL. cbn [sizes] in HL.
  destruct Hshape as [-> | ->];
    unfold fused_weight_shape, fused_bias_shape in *;
    reduce_dim;
    rewrite !product_cons in HL; change (product []) with 1 in HL.
  - set (hd := head_dim_ self) in *. set (hs := hidden_size_ self) in *.
    rewrite (view_permute_reshape _ 3 n [hd; hs] _ _ [3 * n * hd; hs]).
    + cbn [elems]. now rewrite product_two.
    + repeat constructor; assumption.
    + lia.
    + assumption.
    + cbn [elems]. rewrite product_two. lia.
    + unfold numel. cbn [sizes]. apply (infer_size_one [3] [hd; hs] n).
      * repeat constructor.
      * repeat constructor; assumption.
      * rewrite !product_cons. change (product []) with 1. lia.
    + apply (infer_size_one [] [hs] (3 * n * hd)).
      * constructor.
      * repeat constructor; assumption.
      * rewrite !product_cons. change (product []) with 1. lia.
  - set (hd := head_dim_ self) in *.
    rewrite (view_permute_reshape _ 3 n [hd] _ _ [3 * n * hd]).
    + cbn [elems]. now rewrite product_one.
    + repeat constructor; assumption.
    + lia.
    + assumption.
    + cbn [elems]. rewrite product_one. lia.
    + unfold numel. cbn [sizes]. apply (infer_size_one [3] [hd] n).
      * repeat constructor.
      * repeat constructor; assumption.
      * rewrite !product_cons. change (product []) with 1. lia.
    + apply (infer_size_one [] [] (3 * n * hd)).
      * constructor.
      * constructor.
      * rewrite !product_cons. change (product []) with 1. lia.
Qed.

(** [reshape_qkv_after_sharding] on a fused weight or bias of [k] heads. *)
Lemma after_sharding_run (self : MPTAttention) (k : Z) (t : Tensor) :
  0 < k -> 0 < head_dim_ self -> 0 < hidden_size_ self ->
  Z.of_nat (length (elems t)) = numel t ->
  sizes t = fused_weight_shape self k \/ sizes t = fused_bias_shape self k ->
  reshape_qkv_after_sharding self t
  = Ok {| sizes := sizes t; elems := swapped 3 (block_elems self t) (elems t) |}.
Proof.
  intros Hn Hd Hs HL Hshape.
  destruct t as [sz el]. cbn [sizes elems] in *.
  unfold reshape_qkv_after_sharding, block_elems, dim.
  unfold numel in HL. cbn [sizes] in HL.
  destruct Hshape as [-> | ->];
    unfold fused_weight_shape, fused_bias_shape in *;
    reduce_dim;
    rewrite !product_cons in HL; change (product []) with 1 in HL.
  - set (hd := head_dim_ self) in *. set (hs := hidden_size_ self) in *.
    rewrite (view_permute_reshape _ k 3 [hd; hs] _ _ [3 * k * hd; hs]).
    + cbn [elems]. now rewrite product_two.
    + repeat constructor; assumption.
    + assumption.
    + lia.
    + cbn [elems]. rewrite product_two. lia.
    + unfold numel. cbn [sizes]. apply (infer_size_one [] [3; hd; hs] k).
      * constructor.
      * repeat constructor; assumption.
      * rewrite !product_cons. change (product []) with 1. lia.
    + apply (infer_size_one [] [hs] (3 * k * hd)).
      * constructor.
      * repeat constructor; assumption.
      * rewrite !product_cons. change (product []) with 1. lia.
  - set (hd := head_dim_ self) in *.
    rewrite (view_permute_reshape _ k 3 [hd] _ _ [3 * k * hd]).
    + cbn [elems]. now rewrite product_one.
    + repeat constructor; assumption.
    + assumption.
    + lia.
    + cbn [elems]. rewrite product_one. lia.
    + unfold numel. cbn [sizes]. apply (infer_size_one [] [3; hd] k).
      * constructor.
      * repeat constructor; assumption.
      * rewrite !product_cons. change (product []) with 1. lia.
    + apply (infer_size_one [] [] (3 * k * hd)).
      * constructor.
      * constructor.
      * rewrite !product_cons. change (product []) with 1. lia.
Qed.

Lemma block_elems_pos (self : MPTAttention) (t : Tensor) :
  0 < head_dim_ self -> 0 < hidden_size_ self -> (0 < block_elems self t)%nat.
Proof. intros Hd Hs. unfold block_elems. destruct (dim t =? 2); nia. Qed.

Lemma fused_length (self : MPTAttention) (n : Z) (t : Tensor) :
  0 < n -> 0 < head_dim_ self -> 0 < hidden_size_ self ->
  Z.of_nat (length (elems t)) = numel t ->
  sizes t = fused_weight_shape self n \/ sizes t = fused_bias_shape self n ->
  length (elems t) = (3 * Z.to_nat n * block_elems self t)%nat.
Proof.
  intros Hn Hd Hs HL Hshape. unfold numel, block_elems, dim in *.
  destruct Hshape as [E|E]; rewrite E in *;
    unfold fused_weight_shape, fused_bias_shape in *; cbn [length];
    rewrite ?product_two, ?product_one in HL.
  - change (Z.of_nat 2 =? 2) with true. cbn iota. nia.
  - change (Z.of_nat 1 =? 2) with false. cbn iota. nia.
Qed.

(** X14.  Sharding by heads keeps the projections together: take the rows
    of any [k] consecutive heads from the tensor [reshape_qkv_before_sharding]
    made, and [reshape_qkv_after_sharding] turns them into the fused tensor
    of those heads alone, with the query, key and value block of each of
    the heads taken from the original tensor. *)
Theorem sharded_heads_keep_projections (self : MPTAttention) (n_heads : Z)
        (t t' : Tensor) (h0 k : nat) :
  0 < n_heads -> 0 < head_dim_ self -> 0 < hidden_size_ self ->
  Z.of_nat (length (elems t)) = numel t ->
  sizes t = fused_weight_shape self n_heads \/ sizes t = fused_bias_shape self n_heads ->
  (0 < k)%nat -> (h0 + k <= Z.to_nat n_heads)%nat ->
  reshape_qkv_before_sharding self t = Ok t' ->
  exists t2 : Tensor,
    reshape_qkv_after_sharding self (local_heads self t' h0 k) = Ok t2 /\
    sizes t2 = sizes (local_heads self t' h0 k) /\
    (forall c j : nat, (c < 3)%nat -> (j < k)%nat ->
       block (block_elems self t) (c * k + j) (elems t2)
       = block (block_elems self t) (c * Z.to_nat n_heads + (h0 + j)) (elems t)).
Proof.
  intros Hn Hd Hs HL Hshape Hk Hrange Hbefore.
  rewrite (before_sharding_run self n_heads t Hn Hd Hs HL Hshape) in Hbefore.
  injection Hbefore as <-.
  pose proof (block_elems_pos self t Hd Hs) as Hr.
  pose proof (fused_length self n_heads t Hn Hd Hs HL Hshape) as EL.
  set (r := block_elems self t) in *.
  set (t' := {| sizes := sizes t; elems := swapped (Z.to_nat n_heads) r (elems t) |}).
  assert (Hdim : dim t' = dim t) by reflexivity.
  assert (Hre : block_elems self t' = r) by (unfold block_elems; now rewrite Hdim).
  set (local := local_heads self t' h0 k).
  assert (Hld : dim local = dim t).
  { unfold local, local_heads. unfold dim at 1. cbn [sizes]. rewrite Hdim.
    unfold dim. destruct Hshape as [E|E]; rewrite E; reflexivity. }
  assert (Hlr : block_elems self local = r) by (unfold block_elems; now rewrite Hld).
  assert (Hls : sizes local = fused_weight_shape self (Z.of_nat k)
                \/ sizes local = fused_bias_shape self (Z.of_nat k)).
  { unfold local, local_heads. cbn [sizes]. destruct (dim t' =? 2); auto. }
  assert (Hll : length (elems local) = (3 * k * r)%nat).
  { unfold local, local_heads. cbn [elems]. rewrite Hre.
    unfold t'. cbn [elems]. rewrite length_take, length_drop.
    rewrite (swapped_length 3 (Z.to_nat n_heads) r) by (assumption || lia || nia).
    nia. }
  assert (Hln : Z.of_nat (length (elems local)) = numel local).
  { assert (Hcase : (sizes local = fused_weight_shape self (Z.of_nat k)
                      /\ r = Z.to_nat (head_dim_ self * hidden_size_ self))
                     \/ (sizes local = fused_bias_shape self (Z.of_nat k)
                         /\ r = Z.to_nat (head_dim_ self))).
    { unfold local, local_heads, r, block_elems. cbn [sizes]. rewrite Hdim.
      unfold dim. destruct Hshape as [E|E]; rewrite E; [left|right];
        split; reflexivity. }
    rewrite Hll. unfold numel.
    destruct Hcase as [[E1 E2]|[E1 E2]]; rewrite E1, E2;
      unfold fused_weight_shape, fused_bias_shape;
      rewrite ?product_two, ?product_one; nia. }
  rewrite (after_sharding_run self (Z.of_nat k) local ltac:(lia) Hd Hs Hln Hls).
  eexists. split; [reflexivity|]. cbn [sizes elems]. split; [reflexivity|].
  intros c j Hc Hj. rewrite Hlr.
  rewrite (swapped_block k 3 r (elems local) j c Hr ltac:(lia)) by (assumption || lia).
  unfold local, local_heads. cbn [elems]. rewrite Hre.
  replace (3 * h0 * r)%nat with ((3 * h0) * r)%nat by lia.
  replace (3 * k * r)%nat with ((3 * k) * r)%nat by lia.
  rewrite block_take_drop by lia.
  replace (3 * h0 + (j * 3 + c))%nat with ((h0 + j) * 3 + c)%nat by lia.
  unfold t'. cbn [elems].
  apply (swapped_block 3 (Z.to_nat n_heads) r (elems t) c (h0 + j)%nat Hr);
    (assumption || lia).
Qed.

(** The rows of [k] heads kept head by head, of shape [[k * 3 * head_dim,
    hidden_size]] or [[k * 3 * head_dim]]: the view, the permutation and the
    reshape succeed and move the block of head [j] and projection [c] from
    position [j * 3 + c] to position [c * k + j]. *)
Lemma rows_by_head_to_projections (m : MPTAttention) (k : Z) (t : Tensor) :
  0 < k -> 0 < head_dim_ m -> 0 < hidden_size_ m ->
  Z.of_nat (length (elems t)) = numel t ->
  sizes t = [k * 3 * head_dim_ m; hidden_size_ m]
  \/ sizes t = [k * 3 * head_dim_ m] ->
  exists t2 : Tensor,
    reshape_qkv_after_sharding m t = Ok t2 /\
    sizes t2 = sizes t /\
    forall c j : nat, (c < 3)%nat -> (j < Z.to_nat k)%nat ->
      block (block_elems m t) (c * Z.to_nat k + j) (elems t2)
      = block (block_elems m t) (j * 3 + c) (elems t).
Proof.
  intros Hk Hd Hs HL Hshape.
  assert (Hshape' : sizes t = fused_weight_shape m k \/ sizes t = fused_bias_shape m k).
  { unfold fused_weight_shape, fused_bias_shape.
    replace (3 * k * head_dim_ m) with (k * 3 * head_dim_ m) by lia. assumption. }
  rewrite (after_sharding_run m k t Hk Hd Hs HL Hshape').
  eexists. split; [reflexivity|]. cbn [sizes elems]. split; [reflexivity|].
  intros c j Hc Hj.
  apply (swapped_block (Z.to_nat k) 3 (block_elems m t) (elems t) j c).
  - now apply block_elems_pos.
  - lia.
  - rewrite (fused_length m k t Hk Hd Hs HL Hshape'). lia.
  - assumption.
  - assumption.
Qed.

(** X15.  GPT-NeoX checkpoints keep the fused tensor head by head.  On the
    rows of [k] heads, of shape [[k * 3 * head_dim, hidden_size]] or
    [[k * 3 * head_dim]], [reshape_qkv_tensor] succeeds, keeps the shape, and
    moves the block of head [j] and projection [c] from position [j * 3 + c]
    to position [c * k + j]: first all queries, then all keys, then all
    values, which is how the forward pass cuts the output in three. *)
Theorem gpt_neox_reshape_qkv_layout (self : GptNeox.GPTNeoXAttention) (k : Z)
        (t : Tensor) :
  0 < k -> 0 < GptNeox.head_dim_ self -> 0 < GptNeox.hidden_size_ self ->
  Z.of_nat (length (elems t)) = numel t ->
  sizes t = [k * 3 * GptNeox.head_dim_ self; GptNeox.hidden_size_ self]
  \/ sizes t = [k * 3 * GptNeox.head_dim_ self] ->
  exists t2 : Tensor,
    GptNeox.reshape_qkv_tensor self t = Ok t2 /\
    sizes t2 = sizes t /\
    forall c j : nat, (c < 3)%nat -> (j < Z.to_nat k)%nat ->
      block (block_elems (of_gpt_neox self) t) (c * Z.to_nat k + j) (elems t2)
      = block (block_elems (of_gpt_neox self) t) (j * 3 + c) (elems t).
Proof. apply (rows_by_head_to_projections (of_gpt_neox self) k t). Qed.

(** X16.  Bloom checkpoints keep the fused tensor head by head as well, and
    its [reshape_qkv_tensor] does the same: on the rows of [k] heads it
    succeeds, keeps the shape, and moves the block of head [j] and
    projection [c] from position [j * 3 + c] to position [c * k + j]. *)
Theorem bloom_reshape_qkv_layout (self : Bloom.BloomAttention) (k : Z)
        (t : Tensor) :
  0 < k -> 0 < Bloom.head_dim_ self -> 0 < Bloom.hidden_size_ self ->
  Z.of_nat (length (elems t)) = numel t ->
  sizes t = [k * 3 * Bloom.head_dim_ self; Bloom.hidden_size_ self]
  \/ sizes t = [k * 3 * Bloom.head_dim_ self] ->
  exists t2 : Tensor,
    Bloom.reshape_qkv_tensor self t = Ok t2 /\
    sizes t2 = sizes t /\
    forall c j : nat, (c < 3)%nat -> (j < Z.to_nat k)%nat ->
      block (block_elems (of_bloom self) t) (c * Z.to_nat k + j) (elems t2)
      = block (block_elems (of_bloom self) t) (j * 3 + c) (elems t).
Proof. apply (rows_by_head_to_projections (of_bloom self) k t). Qed.

(** Two heads of dimension one, hidden size two, rows (q0, k0, v0, q1, k1,
    v1): the keys come out as the third and fourth row. *)
Lemma gpt_neox_reshape_qkv_layout_witness :
  exists t2 : Tensor,
    GptNeox.reshape_qkv_tensor Scenarios.small_neox Scenarios.rows_by_head = Ok t2 /\
    block 2 2 (elems t2) = [20; 21] /\ block 2 3 (elems t2) = [50; 51].
Proof.
  destruct (gpt_neox_reshape_qkv_layout Scenarios.small_neox 2 Scenarios.rows_by_head
              eq_refl eq_refl eq_refl eq_refl (or_introl eq_refl))
    as (t2 & E & _ & B).
  exists t2. split; [exact E|]. split.
  - exact (B 1%nat 0%nat (le_n_S _ _ (le_S _ _ (le_n 1))) (le_S _ _ (le_n 1))).
  - exact (B 1%nat 1%nat (le_n_S _ _ (le_S _ _ (le_n 1))) (le_n 2)).
Defined.

(** The bias of the same two heads, (q0, k0, v0, q1, k1, v1): the values
    come out last. *)
Lemma bloom_reshape_qkv_layout_witness :
  exists t2 : Tensor,
    Bloom.reshape_qkv_tensor Scenarios.small_bloom Scenarios.bias_by_head = Ok t2 /\
    block 1 4 (elems t2) = [30] /\ block 1 5 (elems t2) = [60].
Proof.
  destruct (bloom_reshape_qkv_layout Scenarios.small_bloom 2 Scenarios.bias_by_head
              eq_refl eq_refl eq_refl eq_refl (or_intror eq_refl))
    as (t2 & E & _ & B).
  exists t2. split; [exact E|]. split.
  - exact (B 2%nat 0%nat (le_n 3) (le_S _ _ (le_n 1))).
  - exact (B 2%nat 1%nat (le_n 3) (le_n 2)).
Defined.

(** Two heads of dimension one, hidden size two: the rows handed to the
    rank of head 1 come out as (q1, k1, v1). *)
Lemma sharded_heads_keep_projections_witness :
  reshape_qkv_after_sharding Examples.small_attention
    (local_heads Examples.small_attention
       {| sizes := [6; 2]; elems := [0; 1; 4; 5; 8; 9; 2; 3; 6; 7; 10; 11] |} 1 1)
  = Ok {| sizes := [3; 2]; elems := [2; 3; 6; 7; 10; 11] |}.
Proof.
  destruct (sharded_heads_keep_projections Examples.small_attention 2
              Examples.small_wqkv
              {| sizes := [6; 2]; elems := [0; 1; 4; 5; 8; 9; 2; 3; 6; 7; 10; 11] |}
              1 1 eq_refl eq_refl eq_refl eq_refl (or_introl eq_refl)
              (le_n 1) (le_n 2) eq_refl)
    as (t2 & E & _).
  reflexivity.
Defined.

End HeadsFacts.

(** ** The plain loaders over the files of a checkpoint *)

Module PlainFacts.
Import Linear Plain.

Section WithStateDict.
Context `{StateDictOps}.

Lemma load_along_column (self : ColumnParallelLinearImpl) (sd : StateDict) :
  load_along 0 (of_column self) sd
  = (self' ← Linear.load_state_dict self sd; Ok (of_column self')).
Proof.
  unfold load_along, Linear.load_state_dict, of_column. cbn [rank world_size weight_].
  destruct (get_sharded_tensor sd "weight" 0 _ _) as [w|]; [|reflexivity].
  unfold CHECK. case_bool_decide; reflexivity.
Qed.

Lemma offered_cons (dim : Z) (self : Params) (sd : StateDict) (rest : list StateDict) :
  offered dim self (sd :: rest)
  = match get_sharded_tensor sd "weight" dim (rank self) (world_size self) with
    | Some w => w :: offered dim self rest
    | None => offered dim self rest
    end.
Proof.
  unfold offered. cbn [omap list_omap].
  now destruct (get_sharded_tensor sd "weight" dim (rank self) (world_size self)).
Qed.

Lemma offered_same (dim : Z) (a b : Params) (sds : list StateDict) :
  rank a = rank b -> world_size a = world_size b ->
  offered dim a sds = offered dim b sds.
Proof. intros R W. unfold offered. now rewrite R, W. Qed.

Lemma last_cons_indep {A} (x : A) (l : list A) (d d' : A) :
  List.last (x :: l) d = List.last (x :: l) d'.
Proof.
  revert x. induction l as [|y l IH]; intros x; [reflexivity|].
  change (List.last (y :: l) d = List.last (y :: l) d'). apply IH.
Qed.

Lemma load_files_fits (dim : Z) (sds : list StateDict) (self : Params) :
  Forall (fun w => sizes w = sizes (weight_ self)) (offered dim self sds) ->
  exists self',
    load_files dim self sds = Ok self' /\
    rank self' = rank self /\ world_size self' = world_size self /\
    sizes (weight_ self') = sizes (weight_ self) /\
    elems (weight_ self') = elems (List.last (offered dim self sds) (weight_ self)) /\
    is_loaded_ self'
    = (is_loaded_ self || negb (Nat.eqb (length (offered dim self sds)) 0))%bool.
Proof.
  revert self. induction sds as [|sd rest IH]; intros self Hfit; cbn [load_files].
  - exists self. cbn. rewrite orb_false_r. repeat split; reflexivity.
  - rewrite offered_cons in *. unfold load_along.
    destruct (get_sharded_tensor sd "weight" dim _ _) as [w|] eqn:G.
    + apply Forall_cons in Hfit as [Hw Hfit].
      unfold CHECK. rewrite bool_decide_eq_true_2 by congruence.
      cbn [mbind outcome_bind Outcome.bind].
      set (self1 := {| weight_ := copy_ (weight_ self) w; is_loaded_ := true;
                       rank := rank self; world_size := world_size self |}).
      destruct (IH self1) as (self' & E & R & W & S & L & F).
      { rewrite (offered_same dim self1 self) by reflexivity. exact Hfit. }
      rewrite (offered_same dim self1 self) in * by reflexivity.
      exists self'. split; [assumption|]. repeat split; try assumption.
      * rewrite L. destruct (offered dim self rest) as [|w' ws]; [reflexivity|].
        change (List.last (w :: w' :: ws) (weight_ self))
          with (List.last (w' :: ws) (weight_ self)).
        f_equal. apply last_cons_indep.
      * rewrite F. cbn [length Nat.eqb negb is_loaded_ self1]. now rewrite orb_true_r.
    + cbn [mbind outcome_bind Outcome.bind]. now apply IH.
Qed.

Lemma load_files_misfit (dim : Z) (sds : list StateDict) (self : Params) :
  Exists (fun w => sizes w <> sizes (weight_ self)) (offered dim self sds) ->
  load_files dim self sds = Err (CheckFailed "weight size mismatch").
Proof.
  revert self. induction sds as [|sd rest IH]; intros self Hex; cbn [load_files].
  - now apply Exists_nil in Hex.
  - rewrite offered_cons in Hex. unfold load_along.
    destruct (get_sharded_tensor sd "weight" dim _ _) as [w|] eqn:G.
    + unfold CHECK. case_bool_decide as Hs; [|reflexivity].
      cbn [mbind outcome_bind Outcome.bind].
      apply Exists_cons in Hex as [Hw|Hex]; [congruence|].
      apply IH. exact Hex.
    + cbn [mbind outcome_bind Outcome.bind]. now apply IH.
Qed.

(** X17.  A plain loader (row-parallel linear, the two embeddings, and the
    column-parallel linear without prefixes) fed the files of a checkpoint:
    if every weight the files offer has the registered shape, loading
    succeeds, the layer holds the last weight offered, and it is marked
    loaded exactly if it was before or some file offered a weight; an
    earlier weight is overwritten without complaint.  If some weight
    offered has another shape, loading aborts with "weight size
    mismatch". *)
Theorem plain_loading_last_wins :
  forall (dim : Z) (self : Params) (sds : list StateDict),
    (Forall (fun w => sizes w = sizes (weight_ self)) (offered dim self sds) ->
     exists self',
       load_files dim self sds = Ok self' /\
       sizes (weight_ self') = sizes (weight_ self) /\
       elems (weight_ self') = elems (List.last (offered dim self sds) (weight_ self)) /\
       is_loaded_ self'
       = (is_loaded_ self || negb (Nat.eqb (length (offered dim self sds)) 0))%bool) /\
    (Exists (fun w => sizes w <> sizes (weight_ self)) (offered dim self sds) ->
     aborted (load_files dim self sds)) /\
    (forall (column : ColumnParallelLinearImpl) (sd : StateDict),
       load_along 0 (of_column column) sd
       = (column' ← Linear.load_state_dict column sd; Ok (of_column column'))).
Proof.
  intros dim self sds. split; [|split].
  - intros Hfit.
    destruct (load_files_fits dim sds self Hfit) as (self' & E & _ & _ & S & L & F).
    eauto.
  - intros Hex. rewrite (load_files_misfit dim sds self Hex). now eexists.
  - apply load_along_column.
Qed.

End WithStateDict.

End PlainFacts.
